(** * SQL Cleanser: a shallow embedding of the front-end components, the
      statement pattern, the key-inference step, the key of a row, the
      table-ordering step, the comparison core and the statement parser,
      with their properties.

    Front end (TypeScript, under [src/src/frontend/src]):
    - [Text]         : the operations on texts the components use;
    - [ProgressBar]  : the enhanced progress bar ([ProgressBar.tsx], second
      version in the file), its clamp, fill width, decorations and
      percentage;
    - [Dropzone]     : [onDrop] and [removeFile] of [Dropzone.tsx], its
      readiness flags, border, main text and remove buttons;
    - [DirectionSelector] : the direction selector and its use of
      [localStorage];
    - [ComparisonNameInput] : the preview of the download name;
    - [App]          : the page of [App.tsx]: its state, buttons, messages,
      download name, countdown and the events that drive it.

    Back end (Python, as quoted in the project overview):
    - [Ingest]        : [INSERT_REGEX] of [ingest.py] and the texts it
      matches, for each setting of the flags it may be compiled with;
    - [TableOrdering] : the table-ordering step of [fuzz.py], together with
      the generation-based topological sort of the graph library it calls;
    - [Duplicates]    : the key of a row in the duplicate detection of
      [fuzz.py];
    - [KeyInference]  : the key-inference step of [ollama_utils.py];
    - [Compare]       : the comparison core ([compare_utils.py]), which is not
      part of the sources at hand and is modelled from the specification;
    - [StatementParser] : the parser ([parse_sql_file] of [ingest.py]),
      which is not part of the sources at hand either and is modelled from
      the specification. *)

From Stdlib Require Import QArith Qround Ascii String.
From stdpp Require Import gmap strings list sorting lexico.

Local Open Scope string_scope.
Local Open Scope list_scope.
Local Open Scope nat_scope.

(** ** Operations on texts shared by the components *)

Module Text.

(** [hay.startsWith(needle)]. *)
Fixpoint starts_with (needle hay : string) : bool :=
  match needle, hay with
  | EmptyString, _ => true
  | String _ _, EmptyString => false
  | String a needle', String b hay' =>
      Ascii.eqb a b && starts_with needle' hay'
  end.

(** [hay.includes(needle)] in JavaScript, [needle in hay] in Python. *)
Fixpoint includes (needle hay : string) : bool :=
  starts_with needle hay ||
  match hay with
  | EmptyString => false
  | String _ hay' => includes needle hay'
  end.

(** [s.replace(/[...]/g, by)] for a class [p] of single characters and a
    one-character replacement. *)
Fixpoint replace_all (p : ascii -> bool) (by_ : ascii) (s : string) : string :=
  match s with
  | EmptyString => EmptyString
  | String c s' => String (if p c then by_ else c) (replace_all p by_ s')
  end.

(** [s.split(sep)[0]] for a one-character separator: the text before the
    first separator, all of it if there is none. *)
Fixpoint before_first (sep : ascii) (s : string) : string :=
  match s with
  | EmptyString => EmptyString
  | String c s' => if Ascii.eqb c sep then EmptyString
                   else String c (before_first sep s')
  end.

(** White space of ASCII text, as [trim] sees it: tab, line feed, vertical
    tab, form feed, carriage return and space. *)
Definition is_space (c : ascii) : bool :=
  let n := nat_of_ascii c in ((9 <=? n) && (n <=? 13)) || (n =? 32).

Fixpoint trim_start (s : string) : string :=
  match s with
  | EmptyString => EmptyString
  | String c s' => if is_space c then trim_start s' else s
  end.

(** The text without its trailing white space. *)
Fixpoint trim_end (s : string) : string :=
  match s with
  | EmptyString => EmptyString
  | String c s' =>
      match trim_end s' with
      | EmptyString => if is_space c then EmptyString else String c EmptyString
      | rest => String c rest
      end
  end.

(** [s.trim()]. *)
Definition trim (s : string) : string := trim_end (trim_start s).

(** Truthiness of a text: every text but the empty one. *)
Definition truthy (s : string) : bool := negb (String.eqb s "").

(** [a || b] on texts. *)
Definition or_else (a b : string) : string := if truthy a then a else b.

End Text.

(** ** ProgressBar.tsx *)

Module ProgressBar.

(** A JavaScript [number], as far as [Math.min], [Math.max] and the
    comparison operators can tell values apart: NaN, the two infinities, and
    the finite values.  Every finite double is a rational and comparing two
    doubles involves no rounding, so finite values are embedded in [Q]. *)
Inductive number : Type :=
  | NaN
  | NegInfinity
  | Finite (q : Q)
  | PosInfinity.

(** [Math.max(a, b)]: NaN if either argument is NaN, else the larger one. *)
Definition Math_max (a b : number) : number :=
  match a, b with
  | NaN, _ | _, NaN => NaN
  | PosInfinity, _ | _, PosInfinity => PosInfinity
  | NegInfinity, x | x, NegInfinity => x
  | Finite p, Finite q => if Qle_bool q p then Finite p else Finite q
  end.

(** [Math.min(a, b)]: NaN if either argument is NaN, else the smaller one. *)
Definition Math_min (a b : number) : number :=
  match a, b with
  | NaN, _ | _, NaN => NaN
  | NegInfinity, _ | _, NegInfinity => NegInfinity
  | PosInfinity, x | x, PosInfinity => x
  | Finite p, Finite q => if Qle_bool p q then Finite p else Finite q
  end.

(** JavaScript [a > b] and [a < b] (false as soon as one side is NaN). *)
Definition js_lt (a b : number) : bool :=
  match a, b with
  | NaN, _ | _, NaN => false
  | _, NegInfinity => false
  | NegInfinity, _ => true
  | PosInfinity, _ => false
  | _, PosInfinity => true
  | Finite p, Finite q => negb (Qle_bool q p)
  end.
Definition js_gt (a b : number) : bool := js_lt b a.

(** [const clampedProgress = Math.min(100, Math.max(0, progress));] *)
Definition clampedProgress (progress : number) : number :=
  Math_min (Finite 100) (Math_max (Finite 0) progress).

(** The part of the rendered element the properties are about: the [width]
    of the fill [div] (a percentage), whether the glow shadow is on
    ([clampedProgress > 0]) and whether the animated stripes are drawn
    ([clampedProgress > 0 && clampedProgress < 100]). *)
Record Rendered : Type := {
  fill_width_percent : number;
  glow : bool;
  stripes : bool;
}.

Definition render (progress : number) : Rendered :=
  let c := clampedProgress progress in
  {| fill_width_percent := c;
     glow := js_gt c (Finite 0);
     stripes := js_gt c (Finite 0) && js_lt c (Finite 100) |}.

(** A width inside the bar: a finite percentage between 0 and 100. *)
Definition within_bar (w : number) : Prop :=
  match w with
  | Finite q => (0 <= q /\ q <= 100)%Q
  | _ => False
  end.

(** What "the input clamped into [0,100]" means for a number that is not
    NaN. *)
Definition is_clamp_of (x w : number) : Prop :=
  match x with
  | NaN => False
  | NegInfinity => w = Finite 0
  | PosInfinity => w = Finite 100
  | Finite q =>
      ((q < 0)%Q -> w = Finite 0) /\
      ((100 < q)%Q -> w = Finite 100) /\
      ((0 <= q /\ q <= 100)%Q -> exists r, w = Finite r /\ (r == q)%Q)
  end.

(** [x.toFixed(0)]: a number that is not finite, or whose size is at least
    10^21, is shown as [ToString] shows it; any other is shown by its sign
    and the digits of the integer nearest to its size, the larger one of two
    that are equally near. *)
Inductive Fixed : Type :=
  | FixedDigits (negative : bool) (n : Z)
  | FixedToString (negative : bool) (x : number).

Definition nearest_integer (q : Q) : Z := Qfloor (q + (1 # 2)).

Definition toFixed0 (x : number) : Fixed :=
  match x with
  | Finite q =>
      let negative := negb (Qle_bool 0 q) in
      let size := if negative then Qopp q else q in
      if Qle_bool (inject_Z (10 ^ 21)) size
      then FixedToString negative (Finite size)
      else FixedDigits negative (nearest_integer size)
  | _ => FixedToString false x
  end.

(** The percentage beside the label: [{clampedProgress.toFixed(0)}%]. *)
Definition percentage (progress : number) : Fixed :=
  toFixed0 (clampedProgress progress).

End ProgressBar.

(** ** Dropzone.tsx *)

Module Dropzone.

(** The fields of a browser [File] the component reads. *)
Record File : Type := { name : string; size : nat }.

(** [Array.prototype.filter] with the two-argument callback
    [(element, index) => ...]; [i] is the index of the head of [l]. *)
Fixpoint filter_from {A : Type} (p : A -> nat -> bool) (i : nat) (l : list A)
  : list A :=
  match l with
  | [] => []
  | x :: l' =>
      if p x i then x :: filter_from p (S i) l' else filter_from p (S i) l'
  end.

Definition Array_filter {A : Type} (p : A -> nat -> bool) (l : list A)
  : list A := filter_from p 0 l.

(** [onDrop]: [setFiles([...files, ...acceptedFiles])].  The value is the
    list handed to [setFiles], which becomes the next [files]. *)
Definition onDrop (files acceptedFiles : list File) : list File :=
  files ++ acceptedFiles.

(** [removeFile]:
    [setFiles(files.filter((_, index) => index !== indexToRemove))]. *)
Definition removeFile (files : list File) (indexToRemove : nat) : list File :=
  Array_filter (fun _ index => negb (Nat.eqb index indexToRemove)) files.

(** What the component is given besides [setFiles], the defaults of the
    optional props filled in ([label = "SQL Files"], [otherFiles = []],
    [otherLabel = "Other Files"] when the parent gives none). *)
Record Props : Type := {
  files : list File;
  label : string;
  otherFiles : list File;
  otherLabel : string;
}.

Definition hasFiles (p : Props) : bool := 0 <? length (files p).
Definition hasOtherFiles (p : Props) : bool := 0 <? length (otherFiles p).

(** [label && otherLabel && (label.includes("Base") || ...)]; the value is
    only ever used as a condition, so its truthiness is what is kept. *)
Definition needsBothForComparison (p : Props) : bool :=
  Text.truthy (label p) && Text.truthy (otherLabel p) &&
  (Text.includes "Base" (label p) || Text.includes "Oracle" (label p) ||
   Text.includes "Base" (otherLabel p) || Text.includes "Oracle" (otherLabel p)).

Definition fileCountMismatch (p : Props) : bool :=
  hasFiles p && hasOtherFiles p &&
  negb (length (files p) =? length (otherFiles p)) &&
  needsBothForComparison p.

Definition isComparisonReady (p : Props) : bool :=
  hasFiles p && hasOtherFiles p && negb (fileCountMismatch p).

Definition needsOtherFiles (p : Props) : bool :=
  hasFiles p && negb (hasOtherFiles p) && needsBothForComparison p.

(** The colour of the dashed border. *)
Definition borderColor (isDragActive : bool) (p : Props) : string :=
  if isDragActive then "#4CAF50"
  else if fileCountMismatch p then "#E57373"
  else if isComparisonReady p then "#4CAF50"
  else if needsOtherFiles p then "#FF9800"
  else if hasOtherFiles p && negb (hasFiles p) && needsBothForComparison p
  then "#FFA726"
  else "#555".

(** The main action text, by the branch of the conditional that draws it:
    the drop invitation while dragging, the invitation to add files (with
    or without the notice that the other side is uploaded), the request for
    the other side, the count mismatch, the ready notice, and the two texts
    for one and for several selected files. *)
Inductive MainText : Type :=
  | DropTheFilesHere
  | AddLabelHere (otherUploadedNotice : bool)
  | NowAddOther
  | FileCountMismatch
  | ReadyToCompare
  | YouCanAddEvenMore
  | AddMoreOrManage.

Definition mainText (isDragActive : bool) (p : Props) : MainText :=
  if isDragActive then DropTheFilesHere
  else if length (files p) =? 0
  then AddLabelHere (hasOtherFiles p && needsBothForComparison p)
  else if needsOtherFiles p then NowAddOther
  else if fileCountMismatch p then FileCountMismatch
  else if isComparisonReady p then ReadyToCompare
  else if length (files p) =? 1 then YouCanAddEvenMore
  else AddMoreOrManage.

(** The indices the rendered remove buttons hand to [removeFile]: the single
    card calls [removeFile(0)], the grid [removeFile(index)] for every
    [index] of [files.map]; nothing is drawn for an empty list. *)
Definition removeButtons (files : list File) : list nat :=
  if 0 <? length files
  then if length files =? 1 then [0] else imap (fun index _ => index) files
  else [].

End Dropzone.

(** ** DirectionSelector (second component of ComparisonExample.tsx) *)

Module DirectionSelector.

(** [export type Direction = "pg2ora" | "ora2pg"]: a type of the checker
    only; at run time a direction is a string. *)
Record DirectionOption : Type := {
  value : string;
  label : string;
}.

Definition DIRECTION_OPTIONS : list DirectionOption :=
  [ {| value := "pg2ora"; label := "PostgreSQL -> Oracle" |};
    {| value := "ora2pg"; label := "Oracle -> PostgreSQL" |} ].

Definition STORAGE_KEY : string := "sql-cleanser-direction".

(** The state the component acts on: the parent's [direction] state (set
    through [onChange]) and the browser's [localStorage]. *)
Record State : Type := {
  direction : string;
  localStorage : gmap string string;
}.

(** [localStorage.getItem]: [null] is [None]. *)
Definition getItem (k : string) (st : State) : option string :=
  localStorage st !! k.

Definition setItem (k v : string) (st : State) : State :=
  {| direction := direction st; localStorage := <[k := v]> (localStorage st) |}.

Definition onChange (d : string) (st : State) : State :=
  {| direction := d; localStorage := localStorage st |}.

(** Truthiness of a string or [null]. *)
Definition truthy (s : option string) : bool :=
  match s with
  | None => false
  | Some s => negb (String.eqb s "")
  end.

(** The effect run on mount. *)
Definition mount (st : State) : State :=
  let savedDirection := getItem STORAGE_KEY st in
  match savedDirection with
  | Some s =>
      if truthy savedDirection &&
         (String.eqb s "pg2ora" || String.eqb s "ora2pg")
      then onChange s st
      else st
  | None => st
  end.

(** [handleChange]. *)
Definition handleChange (newDirection : string) (st : State) : State :=
  onChange newDirection (setItem STORAGE_KEY newDirection st).

(** What can happen to the component: it mounts, or the button of the
    [k]-th option is clicked while the selector is [disabled] or not. *)
Inductive Event : Type :=
  | Mount
  | Click (k : nat) (disabled : bool).

Definition step (st : State) (e : Event) : State :=
  match e with
  | Mount => mount st
  | Click k disabled =>
      if disabled then st
      else match DIRECTION_OPTIONS !! k with
           | Some option => handleChange (value option) st
           | None => st
           end
  end.

Definition run (events : list Event) (st : State) : State :=
  fold_left step events st.

(** [useState<Direction>("pg2ora")] in [App], over whatever the browser
    has stored. *)
Definition initial (stored : gmap string string) : State :=
  {| direction := "pg2ora"; localStorage := stored |}.

Definition is_direction (s : string) : Prop := s = "pg2ora" \/ s = "ora2pg".

(** What the component may have done to the store: the entry under
    [STORAGE_KEY] is the original one or one of the two directions, and
    every other entry is the original one. *)
Definition storage_inv (stored : gmap string string)
    (st : State) : Prop :=
  is_direction (direction st) /\
  (localStorage st !! STORAGE_KEY
     = stored !! STORAGE_KEY \/
   exists d, is_direction d /\
     localStorage st !! STORAGE_KEY
       = Some d) /\
  (forall k, k <> STORAGE_KEY ->
     localStorage st !! k = stored !! k).

(** [DIRECTION_OPTIONS.find((opt) => opt.value === value) ||
    DIRECTION_OPTIONS[0]], the option named in the selection banner. *)
Definition selectedOption (value_ : string) : option DirectionOption :=
  match List.find (fun opt => String.eqb (value opt) value_) DIRECTION_OPTIONS with
  | Some opt => Some opt
  | None => DIRECTION_OPTIONS !! 0
  end.

(** The options whose button is drawn as the chosen one
    ([value === option.value]). *)
Definition highlighted (value_ : string) : list DirectionOption :=
  List.filter (fun option => String.eqb value_ (value option)) DIRECTION_OPTIONS.

End DirectionSelector.

(** ** ComparisonNameInput.tsx *)

Module ComparisonNameInput.

(** [generatePreviewFilename], at the instant whose [toISOString()] is
    [now]. *)
Definition generatePreviewFilename (value now : string) : string :=
  let timestamp :=
    Text.before_first "."
      (Text.replace_all (fun c => Ascii.eqb c ":" || Ascii.eqb c ".") "-" now) in
  let baseName := Text.or_else (Text.trim value) "SQL_Comparison" in
  baseName +:+ "_" +:+ timestamp +:+ ".zip".

(** The preview is drawn under [showPreview && value]. *)
Definition preview (showPreview : bool) (value now : string) : option string :=
  if showPreview && Text.truthy value
  then Some (generatePreviewFilename value now)
  else None.

End ComparisonNameInput.

(** ** App.tsx *)

Module App.

Record Toast : Type := { message : string; type : string }.

(** The state of the component, one field for each [useState]. *)
Record State : Type := {
  sourceFiles : list Dropzone.File;
  targetFiles : list Dropzone.File;
  direction : string;
  progress : ProgressBar.number;
  status : string;
  comparisonName : string;
  currentStep : string;
  resetCountdown : Z;
  toast : option Toast;
}.

(** The setters. *)
Definition setSourceFiles (v : list Dropzone.File) (st : State) : State :=
  {| sourceFiles := v; targetFiles := targetFiles st;
     direction := direction st; progress := progress st; status := status st;
     comparisonName := comparisonName st; currentStep := currentStep st;
     resetCountdown := resetCountdown st; toast := toast st |}.
Definition setTargetFiles (v : list Dropzone.File) (st : State) : State :=
  {| sourceFiles := sourceFiles st; targetFiles := v;
     direction := direction st; progress := progress st; status := status st;
     comparisonName := comparisonName st; currentStep := currentStep st;
     resetCountdown := resetCountdown st; toast := toast st |}.
Definition setDirection (v : string) (st : State) : State :=
  {| sourceFiles := sourceFiles st; targetFiles := targetFiles st;
     direction := v; progress := progress st; status := status st;
     comparisonName := comparisonName st; currentStep := currentStep st;
     resetCountdown := resetCountdown st; toast := toast st |}.
Definition setProgress (v : ProgressBar.number) (st : State) : State :=
  {| sourceFiles := sourceFiles st; targetFiles := targetFiles st;
     direction := direction st; progress := v; status := status st;
     comparisonName := comparisonName st; currentStep := currentStep st;
     resetCountdown := resetCountdown st; toast := toast st |}.
Definition setStatus (v : string) (st : State) : State :=
  {| sourceFiles := sourceFiles st; targetFiles := targetFiles st;
     direction := direction st; progress := progress st; status := v;
     comparisonName := comparisonName st; currentStep := currentStep st;
     resetCountdown := resetCountdown st; toast := toast st |}.
Definition setComparisonName (v : string) (st : State) : State :=
  {| sourceFiles := sourceFiles st; targetFiles := targetFiles st;
     direction := direction st; progress := progress st; status := status st;
     comparisonName := v; currentStep := currentStep st;
     resetCountdown := resetCountdown st; toast := toast st |}.
Definition setCurrentStep (v : string) (st : State) : State :=
  {| sourceFiles := sourceFiles st; targetFiles := targetFiles st;
     direction := direction st; progress := progress st; status := status st;
     comparisonName := comparisonName st; currentStep := v;
     resetCountdown := resetCountdown st; toast := toast st |}.
Definition setResetCountdown (v : Z) (st : State) : State :=
  {| sourceFiles := sourceFiles st; targetFiles := targetFiles st;
     direction := direction st; progress := progress st; status := status st;
     comparisonName := comparisonName st; currentStep := currentStep st;
     resetCountdown := v; toast := toast st |}.
Definition setToast (v : option Toast) (st : State) : State :=
  {| sourceFiles := sourceFiles st; targetFiles := targetFiles st;
     direction := direction st; progress := progress st; status := status st;
     comparisonName := comparisonName st; currentStep := currentStep st;
     resetCountdown := resetCountdown st; toast := v |}.

(** The initial values of the [useState] calls. *)
Definition initial : State :=
  {| sourceFiles := []; targetFiles := []; direction := "pg2ora";
     progress := ProgressBar.Finite 0; status := ""; comparisonName := "";
     currentStep := ""; resetCountdown := 0%Z; toast := None |}.

Definition hasSourceFiles (st : State) : bool := 0 <? length (sourceFiles st).
Definition hasTargetFiles (st : State) : bool := 0 <? length (targetFiles st).

Definition fileCountMismatch (st : State) : bool :=
  hasSourceFiles st && hasTargetFiles st &&
  negb (length (sourceFiles st) =? length (targetFiles st)).

Definition canCompare (st : State) : bool :=
  hasSourceFiles st && hasTargetFiles st && negb (fileCountMismatch st) &&
  negb (String.eqb (status st) "comparing").

Definition isInProgress (st : State) : bool :=
  String.eqb (status st) "comparing".

Definition handleReset (st : State) : State :=
  setToast None
    (setResetCountdown 0%Z
       (setCurrentStep ""
          (setComparisonName ""
             (setStatus ""
                (setProgress (ProgressBar.Finite 0)
                   (setTargetFiles [] (setSourceFiles [] st))))))).

(** [generateFilename], for the comparison name it reads and the instant
    whose [toISOString()] is [now]. *)
Definition generateFilename (comparisonName now : string) : string :=
  let timestamp :=
    Text.before_first "."
      (Text.replace_all (fun c => Ascii.eqb c ":" || Ascii.eqb c ".") "-" now) in
  let baseName := Text.or_else (Text.trim comparisonName) "SQL_Comparison" in
  baseName +:+ "_" +:+ timestamp +:+ ".zip".

(** [const downloadName = customFilename || filename;] *)
Definition downloadName (comparisonName now filename : string) : string :=
  Text.or_else (generateFilename comparisonName now) filename.

(** [getLabels]: the two short labels handed to the drop zones. *)
Record Labels : Type := { sourceShort : string; targetShort : string }.

Definition getLabels (st : State) : Labels :=
  if String.eqb (direction st) "pg2ora"
  then {| sourceShort := "PostgreSQL Files"; targetShort := "Oracle Files" |}
  else {| sourceShort := "Oracle Files"; targetShort := "PostgreSQL Files" |}.

(** The props of the two drop zones. *)
Definition sourceDropzone (st : State) : Dropzone.Props :=
  {| Dropzone.files := sourceFiles st;
     Dropzone.label := sourceShort (getLabels st);
     Dropzone.otherFiles := targetFiles st;
     Dropzone.otherLabel := targetShort (getLabels st) |}.

Definition targetDropzone (st : State) : Dropzone.Props :=
  {| Dropzone.files := targetFiles st;
     Dropzone.label := targetShort (getLabels st);
     Dropzone.otherFiles := sourceFiles st;
     Dropzone.otherLabel := sourceShort (getLabels st) |}.

(** The text of the compare button, by the branch that draws it. *)
Inductive ButtonText : Type :=
  | Processing (progress : ProgressBar.number)
  | ConvertAndMigrate (filesEach : nat)
  | CountMismatch (source target : nat)
  | AddToContinue (label : string)
  | UploadToBoth.

Definition buttonText (st : State) : ButtonText :=
  if isInProgress st then Processing (progress st)
  else if canCompare st then ConvertAndMigrate (length (sourceFiles st))
  else if fileCountMismatch st
  then CountMismatch (length (sourceFiles st)) (length (targetFiles st))
  else if hasSourceFiles st && negb (hasTargetFiles st)
  then AddToContinue (targetShort (getLabels st))
  else if negb (hasSourceFiles st) && hasTargetFiles st
  then AddToContinue (sourceShort (getLabels st))
  else UploadToBoth.

(** [disabled={!canCompare}]. *)
Definition buttonDisabled (st : State) : bool := negb (canCompare st).

(** The status messages under the buttons, in the order they are drawn. *)
Inductive StatusMessage : Type :=
  | UploadBoth
  | SourceUploaded
  | TargetUploaded
  | MismatchNotice
  | ReadyToConvert
  | ConversionComplete (countdownShown : bool)
  | ErrorNotice.

Definition statusMessages (st : State) : list StatusMessage :=
  let notComplete := negb (String.eqb (status st) "complete") in
  (if negb (hasSourceFiles st) && negb (hasTargetFiles st) && notComplete
   then [UploadBoth] else []) ++
  (if hasSourceFiles st && negb (hasTargetFiles st) && notComplete
   then [SourceUploaded] else []) ++
  (if negb (hasSourceFiles st) && hasTargetFiles st && notComplete
   then [TargetUploaded] else []) ++
  (if fileCountMismatch st && notComplete then [MismatchNotice] else []) ++
  (if canCompare st && negb (isInProgress st) && notComplete
   then [ReadyToConvert] else []) ++
  (if String.eqb (status st) "complete"
   then [ConversionComplete (0 <? resetCountdown st)%Z] else []) ++
  (if String.eqb (status st) "error" then [ErrorNotice] else []).

(** The two buttons that call [handleReset]: Clear All, drawn under
    [(hasSourceFiles || hasTargetFiles) && !isInProgress], and Start New
    Conversion, drawn under [status === "complete"] and
    [resetCountdown > 0]. *)
Definition resetOffered (st : State) : bool :=
  ((hasSourceFiles st || hasTargetFiles st) && negb (isInProgress st)) ||
  (String.eqb (status st) "complete" && (0 <? resetCountdown st)%Z).

(** The page: the component's state together with what lives outside it,
    namely the browser's store, whether the countdown interval of the
    [status] effect is running, the comparison name captured by the call of
    [handleCompare] that is waiting for the server (if any), and the names
    under which downloads were started, latest first. *)
Record Page : Type := {
  app : State;
  localStorage : gmap string string;
  countdownInterval : bool;
  awaiting : option string;
  downloads : list string;
}.

Definition withApp (st : State) (pg : Page) : Page :=
  {| app := st; localStorage := localStorage pg;
     countdownInterval := countdownInterval pg; awaiting := awaiting pg;
     downloads := downloads pg |}.

(** The effect with dependency [status], run after an update that went from
    [before] to the page's state: when [status] has changed the clean-up of
    the last run clears the interval, and then, if [status] is
    [complete], the countdown is set to 3 and a new interval is started. *)
Definition statusEffect (before : State) (pg : Page) : Page :=
  if String.eqb (status before) (status (app pg)) then pg
  else if String.eqb (status (app pg)) "complete"
  then {| app := setResetCountdown 3%Z (app pg);
          localStorage := localStorage pg; countdownInterval := true;
          awaiting := awaiting pg; downloads := downloads pg |}
  else {| app := app pg; localStorage := localStorage pg;
          countdownInterval := false; awaiting := awaiting pg;
          downloads := downloads pg |}.

(** [handleCompare] up to its [await]. *)
Definition handleCompare_start (pg : Page) : Page :=
  if negb (canCompare (app pg)) then pg
  else {| app := setCurrentStep "📤 Starting comparison..."
                   (setProgress (ProgressBar.Finite 0)
                      (setStatus "comparing" (app pg)));
          localStorage := localStorage pg;
          countdownInterval := countdownInterval pg;
          awaiting := Some (comparisonName (app pg));
          downloads := downloads pg |}.

(** The progress callback handed to [compareFilesWithProgress]. *)
Definition onProgress (progressPercent : ProgressBar.number) (step : string)
    (st : State) : State :=
  setCurrentStep step (setProgress progressPercent st).

(** [handleCompare] after the [await], when the server has answered with
    [filename]: the download is started under [downloadName], computed from
    the comparison name the call has captured.  Nothing is awaited between
    the setters, so the page only shows the last value given to each. *)
Definition handleCompare_resolved (captured filename now : string) (pg : Page)
  : Page :=
  {| app := setToast (Some {| message := "Conversion ready – download your ZIP.";
                              type := "success" |})
              (setStatus "complete"
                 (setCurrentStep "✅ Download complete!"
                    (setProgress (ProgressBar.Finite 100) (app pg))));
     localStorage := localStorage pg;
     countdownInterval := countdownInterval pg;
     awaiting := None;
     downloads := downloadName captured now filename :: downloads pg |}.

(** The [catch] branch; [errorMessage] is [err.message] when [err] is an
    [Error]. *)
Definition handleCompare_rejected (errorMessage : option string) (pg : Page)
  : Page :=
  {| app := setToast (Some {| message :=
                                match errorMessage with
                                | Some m => m
                                | None => "Conversion failed. Please try again."
                                end;
                              type := "error" |})
              (setStatus "error"
                 (setCurrentStep "❌ Comparison failed" (app pg)));
     localStorage := localStorage pg;
     countdownInterval := countdownInterval pg;
     awaiting := None;
     downloads := downloads pg |}.

(** One firing of the countdown interval:
    [setResetCountdown((prev) => ...)]. *)
Definition tick (pg : Page) : Page :=
  let prev := resetCountdown (app pg) in
  if (prev <=? 1)%Z
  then {| app := setResetCountdown 0%Z (handleReset (app pg));
          localStorage := localStorage pg; countdownInterval := false;
          awaiting := awaiting pg; downloads := downloads pg |}
  else withApp (setResetCountdown (prev - 1)%Z (app pg)) pg.

(** A click on an option of the direction selector, which [App] renders
    with [disabled={isInProgress}]. *)
Definition selectDirection (k : nat) (pg : Page) : Page :=
  let selector :=
    DirectionSelector.step
      {| DirectionSelector.direction := direction (app pg);
         DirectionSelector.localStorage := localStorage pg |}
      (DirectionSelector.Click k (isInProgress (app pg))) in
  {| app := setDirection (DirectionSelector.direction selector) (app pg);
     localStorage := DirectionSelector.localStorage selector;
     countdownInterval := countdownInterval pg; awaiting := awaiting pg;
     downloads := downloads pg |}.

(** What can happen to the page. *)
Inductive Event : Type :=
  | DropSource (acceptedFiles : list Dropzone.File)
  | DropTarget (acceptedFiles : list Dropzone.File)
  | RemoveSource (index : nat)
  | RemoveTarget (index : nat)
  | SelectDirection (k : nat)
  | TypeName (value : string)
  | ClickCompare
  | ReportProgress (progressPercent : ProgressBar.number) (step : string)
  | Resolve (filename now : string)
  | Reject (errorMessage : option string)
  | Tick
  | ClickReset
  | CloseToast.

(** The handler of an event.  The answers of the server are only heard by
    a waiting call of [handleCompare], the interval only fires while it is
    running, and a button that is not drawn or is disabled is not clicked. *)
Definition handle (pg : Page) (e : Event) : Page :=
  match e with
  | DropSource acceptedFiles =>
      withApp (setSourceFiles
                 (Dropzone.onDrop (sourceFiles (app pg)) acceptedFiles)
                 (app pg)) pg
  | DropTarget acceptedFiles =>
      withApp (setTargetFiles
                 (Dropzone.onDrop (targetFiles (app pg)) acceptedFiles)
                 (app pg)) pg
  | RemoveSource index =>
      if bool_decide (index ∈ Dropzone.removeButtons (sourceFiles (app pg)))
      then withApp (setSourceFiles
                      (Dropzone.removeFile (sourceFiles (app pg)) index)
                      (app pg)) pg
      else pg
  | RemoveTarget index =>
      if bool_decide (index ∈ Dropzone.removeButtons (targetFiles (app pg)))
      then withApp (setTargetFiles
                      (Dropzone.removeFile (targetFiles (app pg)) index)
                      (app pg)) pg
      else pg
  | SelectDirection k => selectDirection k pg
  | TypeName value =>
      if String.eqb (status (app pg)) "complete" then pg
      else withApp (setComparisonName value (app pg)) pg
  | ClickCompare => handleCompare_start pg
  | ReportProgress progressPercent step =>
      match awaiting pg with
      | Some _ => withApp (onProgress progressPercent step (app pg)) pg
      | None => pg
      end
  | Resolve filename now =>
      match awaiting pg with
      | Some captured => handleCompare_resolved captured filename now pg
      | None => pg
      end
  | Reject errorMessage =>
      match awaiting pg with
      | Some _ => handleCompare_rejected errorMessage pg
      | None => pg
      end
  | Tick => if countdownInterval pg then tick pg else pg
  | ClickReset =>
      if resetOffered (app pg) then withApp (handleReset (app pg)) pg else pg
  | CloseToast => withApp (setToast None (app pg)) pg
  end.

(** The events that are an answer of the server. *)
Definition is_answer (e : Event) : bool :=
  match e with
  | Resolve _ _ | Reject _ => true
  | _ => false
  end.

(** The events that leave the status, the countdown, the interval and the
    waiting call alone. *)
Definition is_quiet (e : Event) : bool :=
  match e with
  | DropSource _ | DropTarget _ | RemoveSource _ | RemoveTarget _
  | SelectDirection _ | TypeName _ | ReportProgress _ _ | CloseToast => true
  | _ => false
  end.

(** An event, followed by the effect of the render it causes. *)
Definition step (pg : Page) (e : Event) : Page :=
  statusEffect (app pg) (handle pg e).

Definition run (events : list Event) (pg : Page) : Page :=
  fold_left step events pg.

(** The page once it is mounted over what the browser has stored: the
    selector's mount effect has restored a stored direction, and the
    [status] effect has found nothing to do. *)
Definition mounted (stored : gmap string string) : Page :=
  let selector := DirectionSelector.mount (DirectionSelector.initial stored) in
  {| app := setDirection (DirectionSelector.direction selector) initial;
     localStorage := DirectionSelector.localStorage selector;
     countdownInterval := false; awaiting := None; downloads := [] |}.

(** What holds of every page that can be reached: [status] is one of its
    four values; a call of [handleCompare] is waiting exactly while it is
    [comparing]; the interval runs exactly while it is [complete], and the
    countdown then shows 1, 2 or 3; the countdown is never outside 0..3. *)
Definition page_inv (pg : Page) : Prop :=
  (status (app pg) = "" \/ status (app pg) = "comparing" \/
   status (app pg) = "complete" \/ status (app pg) = "error") /\
  (is_Some (awaiting pg) <-> status (app pg) = "comparing") /\
  (countdownInterval pg = true <-> status (app pg) = "complete") /\
  (countdownInterval pg = true -> (1 <= resetCountdown (app pg))%Z) /\
  (0 <= resetCountdown (app pg) <= 3)%Z.

End App.

(** ** Statement recognition (Step 2 of the project overview, from ingest.py) *)

Module Ingest.

(** The pattern language [INSERT_REGEX] is written in.  Groups do not
    change which texts match and are left out; a lazy quantifier matches the
    same texts as the greedy one. *)
Inductive regex : Type :=
  | Never                                 (* matches nothing *)
  | Eps                                   (* the empty text *)
  | Class (p : ascii -> bool)             (* one character of a class *)
  | Seq (r1 r2 : regex)
  | Alt (r1 r2 : regex)
  | Star (r : regex).

Definition code_in (c : ascii) (lo hi : nat) : bool :=
  (lo <=? nat_of_ascii c) && (nat_of_ascii c <=? hi).

Definition lit (c : ascii) : regex := Class (Ascii.eqb c).

(** How the pattern is compiled is not among the sources.  A character is
    a code point below 256.  Of the flags of the [re] module, three change
    which texts this pattern matches: with [re.IGNORECASE] a letter of the
    pattern matches either case, with [re.DOTALL] the dot also matches the
    line feed, and with [re.ASCII] the classes [\s] and [\w] hold ASCII
    characters only.  (The pattern has no anchor, no blank and no hash, so
    [re.MULTILINE] and [re.VERBOSE] change nothing.)  The flags are a
    parameter of the pattern. *)
Record Flags : Type := {
  IGNORECASE : bool;
  DOTALL : bool;
  ASCII : bool;
}.

Definition no_flags : Flags :=
  {| IGNORECASE := false; DOTALL := false; ASCII := false |}.

(** The lower-case form of an ASCII letter. *)
Definition lower_ascii (c : ascii) : ascii :=
  if code_in c 65 90 then ascii_of_nat (nat_of_ascii c + 32) else c.

Fixpoint lower (s : string) : string :=
  match s with
  | EmptyString => EmptyString
  | String c s' => String (lower_ascii c) (lower s')
  end.

(** A letter of the pattern. *)
Definition letter (f : Flags) (c : ascii) : regex :=
  if IGNORECASE f
  then Class (fun x => Ascii.eqb (lower_ascii x) (lower_ascii c))
  else lit c.

(** A literal word, letter by letter. *)
Fixpoint word (f : Flags) (s : string) : regex :=
  match s with
  | EmptyString => Eps
  | String c s' => Seq (letter f c) (word f s')
  end.

(** [\s]: [\t], [\n], [\v], [\f], [\r] and the space, and without
    [re.ASCII] also the four separators 28 to 31, the next-line character
    133 and the no-break space 160. *)
Definition space (f : Flags) : regex :=
  Class (fun c => code_in c 9 13 || Ascii.eqb c " " ||
                  (negb (ASCII f) &&
                   (code_in c 28 31 || code_in c 133 133 ||
                    code_in c 160 160))).

(** The characters above 127 that are letters or digits: the ordinal
    indicators, the superscript digits, the micro sign, the fractions and
    the accented letters. *)
Definition latin1_alnum (c : ascii) : bool :=
  code_in c 170 170 || code_in c 178 179 || code_in c 181 181 ||
  code_in c 185 186 || code_in c 188 190 || code_in c 192 214 ||
  code_in c 216 246 || code_in c 248 255.

(** [\w]: letters, digits and the underscore, and without [re.ASCII] also
    the letters and digits above 127. *)
Definition word_char (f : Flags) : regex :=
  Class (fun c => code_in c 48 57 || code_in c 65 90 || code_in c 97 122
                  || Ascii.eqb c "_" || (negb (ASCII f) && latin1_alnum c)).

(** [.]: any character but the line feed, and with [re.DOTALL] any
    character. *)
Definition dot (f : Flags) : regex :=
  Class (fun c => DOTALL f || negb (nat_of_ascii c =? 10)).

(** Any character at all. *)
Definition any : regex := Class (fun _ => true).

(** The class of the two quote characters, single and double. *)
Definition quote : regex :=
  Class (fun c => Ascii.eqb c "'" || (nat_of_ascii c =? 34)).

Definition plus (r : regex) : regex := Seq r (Star r).
Definition opt (r : regex) : regex := Alt Eps r.

(** [INSERT_REGEX]: the word INSERT, [\s+], the word INTO, [\s+], an
    optional quote, the table name [(\w+)], an optional quote, [\s*], the
    column list [\((.*?)\)], [\s*], the word VALUES, [\s*], the tuples
    [(\(.+\))] and the semicolon. *)
Definition INSERT_REGEX (f : Flags) : regex :=
  Seq (word f "INSERT") (Seq (plus (space f)) (Seq (word f "INTO")
  (Seq (plus (space f))
  (Seq (opt quote) (Seq (plus (word_char f)) (Seq (opt quote) (Seq (Star (space f))
  (Seq (lit "(") (Seq (Star (dot f)) (Seq (lit ")") (Seq (Star (space f))
  (Seq (word f "VALUES") (Seq (Star (space f))
  (Seq (lit "(") (Seq (plus (dot f)) (Seq (lit ")") (lit ";"))))))))))))))))).

(** Matching by derivatives. *)
Fixpoint nullable (r : regex) : bool :=
  match r with
  | Never => false
  | Eps => true
  | Class _ => false
  | Seq r1 r2 => nullable r1 && nullable r2
  | Alt r1 r2 => nullable r1 || nullable r2
  | Star _ => true
  end.

Definition seq (r1 r2 : regex) : regex :=
  match r1, r2 with
  | Never, _ | _, Never => Never
  | Eps, r | r, Eps => r
  | _, _ => Seq r1 r2
  end.

Definition alt (r1 r2 : regex) : regex :=
  match r1, r2 with
  | Never, r | r, Never => r
  | _, _ => Alt r1 r2
  end.

(** What is left to match after reading [c]. *)
Fixpoint derive (c : ascii) (r : regex) : regex :=
  match r with
  | Never | Eps => Never
  | Class p => if p c then Eps else Never
  | Seq r1 r2 =>
      if nullable r1
      then alt (seq (derive c r1) r2) (derive c r2)
      else seq (derive c r1) r2
  | Alt r1 r2 => alt (derive c r1) (derive c r2)
  | Star r1 => seq (derive c r1) (Star r1)
  end.

(** The whole text matches the pattern. *)
Fixpoint fullmatch (r : regex) (s : string) : bool :=
  match s with
  | EmptyString => nullable r
  | String c s' => fullmatch (derive c r) s'
  end.

(** Some part of the text matches the pattern. *)
Definition search (r : regex) (s : string) : bool :=
  fullmatch (Seq (Star any) (Seq r (Star any))) s.

(** The texts a pattern matches. *)
Inductive matches : regex -> string -> Prop :=
  | MEps : matches Eps ""
  | MClass p c : p c = true -> matches (Class p) (String c "")
  | MSeq r1 r2 s1 s2 :
      matches r1 s1 -> matches r2 s2 -> matches (Seq r1 r2) (s1 +:+ s2)
  | MAltL r1 r2 s : matches r1 s -> matches (Alt r1 r2) s
  | MAltR r1 r2 s : matches r2 s -> matches (Alt r1 r2) s
  | MStar0 r : matches (Star r) ""
  | MStarS r s1 s2 :
      matches r s1 -> matches (Star r) s2 -> matches (Star r) (s1 +:+ s2).

(** The line feed, and texts of several physical lines. *)
Definition LF : string := String (ascii_of_nat 10) EmptyString.

Definition lines (l : list string) : string :=
  foldr (fun line rest =>
           match rest with
           | EmptyString => line
           | _ => line +:+ LF +:+ rest
           end) EmptyString l.

(** A well-formed statement with two tuples, one tuple per line, and the
    same statement on one line. *)
Definition multi_line_insert : string :=
  lines [ "INSERT INTO users (id, name) VALUES";
          "  (1, 'Ann'),";
          "  (2, 'Bob');" ].

Definition same_insert_on_one_line : string :=
  "INSERT INTO users (id, name) VALUES (1, 'Ann'), (2, 'Bob');".

(** A statement with lower-case keywords. *)
Definition lower_case_insert : string :=
  "insert into users (id, name) values (1, 'Ann');".

(** Whether every character of a text is ASCII. *)
Definition is_ascii (s : string) : bool :=
  forallb (fun c => nat_of_ascii c <? 128) (list_ascii_of_string s).

(** Whether a text has a line break in it. *)
Fixpoint has_line_break (s : string) : bool :=
  match s with
  | EmptyString => false
  | String c s' => (nat_of_ascii c =? 10) || has_line_break s'
  end.

End Ingest.

(** ** Table ordering (Step 5 of the project overview, from fuzz.py) *)

Module TableOrdering.

(** The exceptions the step can end in. *)
Inductive exn : Type :=
  | IndexError             (* [rows[0]] on an empty list *)
  | RuntimeError           (* "Graph changed during iteration" *)
  | NetworkXUnfeasible.    (* "Graph contains a cycle ..." *)

Inductive result (A : Type) : Type :=
  | Ok (a : A)
  | Raise (e : exn).
Arguments Ok {A} a.
Arguments Raise {A} e.

Definition bind {A B : Type} (r : result A) (k : A -> result B) : result B :=
  match r with
  | Ok a => k a
  | Raise e => Raise e
  end.

(** A [for] loop whose body may raise. *)
Fixpoint for_each {A S : Type} (body : A -> S -> result S) (l : list A) (s : S)
  : result S :=
  match l with
  | [] => Ok s
  | x :: l' => bind (body x s) (for_each body l')
  end.

(** *** Strings *)

(** [str.upper()], on ASCII text: the letters a to z are raised. *)
Definition upper_ascii (c : ascii) : ascii :=
  let n := nat_of_ascii c in
  if (97 <=? n) && (n <=? 122) then ascii_of_nat (n - 32) else c.

Fixpoint upper (s : string) : string :=
  match s with
  | EmptyString => EmptyString
  | String c s' => String (upper_ascii c) (upper s')
  end.

(** [s.endswith(suffix)]. *)
Definition endswith (s suffix : string) : bool :=
  (String.length suffix <=? String.length s) &&
  String.eqb
    (substring (String.length s - String.length suffix)
       (String.length suffix) s)
    suffix.

(** [s[:-3]]. *)
Definition drop_last3 (s : string) : string :=
  substring 0 (String.length s - 3) s.

(** *** Rows *)

(** A parsed row: [{'columns': [...], 'values': [...], 'source_file': ...}]. *)
Record Row : Type := {
  columns : list string;
  values : list string;
  source_file : string;
}.

(** [rows_by_table]: a dictionary, in insertion order. *)
Definition RowsByTable : Type := list (string * list Row).

Definition known_table (t : string) (rows_by_table : RowsByTable) : bool :=
  bool_decide (t ∈ rows_by_table.*1).

(** *** The directed graph ([nx.DiGraph]) *)

(** Nodes in insertion order and the adjacency as the list of edges in
    insertion order: the successors of [u] are iterated in the order in which
    the edges out of [u] were added, and [add_edge] of an edge already there
    changes nothing. *)
Record DiGraph : Type := {
  nodes : list string;
  edges : list (string * string);
}.

Definition empty_graph : DiGraph := {| nodes := []; edges := [] |}.

Definition add_node (u : string) (G : DiGraph) : DiGraph :=
  if bool_decide (u ∈ nodes G) then G
  else {| nodes := nodes G ++ [u]; edges := edges G |}.

Definition add_edge (u v : string) (G : DiGraph) : DiGraph :=
  let G := add_node v (add_node u G) in
  if bool_decide ((u, v) ∈ edges G) then G
  else {| nodes := nodes G; edges := edges G ++ [(u, v)] |}.

(** [G.neighbors(u)]: the successors of [u]. *)
Definition neighbors (G : DiGraph) (u : string) : list string :=
  (filter (fun e => e.1 = u) (edges G)).*2.

(** [G.in_degree(v)]: the number of edges into [v]. *)
Definition in_degree (G : DiGraph) (v : string) : nat :=
  length (filter (fun e => e.2 = v) (edges G)).

(** *** Building the graph *)

(** The body of the inner loop, for one column of the first row of
    [table]. *)
Definition add_reference (rows_by_table : RowsByTable) (table col : string)
    (G : DiGraph) : DiGraph :=
  if endswith (upper col) "_ID" then
    let ref_table := drop_last3 col in
    if known_table ref_table rows_by_table
    then add_edge ref_table table G
    else G
  else G.

(** The body of the outer loop, for one entry of [rows_by_table]. *)
Definition add_table (rows_by_table : RowsByTable)
    (entry : string * list Row) (G : DiGraph) : result DiGraph :=
  match entry.2 with
  | [] => Raise IndexError
  | row0 :: _ =>
      Ok (fold_left (fun G col => add_reference rows_by_table entry.1 col G)
            (columns row0) G)
  end.

Definition build_graph (rows_by_table : RowsByTable) : result DiGraph :=
  for_each (add_table rows_by_table) rows_by_table empty_graph.

(** *** [nx.topological_sort]

    As in networkx 2.6 and later: [topological_sort] yields the nodes of
    [topological_generations], generation by generation, and
    [list(...)] collects them; the exception raised after the last
    generation leaves no list. *)

(** The state of [topological_generations]: [indegree_map] and the
    [zero_indegree] list being filled. *)
Definition SortState : Type := gmap string Z * list string.

(** The body of [for child in G.neighbors(node)]. *)
Definition relax (child : string) (st : SortState) : result SortState :=
  let '(indegree_map, zero_indegree) := st in
  match indegree_map !! child with
  | None => Raise RuntimeError
  | Some d =>
      let d := (d - 1)%Z in
      if bool_decide (d = 0%Z)
      then Ok (delete child indegree_map, zero_indegree ++ [child])
      else Ok (<[child := d]> indegree_map, zero_indegree)
  end.

(** The body of [for node in this_generation]. *)
Definition visit (G : DiGraph) (node : string) (st : SortState)
  : result SortState :=
  if bool_decide (node ∈ nodes G)
  then for_each relax (neighbors G node) st
  else Raise RuntimeError.

(** The [while zero_indegree] loop.  Every generation but the last takes its
    nodes out of [indegree_map], so the loop runs at most once more than
    there are nodes; [fuel] counts the iterations left and [None] is
    returned if they run out. *)
Fixpoint generations (fuel : nat) (G : DiGraph)
    (indegree_map : gmap string Z) (zero_indegree : list string)
  : option (result (list string)) :=
  match zero_indegree with
  | [] =>
      if bool_decide (indegree_map = ∅) then Some (Ok [])
      else Some (Raise NetworkXUnfeasible)
  | _ =>
      match fuel with
      | 0 => None
      | S fuel =>
          let this_generation := zero_indegree in
          match for_each (visit G) this_generation (indegree_map, []) with
          | Raise e => Some (Raise e)
          | Ok (indegree_map, zero_indegree) =>
              match generations fuel G indegree_map zero_indegree with
              | Some (Ok later) => Some (Ok (this_generation ++ later))
              | other => other
              end
          end
      end
  end.

Definition initial_indegree_map (G : DiGraph) : gmap string Z :=
  list_to_map
    (omap (fun v => let d := in_degree G v in
                    if bool_decide (0 < d) then Some (v, Z.of_nat d) else None)
       (nodes G)).

Definition initial_zero_indegree (G : DiGraph) : list string :=
  filter (fun v => in_degree G v = 0) (nodes G).

Definition topological_sort (G : DiGraph) : option (result (list string)) :=
  generations (S (length (nodes G))) G
    (initial_indegree_map G) (initial_zero_indegree G).

(** [order = list(nx.topological_sort(G))] after the loops. *)
Definition table_order (rows_by_table : RowsByTable)
  : option (result (list string)) :=
  match build_graph rows_by_table with
  | Raise e => Some (Raise e)
  | Ok G => topological_sort G
  end.

(** *** Notions the properties are stated with *)

Definition edge (G : DiGraph) (u v : string) : Prop := (u, v) ∈ edges G.

(** A cycle: a node that reaches itself along one or more edges. *)
Definition has_cycle (G : DiGraph) : Prop := exists v, tc (edge G) v v.

(** [a] is ranked strictly before [b] in [order]. *)
Definition precedes (order : list string) (a b : string) : Prop :=
  exists i j, order !! i = Some a /\ order !! j = Some b /\ i < j.

(** The column [col] of a row of [table] refers to the table [ref]. *)
Definition references (rows_by_table : RowsByTable) (col ref : string) : Prop :=
  endswith (upper col) "_ID" = true /\ ref = drop_last3 col /\
  ref ∈ rows_by_table.*1.

(** A well-formed graph: no node or edge twice, and the ends of every edge
    among the nodes. *)
Definition graph_wf (G : DiGraph) : Prop :=
  NoDup (nodes G) /\ NoDup (edges G) /\
  forall u v, (u, v) ∈ edges G -> u ∈ nodes G /\ v ∈ nodes G.

(** The edges of the graph built from [rbt]: one from [a] to [b] for every
    column of the first row of [b] that refers to the known table [a]. *)
Definition reference_edge (rbt : RowsByTable) (entries : RowsByTable)
    (a b : string) : Prop :=
  exists rows row0 col,
    (b, rows) ∈ entries /\ head rows = Some row0 /\
    col ∈ columns row0 /\ references rbt col a.

(** The number of edges into [v] among [L] whose source is not in [P]: what
    [indegree_map] holds for [v] once the nodes of [P] have been visited. *)
Definition pending_in (L : list (string * string)) (P : list string)
    (v : string) : nat :=
  length (filter (fun e => e.2 = v /\ e.1 ∉ P) L).

Definition pending (G : DiGraph) (P : list string) (v : string) : nat :=
  pending_in (edges G) P v.

(** What one decrement does to an entry of [indegree_map]. *)
Definition decremented (o : option Z) : option Z :=
  match o with
  | Some d => if decide (d = 1%Z) then None else Some (d - 1)%Z
  | None => None
  end.

(** [order] lists every node after all its predecessors. *)
Definition respects (G : DiGraph) (order : list string) : Prop :=
  forall j u v, order !! j = Some v -> edge G u v ->
    exists i, i < j /\ order !! i = Some u.

(** [P]: the nodes visited so far, in order; [Q]: the nodes released and
    waiting (the rest of this generation, then the next one); [M]:
    [indegree_map]. *)
Record sort_inv (G : DiGraph) (P Q : list string) (M : gmap string Z)
  : Prop := {
  inv_NoDup : NoDup (P ++ Q);
  inv_nodes : forall v, v ∈ P ++ Q -> v ∈ nodes G;
  inv_map : forall v,
    M !! v = if decide (pending G P v = 0) then None
             else Some (Z.of_nat (pending G P v));
  inv_released : forall v, v ∈ nodes G ->
    (v ∈ P ++ Q <-> pending G P v = 0);
  inv_respects : respects G P;
}.

(** What the sort can end in: an order, or the cycle exception. *)
Definition sorted_or_cyclic (G : DiGraph) (P : list string)
    (r : option (result (list string))) : Prop :=
  (exists later, r = Some (Ok later) /\
     P ++ later ≡ₚ nodes G /\ respects G (P ++ later)) \/
  (r = Some (Raise NetworkXUnfeasible) /\ has_cycle G).

(** Every node is an end of some edge: nodes enter the graph through
    [add_edge] only. *)
Definition nodes_incident (G : DiGraph) : Prop :=
  forall v, v ∈ nodes G -> exists u, edge G u v \/ edge G v u.

(** Two tables that refer to each other, and a table with a column named
    after itself. *)
Definition mutual_references : RowsByTable :=
  [ ("a", [ {| columns := ["id"; "b_id"]; values := ["1"; "2"];
               source_file := "a.sql" |} ]);
    ("b", [ {| columns := ["id"; "a_id"]; values := ["2"; "1"];
               source_file := "b.sql" |} ]) ].

Definition self_reference : RowsByTable :=
  [ ("customer", [ {| columns := ["customer_id"; "name"];
                      values := ["1"; "'Ann'"];
                      source_file := "customer.sql" |} ]) ].

Definition a_refers_to_b : RowsByTable :=
  [ ("a", [ {| columns := ["id"; "b_id"]; values := ["1"; "2"];
               source_file := "a.sql" |} ]);
    ("b", [ {| columns := ["id"]; values := ["2"];
               source_file := "b.sql" |} ]) ].

(** Text all of whose characters are ASCII.  On such text the embedding is
    exact: [upper] is [str.upper()] and a character is a byte, so that
    [drop_last3] is [s[:-3]]. *)
Definition is_ascii (s : string) : bool :=
  forallb (fun c => nat_of_ascii c <? 128) (list_ascii_of_string s).

(** The column names the loops read are ASCII. *)
Definition ascii_columns (rows_by_table : RowsByTable) : bool :=
  forallb (fun entry : string * list Row =>
             match head entry.2 with
             | Some row0 => forallb is_ascii (columns row0)
             | None => true
             end) rows_by_table.

(** What the loops read of [rows_by_table]: the table names in their order
    and, for each table, the columns of its first row. *)
Definition first_columns (rows_by_table : RowsByTable)
  : list (string * option (list string)) :=
  (fun entry : string * list Row => (entry.1, columns <$> head entry.2))
    <$> rows_by_table.

(** A table whose only [_id] column appears in its second row, and the same
    table cut down to its first row. *)
Definition reference_in_second_row : RowsByTable :=
  [ ("users", [ {| columns := ["id"]; values := ["1"];
                   source_file := "users.sql" |} ]);
    ("orders", [ {| columns := ["id"]; values := ["1"];
                    source_file := "orders.sql" |};
                 {| columns := ["id"; "users_id"]; values := ["2"; "1"];
                    source_file := "orders.sql" |} ]) ].

Definition first_rows_only : RowsByTable :=
  [ ("users", [ {| columns := ["id"]; values := ["7"];
                   source_file := "other.sql" |} ]);
    ("orders", [ {| columns := ["id"]; values := ["9"];
                    source_file := "other.sql" |} ]) ].

End TableOrdering.

(** ** Duplicate detection (Step 4 of the project overview, from fuzz.py) *)

Module Duplicates.

(** The exceptions the key of a row can end in. *)
Inductive exn : Type :=
  | ValueError     (* [list.index(x)]: [x] is not in the list *)
  | IndexError.    (* list index out of range *)

Inductive result (A : Type) : Type :=
  | Ok (a : A)
  | Raise (e : exn).
Arguments Ok {A} a.
Arguments Raise {A} e.

Definition bind {A B : Type} (r : result A) (k : A -> result B) : result B :=
  match r with
  | Ok a => k a
  | Raise e => Raise e
  end.

(** [l.index(x)]: the position of the first entry equal to [x]. *)
Fixpoint index (x : string) (l : list string) : result nat :=
  match l with
  | [] => Raise ValueError
  | y :: l' =>
      if String.eqb y x then Ok 0
      else bind (index x l') (fun i => Ok (S i))
  end.

(** [l[i]] for an index that is not negative. *)
Definition item (l : list string) (i : nat) : result string :=
  match l !! i with
  | Some v => Ok v
  | None => Raise IndexError
  end.

(** [row['values'][row['columns'].index(col)]]. *)
Definition key_part (row : TableOrdering.Row) (col : string) : result string :=
  bind (index col (TableOrdering.columns row)) (item (TableOrdering.values row)).

(** [key = tuple(... for col in primary_keys)]: the parts in the order of
    [primary_keys]; the first part that raises ends the construction. *)
Fixpoint key (row : TableOrdering.Row) (primary_keys : list string)
  : result (list string) :=
  match primary_keys with
  | [] => Ok []
  | col :: rest =>
      bind (key_part row col) (fun v =>
      bind (key row rest) (fun k => Ok (v :: k)))
  end.

(** The same row written with its columns in two orders. *)
Definition order_row : TableOrdering.Row :=
  {| TableOrdering.columns := ["id"; "user_id"; "total"];
     TableOrdering.values := ["1"; "7"; "9.50"];
     TableOrdering.source_file := "orders.sql" |}.

Definition order_row_reordered : TableOrdering.Row :=
  {| TableOrdering.columns := ["total"; "id"; "user_id"];
     TableOrdering.values := ["9.50"; "1"; "7"];
     TableOrdering.source_file := "orders_export.sql" |}.

End Duplicates.

(** ** Key inference (Step 3 of the project overview, from ollama_utils.py) *)

Module KeyInference.

(** A Python exception, by the name of its class. *)
Inductive exn : Type := Exception (class_name : string).

Inductive result (A : Type) : Type :=
  | Ok (a : A)
  | Raise (e : exn).
Arguments Ok {A} a.
Arguments Raise {A} e.

(** A decoded JSON document, as [json.loads] builds it: [None], a boolean,
    a number (kept as its literal), a text, a list or a dictionary. *)
#[warnings="-register-all"]
Inductive json : Type :=
  | JNull
  | JBool (b : bool)
  | JNumber (literal : string)
  | JString (s : string)
  | JList (items : list json)
  | JDict (entries : list (string * json)).

Definition LF : string := String (ascii_of_nat 10) EmptyString.

Section step.
(** What the step calls and the sources do not hold: the encoder and the
    decoder of the [json] library, and [ollama_call], the request to the
    language model.  The model may answer differently each time it is
    asked, so [ollama_call n prompt] is the outcome of the call made when
    [n] calls have been made before: the reply, or the exception the call
    ends in (a failure or a timeout; by the internal notes the model is
    run up to 3 times with a timeout of 120s each, and failures bubble
    up). *)
Context {Sample : Type}.
Variable json_dumps : Sample -> string.
Variable ollama_call : nat -> string -> result string.
Variable json_loads : string -> result json.

(** The f-string of the prompt. *)
Definition prompt_for (sample_data : Sample) : string :=
  "### Input" +:+ LF +:+ json_dumps sample_data +:+ LF +:+
  "### Task" +:+ LF +:+
  "Return the most likely primary key columns as JSON list." +:+ LF +:+
  "### Output".

(** The three statements of the step, started when [calls] calls of the
    model have been made: the value of [primary_keys], or the exception
    the step ends in, and the number of calls made by then. *)
Definition infer_primary_keys (sample_data : Sample) (calls : nat)
  : result json * nat :=
  let prompt := prompt_for sample_data in
  match ollama_call calls prompt with
  | Raise e => (Raise e, S calls)
  | Ok response => (json_loads response, S calls)
  end.
End step.

(** A call that ends in a timeout whenever it is made. *)
Definition always_times_out (n : nat) (prompt : string) : result string :=
  Raise (Exception "TimeoutError").

(** Example 4 of the specification: two rows of [items], no column of which
    is unique-valued. *)
Definition items_rows : list TableOrdering.Row :=
  [ {| TableOrdering.columns := ["sku"; "qty"];
       TableOrdering.values := ["'A'"; "1"];
       TableOrdering.source_file := "items.sql" |};
    {| TableOrdering.columns := ["sku"; "qty"];
       TableOrdering.values := ["'A'"; "2"];
       TableOrdering.source_file := "items.sql" |} ].

End KeyInference.

(** ** The comparison core *)

(** The comparison module ([compare_utils.py]) is not among the sources;
    the data model and the DiffEngine below follow sections 3 and 4.4 of
    the specification. *)
Module Compare.

(** *** Data model *)

Inductive Kind : Type :=
  | KInteger | KDecimal | KString | KBoolean | KNull | KDateTime | KUnknown.

(** Modelled from the spec: the data model of section 3 (the row
    dictionaries of [compare_utils.py] are missing).  A value is a raw
    literal with its inferred scalar kind. *)
Record Value : Type := { raw : string; kind : Kind }.

(** A row: its table, its ordered cells (column name and value, so the two
    lists have the same length by construction) and its provenance. *)
Record Row : Type := {
  table : string;
  cells : list (string * Value);
  source_file : string;
  line : nat;
}.

Inductive Confidence : Type :=
  | Heuristic | OracleConfirmed | FallbackLowConfidence.

Record Table : Type := {
  name : string;
  rows : list Row;
  primary_key : list string;
  confidence : Confidence;
}.

(** One side of the comparison: one table per table name. *)
Abbreviation Dataset := (gmap string Table).

Definition kind_index (k : Kind) : nat :=
  match k with
  | KInteger => 0 | KDecimal => 1 | KString => 2 | KBoolean => 3
  | KNull => 4 | KDateTime => 5 | KUnknown => 6
  end.

Definition kind_of_index (n : nat) : Kind :=
  match n with
  | 0 => KInteger | 1 => KDecimal | 2 => KString | 3 => KBoolean
  | 4 => KNull | 5 => KDateTime | _ => KUnknown
  end.

#[global] Instance Kind_eq_dec : EqDecision Kind.
Proof. solve_decision. Defined.
#[global] Instance Kind_countable : Countable Kind.
Proof.
  apply (inj_countable' kind_index kind_of_index). by intros [].
Defined.
#[global] Instance Value_eq_dec : EqDecision Value.
Proof. solve_decision. Defined.
#[global] Instance Value_countable : Countable Value.
Proof.
  apply (inj_countable' (fun v => (raw v, kind v))
           (fun p => {| raw := p.1; kind := p.2 |})).
  by intros [].
Defined.

(** The PK tuple of a row: the value of each key column, [None] where the
    row has no such column. *)
Abbreviation Key := (list (option Value)).

Definition columns (r : Row) : list string := (cells r).*1.

Fixpoint assoc (c : string) (l : list (string * Value)) : option Value :=
  match l with
  | [] => None
  | (c', v) :: l' => if decide (c' = c) then Some v else assoc c l'
  end.

Definition cell (c : string) (r : Row) : option Value := assoc c (cells r).

Definition key_of (pk : list string) (r : Row) : Key :=
  (fun c => cell c r) <$> pk.

(** *** DiffEngine *)

(** Modelled from the spec: the map PK tuple -> Row of one side of a table
    (missing: the [b_map]/[o_map] construction of [compare_utils.py]); the
    last row seen for a key is kept, and a key seen again is recorded as an
    anomaly. *)
Definition add_row (pk : list string)
    (acc : gmap Key Row * list Key) (r : Row) : gmap Key Row * list Key :=
  let k := key_of pk r in
  (<[k := r]> acc.1,
   if decide (is_Some (acc.1 !! k)) then acc.2 ++ [k] else acc.2).

Definition build_map (pk : list string) (rows : list Row)
  : gmap Key Row * list Key :=
  fold_left (add_row pk) rows (∅, []).

(** Modelled from the spec: the value-level comparison of two rows with the
    same key (missing from the sources), over the columns of either row
    that are not excluded. *)
Definition compare_rows (excluded : list string) (rs rt : Row)
  : list (string * (option Value * option Value)) :=
  omap (fun c => if decide (cell c rs = cell c rt) then None
                 else Some (c, (cell c rs, cell c rt)))
    (filter (fun c => c ∉ excluded) (remove_dups (columns rs ++ columns rt))).

Record Mismatch : Type := {
  mismatch_key : Key;
  differences : list (string * (option Value * option Value));
}.

Record TableDiff : Type := {
  missing : list Key;
  extra : list Key;
  mismatches : list Mismatch;
  source_anomalies : list Key;
  target_anomalies : list Key;
}.

Section engine.
(** The per-column typed comparison of PK tuples (numeric for numeric-kind
    columns, lexicographic otherwise), as a strict order that can be
    decided, and the order in which a map hands out its keys.  Both are
    parameters of the engine. *)
Context (key_lt : relation Key) `{!RelDecision key_lt}.
Context (enum : gmap Key Row -> list Key).

Definition key_le : relation Key := fun a b => ~ key_lt b a.

#[global] Instance key_le_dec : RelDecision key_le.
Proof. intros a b. unfold key_le. apply _. Defined.

(** The keys of a map in canonical order. *)
Definition sorted_keys (m : gmap Key Row) : list Key :=
  merge_sort key_le (enum m).

Definition missing_keys (ms mt : gmap Key Row) : list Key :=
  filter (fun k => mt !! k = None) (sorted_keys ms).

Definition extra_keys (ms mt : gmap Key Row) : list Key :=
  filter (fun k => ms !! k = None) (sorted_keys mt).

Definition matched_keys (ms mt : gmap Key Row) : list Key :=
  filter (fun k => is_Some (mt !! k)) (sorted_keys ms).

Definition mismatch_of (excluded : list string) (ms mt : gmap Key Row)
    (k : Key) : option Mismatch :=
  match ms !! k, mt !! k with
  | Some rs, Some rt =>
      match compare_rows excluded rs rt with
      | [] => None
      | d => Some {| mismatch_key := k; differences := d |}
      end
  | _, _ => None
  end.

(** Modelled from the spec: the DiffEngine of section 4.4 for one table
    (missing: the diff computation of [compare_utils.py]); [None] is the
    table-scoped failure for PK tuples of different arity. *)
Definition diff_table (excluded : list string) (src tgt : Table)
  : option TableDiff :=
  if decide (length (primary_key src) = length (primary_key tgt)) then
    let bs := build_map (primary_key src) (rows src) in
    let bt := build_map (primary_key tgt) (rows tgt) in
    Some {| missing := missing_keys bs.1 bt.1;
            extra := extra_keys bs.1 bt.1;
            mismatches :=
              omap (mismatch_of excluded bs.1 bt.1)
                (matched_keys bs.1 bt.1);
            source_anomalies := bs.2;
            target_anomalies := bt.2 |}
  else None.

(** A table that only one side has is compared with the empty table. *)
Definition no_rows (T : Table) : Table :=
  {| name := name T; rows := []; primary_key := primary_key T;
     confidence := confidence T |}.

Definition diff_sides (excluded : list string) (s t : option Table)
  : option (option TableDiff) :=
  match s, t with
  | Some src, Some tgt => Some (diff_table excluded src tgt)
  | Some src, None => Some (diff_table excluded src (no_rows src))
  | None, Some tgt => Some (diff_table excluded (no_rows tgt) tgt)
  | None, None => None
  end.

(** Modelled from the spec: the structured diff document, keyed by table
    name (missing: the per-table section of [diff.json]). *)
Definition diff_datasets (excluded : list string) (source target : Dataset)
  : gmap string (option TableDiff) :=
  merge (diff_sides excluded) source target.
End engine.

(** *** A typed comparison *)

(** Modelled from the spec: an instance of the per-column typed comparison
    (missing: the sort by PK tuple of [compare_utils.py]).  An absent value
    comes first, then the numeric-kind values whose literal reads as an
    integer, by value, then all other values by the text of their literal;
    literal and kind break ties, so that different values are never equal
    in the order.  PK tuples are compared column by column. *)
Definition numeric_kind (k : Kind) : bool :=
  match k with
  | KInteger | KDecimal => true
  | _ => false
  end.

Definition digit (c : ascii) : option Z :=
  let n := nat_of_ascii c in
  if (48 <=? n) && (n <=? 57) then Some (Z.of_nat (n - 48)) else None.

Fixpoint digits (acc : Z) (s : string) : option Z :=
  match s with
  | EmptyString => Some acc
  | String c s' =>
      match digit c with
      | Some d => digits (10 * acc + d) s'
      | None => None
      end
  end.

Definition integer_value (s : string) : option Z :=
  match s with
  | EmptyString => None
  | String "-" (String c s') => Z.opp <$> digits 0 (String c s')
  | _ => digits 0 s
  end.

Definition codes (s : string) : list nat :=
  nat_of_ascii <$> list_ascii_of_string s.

Definition typed_sort_key (v : option Value) : nat * (Z * (list nat * nat)) :=
  match v with
  | None => (0, (0%Z, ([], 0)))
  | Some v =>
      match (if numeric_kind (kind v) then integer_value (raw v) else None) with
      | Some n => (1, (n, (codes (raw v), kind_index (kind v))))
      | None => (2, (0%Z, (codes (raw v), kind_index (kind v))))
      end
  end.

#[global] Instance value_lexico : Lexico (option Value) :=
  fun a b => lexico (typed_sort_key a) (typed_sort_key b).

Definition typed_key_lt : relation Key := lexico.

(** The order in which the key-value pairs of a map are listed, and its
    reverse: two orders in which a map may hand out its keys. *)
Definition enum_forward (m : gmap Key Row) : list Key := (map_to_list m).*1.
Definition enum_backward (m : gmap Key Row) : list Key :=
  reverse (map_to_list m).*1.

(** The keys of a table's rows, as a set. *)
Definition keys (T : Table) : gset Key :=
  list_to_set (key_of (primary_key T) <$> rows T).

(** An enumeration hands out each key of the map once. *)
Definition enumerates (enum : gmap Key Row -> list Key) : Prop :=
  forall m, NoDup (enum m) /\ forall k, k ∈ enum m <-> is_Some (m !! k).

(** A mismatch entry with source and target exchanged. *)
Definition swap_difference (d : string * (option Value * option Value))
  : string * (option Value * option Value) := (d.1, (d.2.2, d.2.1)).

Definition swapped (m m' : Mismatch) : Prop :=
  mismatch_key m' = mismatch_key m /\
  differences m' ≡ₚ swap_difference <$> differences m.

(** The diff with source and target exchanged: missing and extra change
    places, the mismatch entries are the same keys in the same order with
    the same columns and exchanged values, and the anomalies change
    sides. *)
Definition mirrored (d d' : TableDiff) : Prop :=
  missing d' = extra d /\ extra d' = missing d /\
  Forall2 swapped (mismatches d) (mismatches d') /\
  source_anomalies d' = target_anomalies d /\
  target_anomalies d' = source_anomalies d.

Definition mirrored_entry (e e' : option (option TableDiff)) : Prop :=
  match e, e' with
  | Some (Some d), Some (Some d') => mirrored d d'
  | Some None, Some None => True
  | None, None => True
  | _, _ => False
  end.

(** Sample data: Example 2 of the specification, with one more key on each
    side. *)
Definition sample_row (t id label : string) : Row :=
  {| table := t;
     cells := [("id", {| raw := id; kind := KInteger |});
               ("label", {| raw := label; kind := KString |})];
     source_file := t +:+ ".sql"; line := 1 |}.

Definition sample_orders_source : Table :=
  {| name := "orders";
     rows := [sample_row "orders" "5" "'OPEN'";
              sample_row "orders" "10" "'NEW'"];
     primary_key := ["id"]; confidence := Heuristic |}.

Definition sample_orders_target : Table :=
  {| name := "orders";
     rows := [sample_row "orders" "7" "'NEW'";
              sample_row "orders" "5" "'CLOSED'"];
     primary_key := ["id"]; confidence := Heuristic |}.

Definition sample_source : Dataset := {[ "orders" := sample_orders_source ]}.
Definition sample_target : Dataset := {[ "orders" := sample_orders_target ]}.

End Compare.

(** ** The StatementParser *)

(** Of the parser ([parse_sql_file] of [ingest.py]) the sources hold the
    callers and the pattern [INSERT_REGEX], not the function itself, nor
    how it compiles and applies the pattern; the parser below follows
    section 4.1 of the specification. *)
Module StatementParser.

(** *** Characters *)

Definition LF : ascii := ascii_of_nat 10.
Definition DOUBLE_QUOTE : ascii := ascii_of_nat 34.

Definition is_white (c : ascii) : bool :=
  let n := nat_of_ascii c in ((9 <=? n) && (n <=? 13)) || (n =? 32).

(** The characters that quote an identifier or a literal, those of the
    pattern of [ingest.py]. *)
Definition is_quote (c : ascii) : bool :=
  Ascii.eqb c "'" || Ascii.eqb c DOUBLE_QUOTE.

(** The line breaks of a text. *)
Definition newlines (cs : list ascii) : nat :=
  length (filter (fun c => c = LF) cs).

(** *** Tokens *)

Inductive token : Type :=
  | Word (w : string)
  | Quoted (q : ascii) (s : string)
  | LParen
  | RParen
  | Comma
  | Semicolon
  | Unterminated (q : ascii) (s : string).

#[global] Instance token_eq_dec : EqDecision token.
Proof. solve_decision. Defined.

Definition punctuation (c : ascii) : option token :=
  if Ascii.eqb c "(" then Some LParen
  else if Ascii.eqb c ")" then Some RParen
  else if Ascii.eqb c "," then Some Comma
  else if Ascii.eqb c ";" then Some Semicolon
  else None.

(** A character of a word: anything but white space, a quote and the
    punctuation. *)
Definition is_word_char (c : ascii) : bool :=
  negb (is_white c) && negb (is_quote c) &&
  match punctuation c with
  | Some _ => false
  | None => true
  end.

(** A token with the line it starts on. *)
Definition ltoken : Type := nat * token.

(** *** The lexer *)

(** Where the lexer is: between tokens; in a word, after the characters
    [acc] (latest first); in a comment; in a quoted text; and after a quote
    character inside a quoted text, which closes it or is the first of a
    doubled quote. *)
Inductive mode : Type :=
  | Between
  | InWord (start : nat) (acc : list ascii)
  | InComment
  | InQuote (start : nat) (q : ascii) (acc : list ascii)
  | AfterQuote (start : nat) (q : ascii) (acc : list ascii).

Definition word_token (start : nat) (acc : list ascii) : ltoken :=
  (start, Word (string_of_list_ascii (rev acc))).

Definition quoted_token (start : nat) (q : ascii) (acc : list ascii) : ltoken :=
  (start, Quoted q (string_of_list_ascii (rev acc))).

(** A character read between tokens, on line [line]. *)
Definition between (line : nat) (c : ascii) : mode * list ltoken :=
  if is_white c then (Between, [])
  else if is_quote c then (InQuote line c [], [])
  else match punctuation c with
       | Some p => (Between, [(line, p)])
       | None => (InWord line [c], [])
       end.

(** A character that ends the token [t]. *)
Definition after_token (t : ltoken) (line : nat) (c : ascii)
  : mode * list ltoken :=
  (fst (between line c), t :: snd (between line c)).

(** Modelled from the spec: the reading of one character (missing:
    [parse_sql_file]), which gives the next mode and the tokens completed.
    Two dashes where a token would start open a comment that runs to the
    end of the line (the line comment of SQL); inside a quoted text a
    doubled quote stands for one quote character. *)
Definition step (line : nat) (m : mode) (c : ascii) : mode * list ltoken :=
  match m with
  | Between => between line c
  | InWord start acc =>
      if is_word_char c then
        if Ascii.eqb c "-" && bool_decide (acc = ["-"%char])
        then (InComment, [])
        else (InWord start (c :: acc), [])
      else after_token (word_token start acc) line c
  | InComment => if Ascii.eqb c LF then (Between, []) else (InComment, [])
  | InQuote start q acc =>
      if Ascii.eqb c q then (AfterQuote start q acc, [])
      else (InQuote start q (c :: acc), [])
  | AfterQuote start q acc =>
      if Ascii.eqb c q then (InQuote start q (q :: acc), [])
      else after_token (quoted_token start q acc) line c
  end.

(** The end of the text. *)
Definition flush (m : mode) : list ltoken :=
  match m with
  | Between | InComment => []
  | InWord start acc => [word_token start acc]
  | InQuote start q acc =>
      [(start, Unterminated q (string_of_list_ascii (rev acc)))]
  | AfterQuote start q acc => [quoted_token start q acc]
  end.

Fixpoint lex_from (line : nat) (m : mode) (cs : list ascii) : list ltoken :=
  match cs with
  | [] => flush m
  | c :: cs' =>
      snd (step line m c) ++
      lex_from (if Ascii.eqb c LF then S line else line)
        (fst (step line m c)) cs'
  end.

(** Modelled from the spec: the tokens of a text (missing:
    [parse_sql_file]), with their lines, which are counted from 1. *)
Definition lex (content : string) : list ltoken :=
  lex_from 1 Between (list_ascii_of_string content).

(** *** Statements *)

(** An identifier or a literal: a bare word, or a text in quotes. *)
Inductive Atom : Type :=
  | Bare (w : string)
  | InQuotes (q : ascii) (s : string).

Definition atom_of (t : token) : option Atom :=
  match t with
  | Word w => Some (Bare w)
  | Quoted q s => Some (InQuotes q s)
  | _ => None
  end.

Definition atom_token (a : Atom) : token :=
  match a with
  | Bare w => Word w
  | InQuotes q s => Quoted q s
  end.

(** The name an identifier stands for and the raw value of a literal: the
    quotes are off and a doubled quote is one quote. *)
Definition atom_text (a : Atom) : string :=
  match a with
  | Bare w => w
  | InQuotes _ s => s
  end.

(** An INSERT statement: the table, the column list and the tuples. *)
Record Insert : Type := {
  target : Atom;
  column_list : list Atom;
  tuples : list (list Atom);
}.

(** A keyword, in any mix of upper and lower case of the letters a to
    z. *)
Definition is_keyword (kw : string) (t : token) : bool :=
  match t with
  | Word w => String.eqb (TableOrdering.upper w) kw
  | _ => false
  end.

(** Modelled from the spec: the reading of a column list (missing:
    [parse_sql_file]), atoms separated by commas, up to the closing
    parenthesis; what follows it is handed back. *)
Fixpoint atoms_until_close (ts : list token)
  : option (list Atom * list token) :=
  match ts with
  | t :: sep :: rest =>
      match atom_of t, sep with
      | Some a, Comma =>
          match atoms_until_close rest with
          | Some (l, rest') => Some (a :: l, rest')
          | None => None
          end
      | Some a, RParen => Some ([a], rest)
      | _, _ => None
      end
  | _ => None
  end.

(** Where the reading of the tuples is: before the opening parenthesis of
    a tuple; before a value, after the values [vals] of the tuple (latest
    first); after a value; after the closing parenthesis. *)
Inductive tuple_mode : Type :=
  | ExpectOpen
  | ExpectValue (vals : list Atom)
  | AfterValue (vals : list Atom)
  | AfterTuple.

(** Modelled from the spec: the reading of the tuples (missing:
    [parse_sql_file]), separated by commas, up to the end of the statement;
    [done] holds the tuples read so far, latest first. *)
Fixpoint tuples_from (m : tuple_mode) (done : list (list Atom))
    (ts : list token) : option (list (list Atom)) :=
  match ts with
  | [] =>
      match m with
      | AfterTuple => Some (rev done)
      | _ => None
      end
  | t :: rest =>
      match m, t with
      | ExpectOpen, LParen => tuples_from (ExpectValue []) done rest
      | ExpectValue vals, Word w =>
          tuples_from (AfterValue (Bare w :: vals)) done rest
      | ExpectValue vals, Quoted q s =>
          tuples_from (AfterValue (InQuotes q s :: vals)) done rest
      | AfterValue vals, Comma => tuples_from (ExpectValue vals) done rest
      | AfterValue vals, RParen =>
          tuples_from AfterTuple (rev vals :: done) rest
      | AfterTuple, Comma => tuples_from ExpectOpen done rest
      | _, _ => None
      end
  end.

(** Every tuple has as many values as there are columns (the invariant of
    a Row), and there is a tuple. *)
Definition well_formed (ins : Insert) : bool :=
  match tuples ins with
  | [] => false
  | _ =>
      forallb (fun vals => length vals =? length (column_list ins))
        (tuples ins)
  end.

(** Modelled from the spec: the recognition of one statement (missing:
    [parse_sql_file]), the keywords INSERT and INTO, the table, the column
    list in parentheses, the keyword VALUES and one or more tuples. *)
Definition insert_of (ts : list token) : option Insert :=
  match ts with
  | k1 :: k2 :: t :: LParen :: rest =>
      if is_keyword "INSERT" k1 && is_keyword "INTO" k2 then
        match atom_of t, atoms_until_close rest with
        | Some tbl, Some (cols, k3 :: rest') =>
            if is_keyword "VALUES" k3 then
              match tuples_from ExpectOpen [] rest' with
              | Some tl =>
                  let ins := {| target := tbl; column_list := cols;
                                tuples := tl |} in
                  if well_formed ins then Some ins else None
              | None => None
              end
            else None
        | _, _ => None
        end
      else None
  | _ => None
  end.

(** Modelled from the spec: a statement that omits the column list
    (missing: [parse_sql_file]), that is, one in which the keyword VALUES
    follows the table at once. *)
Definition omits_column_list (ts : list token) : bool :=
  match ts with
  | k1 :: k2 :: t :: k3 :: _ =>
      is_keyword "INSERT" k1 && is_keyword "INTO" k2 &&
      match atom_of t with
      | Some _ => true
      | None => false
      end && is_keyword "VALUES" k3
  | _ => false
  end.

Record ParseError : Type := {
  error_line : nat;
  message : string;
}.

Definition column_list_required : string :=
  "column list required for row reconstruction".
Definition malformed_statement : string := "malformed statement".

Definition error_at (line : nat) (ts : list token) : ParseError :=
  {| error_line := line;
     message := if omits_column_list ts then column_list_required
                else malformed_statement |}.

(** The lines of the opening parentheses of a statement: that of the
    column list, then those of the tuples. *)
Definition paren_lines (lts : list ltoken) : list nat :=
  (filter (fun lt : ltoken => lt.2 = LParen) lts).*1.

(** Modelled from the spec: the statements of a text (missing:
    [parse_sql_file]); each runs up to its delimiter, the semicolon;
    [current] holds the tokens of the statement being read, latest first.
    What follows the last semicolon has no delimiter and is handed back
    apart. *)
Fixpoint statements (current : list ltoken) (lts : list ltoken)
  : list (list ltoken) * list ltoken :=
  match lts with
  | [] => ([], rev current)
  | lt :: rest =>
      match lt.2 with
      | Semicolon =>
          (rev current :: fst (statements [] rest),
           snd (statements [] rest))
      | _ => statements (lt :: current) rest
      end
  end.

Section rows.
(** The specification lists the scalar kinds and does not say how a
    literal is classified: the classification is a parameter. *)
Variable classify : Atom -> Compare.Kind.

(** Modelled from the spec: the Row of one tuple (missing:
    [parse_sql_file]), the columns paired with the raw values in order,
    with the source file and the line of the tuple. *)
Definition row_of (file : string) (ins : Insert) (line : nat)
    (vals : list Atom) : Compare.Row :=
  {| Compare.table := atom_text (target ins);
     Compare.cells :=
       zip (atom_text <$> column_list ins)
           ((fun v => {| Compare.raw := atom_text v;
                         Compare.kind := classify v |}) <$> vals);
     Compare.source_file := file;
     Compare.line := line |}.

(** Modelled from the spec: what one statement yields (missing:
    [parse_sql_file]), one Row for each tuple, or one ParseError on the
    line the statement starts on; an empty statement yields nothing. *)
Definition parse_statement (file : string) (lts : list ltoken)
  : list Compare.Row * list ParseError :=
  match lts with
  | [] => ([], [])
  | first :: _ =>
      match insert_of lts.*2 with
      | Some ins =>
          (zip_with (row_of file ins) (tail (paren_lines lts)) (tuples ins),
           [])
      | None => ([], [error_at first.1 lts.*2])
      end
  end.

(** A text after the last semicolon is a statement without its
    delimiter: a ParseError. *)
Definition parse_remainder (lts : list ltoken) : list ParseError :=
  match lts with
  | [] => []
  | first :: _ => [error_at first.1 lts.*2]
  end.

(** Modelled from the spec: the StatementParser of section 4.1 (missing:
    [parse_sql_file]), the Rows of a file's content in order, and the
    ParseErrors. *)
Definition parse_sql_file (file : string) (content : string)
  : list Compare.Row * list ParseError :=
  let split := statements [] (lex content) in
  let results := parse_statement file <$> split.1 in
  (results ≫= fst, (results ≫= snd) ++ parse_remainder split.2).
End rows.

(** *** Texts of statements *)

(** What stands between two tokens: white space and comments. *)
Inductive GapItem : Type :=
  | White (c : ascii)
  | Comment (body : list ascii).

Definition Gap : Type := list GapItem.

(** A gap as a text; a comment runs from two dashes to the end of its
    line. *)
Definition item_text (i : GapItem) : list ascii :=
  match i with
  | White c => [c]
  | Comment body => "-"%char :: "-"%char :: body ++ [LF]
  end.

Definition gap_text (g : Gap) : list ascii := g ≫= item_text.



(** A quoted text as written: its quote characters are doubled. *)
Definition escape (q : ascii) (cs : list ascii) : list ascii :=
  cs ≫= (fun c => if Ascii.eqb c q then [q; q] else [c]).

(** A token as a text. *)
Definition token_text (t : token) : list ascii :=
  match t with
  | Word w => list_ascii_of_string w
  | Quoted q s => q :: escape q (list_ascii_of_string s) ++ [q]
  | LParen => ["("%char]
  | RParen => [")"%char]
  | Comma => [","%char]
  | Semicolon => [";"%char]
  | Unterminated q s => q :: escape q (list_ascii_of_string s)
  end.





(** Tokens, each with the gap after it, as a text. *)
Fixpoint render (tgs : list (token * Gap)) : list ascii :=
  match tgs with
  | [] => []
  | (t, g) :: rest => token_text t ++ gap_text g ++ render rest
  end.


(** The tokens with their lines, the first one on line [line]. *)
Fixpoint locate (line : nat) (tgs : list (token * Gap)) : list ltoken :=
  match tgs with
  | [] => []
  | (t, g) :: rest =>
      (line, t) :: locate (line + newlines (token_text t ++ gap_text g)) rest
  end.

(** The keywords as a statement spells them. *)
Record Keywords : Type := {
  insert_kw : string;
  into_kw : string;
  values_kw : string;
}.


(** A comma before what follows, if anything does. *)
Definition preceded (ts : list token) : list token :=
  match ts with
  | [] => []
  | _ => Comma :: ts
  end.

(** Identifiers or literals with commas between them, and tuples in
    parentheses with commas between them. *)
Fixpoint atoms_tokens (atoms : list Atom) : list token :=
  match atoms with
  | [] => []
  | a :: rest => atom_token a :: preceded (atoms_tokens rest)
  end.

Fixpoint tuples_tokens (tl : list (list Atom)) : list token :=
  match tl with
  | [] => []
  | vals :: rest =>
      LParen :: atoms_tokens vals ++ RParen :: preceded (tuples_tokens rest)
  end.

(** The tokens of the statement
    INSERT INTO table (columns) VALUES (tuple), (tuple) ... *)
Definition tokens_of (k : Keywords) (ins : Insert) : list token :=
  Word (insert_kw k) :: Word (into_kw k) :: atom_token (target ins) ::
  LParen :: atoms_tokens (column_list ins) ++ RParen ::
  Word (values_kw k) :: tuples_tokens (tuples ins).

(** The tokens of a statement without its column list,
    INSERT INTO table VALUES ... *)
Definition tokens_without_columns (k : Keywords) (table : Atom)
    (rest : list token) : list token :=
  Word (insert_kw k) :: Word (into_kw k) :: atom_token table ::
  Word (values_kw k) :: rest.

(** A statement of a file, before its semicolon: a well-formed INSERT
    statement, an INSERT statement that omits its column list, or other
    tokens. *)
Inductive Statement : Type :=
  | WellFormed (k : Keywords) (ins : Insert)
  | NoColumnList (k : Keywords) (table : Atom) (rest : list token)
  | Malformed (ts : list token).

Definition statement_tokens (st : Statement) : list token :=
  match st with
  | WellFormed k ins => tokens_of k ins
  | NoColumnList k table rest => tokens_without_columns k table rest
  | Malformed ts => ts
  end.


(** The tokens [ts] with the gaps [gaps] after them, in order (no gap
    where the list of gaps ends). *)
Fixpoint lay (ts : list token) (gaps : list Gap) : list (token * Gap) :=
  match ts with
  | [] => []
  | t :: ts' => (t, hd [] gaps) :: lay ts' (tl gaps)
  end.

(** A statement in a file: its tokens and its semicolon, with the gaps
    after them. *)
Definition Item : Type := Statement * list Gap.

Definition item_tokens (it : Item) : list (token * Gap) :=
  lay (statement_tokens it.1 ++ [Semicolon]) it.2.

(** The content of a file: a gap, then the statements. *)
Definition file_text (g0 : Gap) (items : list Item) : string :=
  string_of_list_ascii (gap_text g0 ++ render (items ≫= item_tokens)).

Section expected.
Variable classify : Atom -> Compare.Kind.
Variable file : string.



End expected.



(** *** Examples *)

Definition SPACE : Gap := [White " "%char].
Definition BREAK : Gap := [White LF; White " "%char; White " "%char].
Definition UPPER_CASE : Keywords :=
  {| insert_kw := "INSERT"; into_kw := "INTO"; values_kw := "VALUES" |}.

(** The statement
<<
insert into 'users' (id, name)
  Values (1, 'O''Brien'),
  -- the second tuple
  (2, 'Ann');
>>
*)
Definition users_insert : Item :=
  (WellFormed
     {| insert_kw := "insert"; into_kw := "into"; values_kw := "Values" |}
     {| target := InQuotes "'" "users";
        column_list := [Bare "id"; Bare "name"];
        tuples := [[Bare "1"; InQuotes "'" "O'Brien"];
                   [Bare "2"; InQuotes "'" "Ann"]] |},
   [SPACE; SPACE; SPACE; []; []; SPACE; []; BREAK; SPACE; []; []; SPACE; [];
    []; [White LF; White " "%char; White " "%char;
         Comment (list_ascii_of_string " the second tuple");
         White " "%char; White " "%char];
    []; []; SPACE; []; []; [White LF]]).

(** The statement [INSERT INTO users VALUES (3, 'Bob');], which has no
    column list. *)
Definition no_column_list : Item :=
  (NoColumnList UPPER_CASE (Bare "users")
     [LParen; Word "3"; Comma; Quoted "'" "Bob"; RParen],
   [SPACE; SPACE; SPACE; SPACE; []; []; SPACE; []; []; [White LF]]).

(** The statement [INSERT INTO users (id, name) VALUES (4);], whose tuple
    has one value for two columns. *)
Definition one_value_for_two_columns : list token :=
  [Word "INSERT"; Word "INTO"; Word "users"; LParen; Word "id"; Comma;
   Word "name"; RParen; Word "VALUES"; LParen; Word "4"; RParen].

Definition short_tuple : Item :=
  (Malformed one_value_for_two_columns,
   [SPACE; SPACE; SPACE; []; []; SPACE; []; SPACE; SPACE; []; []; [];
    [White LF]]).

(** The statement [INSERT INTO t (a) VALUES (-5);]. *)
Definition t_insert : Item :=
  (WellFormed UPPER_CASE
     {| target := Bare "t"; column_list := [Bare "a"];
        tuples := [[Bare "-5"]] |},
   [SPACE; SPACE; SPACE; []; []; SPACE; SPACE; []; []; []; [White LF]]).

Definition users_sql : list Item :=
  [users_insert; no_column_list; short_tuple; t_insert].

Definition users_sql_text : string :=
  "-- users" ++ String LF
  ("insert into 'users' (id, name)" ++ String LF
  ("  Values (1, 'O''Brien')," ++ String LF
  ("  -- the second tuple" ++ String LF
  ("  (2, 'Ann');" ++ String LF
  ("INSERT INTO users VALUES (3, 'Bob');" ++ String LF
  ("INSERT INTO users (id, name) VALUES (4);" ++ String LF
  ("INSERT INTO t (a) VALUES (-5);" ++ String LF ""))))))).

Definition by_quotes (a : Atom) : Compare.Kind :=
  match a with
  | Bare _ => Compare.KUnknown
  | InQuotes _ _ => Compare.KString
  end.

End StatementParser.

(** * Properties *)

(** ** Texts *)

Lemma app_String c (s1 s2 : string) :
  String c s1 +:+ s2 = String c (s1 +:+ s2).
Proof. reflexivity. Qed.

Lemma app_assoc_text (s1 s2 s3 : string) :
  (s1 +:+ s2) +:+ s3 = s1 +:+ (s2 +:+ s3).
Proof.
  induction s1 as [|c s1 IH]; [done|]. by rewrite !app_String, IH.
Qed.

Lemma starts_with_spec needle : forall hay,
  Text.starts_with needle hay = true <-> exists rest, hay = needle +:+ rest.
Proof.
  induction needle as [|a needle IH]; intros hay; simpl.
  - split; [|done]. intros _. by exists hay.
  - destruct hay as [|b hay].
    + split; [done|]. intros [rest H]. by rewrite app_String in H.
    + rewrite andb_true_iff, Ascii.eqb_eq, IH. split.
      * intros [-> [rest ->]]. by exists rest.
      * intros [rest H]. rewrite app_String in H. injection H as -> ->.
        split; [done|]. by exists rest.
Qed.

Lemma includes_spec needle : forall hay,
  Text.includes needle hay = true <->
  exists before after, hay = before +:+ needle +:+ after.
Proof.
  induction hay as [|c hay IH]; simpl.
  - rewrite orb_false_r, starts_with_spec. split.
    + intros [rest ->]. by exists "", rest.
    + intros (before & after & H). destruct before as [|b before].
      * by exists after.
      * by rewrite app_String in H.
  - rewrite orb_true_iff, starts_with_spec, IH. split.
    + intros [[rest ->]|(before & after & ->)].
      * by exists "", rest.
      * by exists (String c before), after.
    + intros (before & after & H). destruct before as [|b before].
      * left. by exists after.
      * rewrite app_String in H. injection H as -> ->.
        right. by exists before, after.
Qed.

(** ** ProgressBar *)

Lemma clampedProgress_Finite (q : Q) :
  ProgressBar.clampedProgress (ProgressBar.Finite q) =
    if Qle_bool q 0 then ProgressBar.Finite 0
    else if Qle_bool 100 q then ProgressBar.Finite 100
    else ProgressBar.Finite q.
Proof.
  unfold ProgressBar.clampedProgress; simpl.
  destruct (Qle_bool q 0) eqn:E0; [reflexivity|].
  simpl. reflexivity.
Qed.

Lemma clampedProgress_within_bar (x : ProgressBar.number) :
  x <> ProgressBar.NaN ->
  ProgressBar.within_bar (ProgressBar.clampedProgress x).
Proof.
  destruct x as [| |q|]; intros Hx; try congruence;
    try (cbn; split; discriminate).
  rewrite clampedProgress_Finite.
  destruct (Qle_bool q 0) eqn:E0; [cbn; split; discriminate|].
  destruct (Qle_bool 100 q) eqn:E1; [cbn; split; discriminate|].
  cbn. split.
  - apply Qnot_lt_le. intros Hlt.
    apply Qlt_le_weak, Qle_bool_iff in Hlt. congruence.
  - apply Qnot_lt_le. intros Hlt.
    apply Qlt_le_weak, Qle_bool_iff in Hlt. congruence.
Qed.

(** C8 as stated fails: for the number NaN the computed width is NaN, which
    is no percentage between 0 and 100. *)
Lemma C8_counterexample :
  ProgressBar.fill_width_percent (ProgressBar.render ProgressBar.NaN)
    = ProgressBar.NaN /\
  ~ ProgressBar.within_bar
      (ProgressBar.fill_width_percent (ProgressBar.render ProgressBar.NaN)).
Proof. split; [reflexivity | cbn; tauto]. Qed.

(** C8 (amended): for every number other than NaN, finite or infinite, the
    fill width rendered by the enhanced ProgressBar is the input clamped into
    [0,100] (0 below 0, 100 above 100, the input itself in between) and so
    lies within the bar. *)
Theorem C8_fill_width_clamped (progress : ProgressBar.number) :
  progress <> ProgressBar.NaN ->
  ProgressBar.is_clamp_of progress
    (ProgressBar.fill_width_percent (ProgressBar.render progress)) /\
  ProgressBar.within_bar
    (ProgressBar.fill_width_percent (ProgressBar.render progress)).
Proof.
  intros Hx. split; [|by apply clampedProgress_within_bar].
  cbn [ProgressBar.render ProgressBar.fill_width_percent].
  destruct progress as [| |q|]; try congruence; try reflexivity.
  rewrite clampedProgress_Finite. cbn. repeat split.
  - intros Hq. apply Qlt_le_weak, Qle_bool_iff in Hq. by rewrite Hq.
  - intros Hq.
    destruct (Qle_bool q 0) eqn:E0.
    + apply Qle_bool_iff in E0. exfalso.
      apply (Qlt_irrefl 100). eapply Qlt_le_trans; [exact Hq|].
      eapply Qle_trans; [exact E0|]. discriminate.
    + apply Qlt_le_weak, Qle_bool_iff in Hq. by rewrite Hq.
  - intros [H0 H100].
    destruct (Qle_bool q 0) eqn:E0.
    + apply Qle_bool_iff in E0. exists 0%Q. split; [reflexivity|].
      by apply Qle_antisym.
    + destruct (Qle_bool 100 q) eqn:E1.
      * apply Qle_bool_iff in E1. exists 100%Q. split; [reflexivity|].
        by apply Qle_antisym.
      * exists q. split; reflexivity.
Qed.

Lemma C8_fill_width_clamped_witness :
  ProgressBar.is_clamp_of (ProgressBar.Finite 250)
    (ProgressBar.fill_width_percent
       (ProgressBar.render (ProgressBar.Finite 250))) /\
  ProgressBar.within_bar
    (ProgressBar.fill_width_percent
       (ProgressBar.render (ProgressBar.Finite 250))).
Proof.
  apply (C8_fill_width_clamped (ProgressBar.Finite 250)). discriminate.
Defined.

(** ** Dropzone *)

Lemma filter_from_keep_all {A} (p : A -> nat -> bool) i (l : list A) :
  (forall x j, i <= j -> p x j = true) ->
  Dropzone.filter_from p i l = l.
Proof.
  revert i. induction l as [|x l IH]; intros i Hp; simpl; [done|].
  rewrite Hp by lia. f_equal. apply IH. intros y j Hj. apply Hp. lia.
Qed.

Lemma filter_from_skip {A} (l : list A) : forall i k,
  Dropzone.filter_from (fun _ index => negb (Nat.eqb index (i + k))) i l
  = take k l ++ drop (S k) l.
Proof.
  induction l as [|x l IH]; intros i k; simpl.
  - by rewrite take_nil.
  - destruct k as [|k].
    + rewrite Nat.add_0_r, Nat.eqb_refl. simpl. rewrite drop_0.
      apply filter_from_keep_all. intros y j Hj.
      apply negb_true_iff, Nat.eqb_neq. lia.
    + replace (Nat.eqb i (i + S k)) with false
        by (symmetry; apply Nat.eqb_neq; lia).
      simpl. f_equal.
      replace (i + S k) with (S i + k) by lia. apply IH.
Qed.

Lemma removeFile_delete (files : list Dropzone.File) (i : nat) :
  Dropzone.removeFile files i = take i files ++ drop (S i) files.
Proof. apply (filter_from_skip files 0 i). Qed.



(** ** DirectionSelector *)

Lemma option_value_is_direction k (option : DirectionSelector.DirectionOption) :
  DirectionSelector.DIRECTION_OPTIONS !! k = Some option ->
  DirectionSelector.is_direction (DirectionSelector.value option).
Proof.
  unfold DirectionSelector.is_direction.
  destruct k as [|[|k]]; simpl; intros H; simplify_eq; simpl; auto.
Qed.

Lemma mount_spec (st : DirectionSelector.State) :
  DirectionSelector.localStorage (DirectionSelector.mount st)
    = DirectionSelector.localStorage st /\
  (forall s,
     DirectionSelector.getItem DirectionSelector.STORAGE_KEY st = Some s ->
     DirectionSelector.is_direction s ->
     DirectionSelector.direction (DirectionSelector.mount st) = s) /\
  ((forall s,
     DirectionSelector.getItem DirectionSelector.STORAGE_KEY st = Some s ->
     ~ DirectionSelector.is_direction s) ->
   DirectionSelector.direction (DirectionSelector.mount st)
     = DirectionSelector.direction st).
Proof.
  unfold DirectionSelector.mount, DirectionSelector.is_direction.
  destruct (DirectionSelector.getItem _ st) as [s|] eqn:Hget.
  - destruct (String.eqb_spec s "pg2ora") as [->|Hn1];
      [|destruct (String.eqb_spec s "ora2pg") as [->|Hn2]]; simpl.
    + split; [done|]. split; [by intros ? [= <-]|].
      intros H. exfalso. apply (H _ eq_refl). auto.
    + split; [done|]. split; [by intros ? [= <-]|].
      intros H. exfalso. apply (H _ eq_refl). auto.
    + rewrite andb_false_r. split; [done|]. split; [|done].
      intros ? [= <-] [?|?]; congruence.
  - split; [done|]. split; [done|done].
Qed.

Lemma step_keeps_invariant stored st e :
  DirectionSelector.storage_inv stored st ->
  DirectionSelector.storage_inv stored (DirectionSelector.step st e).
Proof.
  intros (Hd & Hk & Ho). destruct e as [|k disabled]; simpl.
  - destruct (mount_spec st) as (Hls & Hyes & Hno).
    unfold DirectionSelector.storage_inv. rewrite Hls. split; [|done].
    destruct (DirectionSelector.getItem DirectionSelector.STORAGE_KEY st)
      as [s|] eqn:Hget.
    + destruct (decide (DirectionSelector.is_direction s)) as [Hs|Hs].
      * by rewrite (Hyes s).
      * rewrite Hno; [done|]. by intros ? [= <-].
    + by rewrite Hno.
  - destruct disabled; [done|].
    destruct (DirectionSelector.DIRECTION_OPTIONS !! k) as [option|] eqn:Hopt;
      [|done].
    apply option_value_is_direction in Hopt.
    split; [done|]. simpl. split.
    + right. eexists. split; [exact Hopt|]. apply lookup_insert_eq.
    + intros k' Hk'. rewrite lookup_insert_ne by done. by apply Ho.
Qed.

(** C10: from the initial selection ["pg2ora"], whatever the browser has
    stored and whatever sequence of mounts and clicks happens, the direction
    is ["pg2ora"] or ["ora2pg"]; the component leaves every other key of
    [localStorage] alone and under its own key there is either what was
    stored before or one of the two directions; a click on an enabled
    option writes that option's value, one of the two; and on mount a
    stored value that is one of the two directions is restored, while any
    other stored string (or none) leaves selection and store as they are. *)
Theorem C10_direction_invariant
    (stored : gmap string string) (events : list DirectionSelector.Event) :
  let st := DirectionSelector.run events (DirectionSelector.initial stored) in
  (DirectionSelector.is_direction (DirectionSelector.direction st) /\
   (DirectionSelector.localStorage st !! DirectionSelector.STORAGE_KEY
      = stored !! DirectionSelector.STORAGE_KEY \/
    exists d, DirectionSelector.is_direction d /\
      DirectionSelector.localStorage st !! DirectionSelector.STORAGE_KEY
        = Some d) /\
   (forall k, k <> DirectionSelector.STORAGE_KEY ->
      DirectionSelector.localStorage st !! k = stored !! k)) /\
  (forall k option,
     DirectionSelector.DIRECTION_OPTIONS !! k = Some option ->
     DirectionSelector.is_direction (DirectionSelector.value option) /\
     DirectionSelector.step st (DirectionSelector.Click k false)
       = {| DirectionSelector.direction := DirectionSelector.value option;
            DirectionSelector.localStorage :=
              <[DirectionSelector.STORAGE_KEY :=
                  DirectionSelector.value option]>
                (DirectionSelector.localStorage st) |}) /\
  (forall s,
     DirectionSelector.localStorage st !! DirectionSelector.STORAGE_KEY
       = Some s ->
     DirectionSelector.mount st
       = if decide (DirectionSelector.is_direction s)
         then {| DirectionSelector.direction := s;
                 DirectionSelector.localStorage :=
                   DirectionSelector.localStorage st |}
         else st) /\
  (DirectionSelector.localStorage st !! DirectionSelector.STORAGE_KEY = None ->
   DirectionSelector.mount st = st).
Proof.
  intros st. split; [|split; [|split]].
  - subst st. unfold DirectionSelector.run.
    assert (Hinit : DirectionSelector.storage_inv stored
                      (DirectionSelector.initial stored)).
    { split; [left; reflexivity|]. split; [by left|done]. }
    revert Hinit. generalize (DirectionSelector.initial stored).
    induction events as [|e events IH]; intros s0 H0; simpl; [exact H0|].
    apply IH. by apply step_keeps_invariant.
  - intros k option Hopt. split; [by eapply option_value_is_direction|].
    simpl. by rewrite Hopt.
  - intros s Hs. unfold DirectionSelector.mount, DirectionSelector.getItem.
    rewrite Hs. unfold DirectionSelector.is_direction.
    destruct (String.eqb_spec s "pg2ora") as [->|Hn1];
      [|destruct (String.eqb_spec s "ora2pg") as [->|Hn2]]; simpl.
    + done.
    + done.
    + rewrite andb_false_r. destruct (decide _) as [[?|?]|_]; done.
  - intros Hs. unfold DirectionSelector.mount, DirectionSelector.getItem.
    by rewrite Hs.
Qed.

(** ** ProgressBar: the decorations and the percentage *)

Lemma Qle_bool_false_lt (a b : Q) : Qle_bool a b = false -> (b < a)%Q.
Proof.
  intros H. apply Qnot_le_lt. intros Hle. apply Qle_bool_iff in Hle.
  congruence.
Qed.

Lemma Qlt_Qle_bool_false (a b : Q) : (b < a)%Q -> Qle_bool a b = false.
Proof.
  intros H. apply not_true_is_false. intros Hle%Qle_bool_iff.
  by apply Qlt_not_le in H.
Qed.

(** Clamping does not change which decorations are drawn: the glow is on
    exactly when the progress is above 0 and the stripes exactly when it is
    strictly between 0 and 100, as JavaScript compares them; for NaN neither
    is drawn. *)
Theorem decorations_follow_progress (progress : ProgressBar.number) :
  ProgressBar.glow (ProgressBar.render progress)
    = ProgressBar.js_gt progress (ProgressBar.Finite 0) /\
  ProgressBar.stripes (ProgressBar.render progress)
    = ProgressBar.js_gt progress (ProgressBar.Finite 0)
      && ProgressBar.js_lt progress (ProgressBar.Finite 100).
Proof.
  destruct progress as [| |q|]; try (split; reflexivity).
  cbn [ProgressBar.render ProgressBar.glow ProgressBar.stripes].
  rewrite clampedProgress_Finite.
  unfold ProgressBar.js_gt, ProgressBar.js_lt.
  destruct (Qle_bool q 0) eqn:E0.
  - split; reflexivity.
  - destruct (Qle_bool 100 q) eqn:E1.
    + split; reflexivity.
    + rewrite E0, E1. split; reflexivity.
Qed.

Lemma nearest_integer_bounds (q : Q) :
  (0 <= q)%Q -> (q <= 100)%Q ->
  (0 <= ProgressBar.nearest_integer q <= 100)%Z.
Proof.
  intros H0 H100. unfold ProgressBar.nearest_integer. split.
  - change 0%Z with (Qfloor 0). apply Qfloor_resp_le.
    apply Qle_trans with q; [done|].
    rewrite <- (Qplus_0_r q) at 1. apply Qplus_le_r. discriminate.
  - change 100%Z with (Qfloor (100 + (1 # 2))). apply Qfloor_resp_le.
    by apply Qplus_le_l.
Qed.

Lemma nearest_integer_near (q : Q) :
  (q - (1 # 2) < inject_Z (ProgressBar.nearest_integer q))%Q /\
  (inject_Z (ProgressBar.nearest_integer q) <= q + (1 # 2))%Q.
Proof.
  unfold ProgressBar.nearest_integer. split; [|apply Qfloor_le].
  pose proof (Qlt_floor (q + (1 # 2))) as H.
  rewrite inject_Z_plus in H.
  apply (Qplus_lt_l _ _ 1). 
  eapply Qle_lt_trans; [|exact H].
  unfold Qminus. rewrite <- Qplus_assoc. apply Qplus_le_r. discriminate.
Qed.

(** For every progress other than NaN the percentage shown beside the label
    is a whole number between 0 and 100 without a sign: the integer nearest
    to the fill width (half-way cases go up).  It is never shown in the
    exponent form, and never as [-0]. *)
Theorem percentage_whole_and_in_range (progress : ProgressBar.number) :
  progress <> ProgressBar.NaN ->
  exists (n : Z) (width : Q),
    ProgressBar.percentage progress = ProgressBar.FixedDigits false n /\
    ProgressBar.fill_width_percent (ProgressBar.render progress)
      = ProgressBar.Finite width /\
    (0 <= n <= 100)%Z /\
    (width - (1 # 2) < inject_Z n)%Q /\ (inject_Z n <= width + (1 # 2))%Q.
Proof.
  intros Hx. pose proof (clampedProgress_within_bar progress Hx) as Hin.
  unfold ProgressBar.percentage.
  cbn [ProgressBar.render ProgressBar.fill_width_percent].
  destruct (ProgressBar.clampedProgress progress) as [| |c|]; try done.
  destruct Hin as [H0 H100].
  exists (ProgressBar.nearest_integer c), c.
  unfold ProgressBar.toFixed0.
  assert (Qle_bool 0 c = true) as -> by by apply Qle_bool_iff.
  cbn [negb].
  assert (Qle_bool (inject_Z (10 ^ 21)) c = false) as ->.
  { apply Qlt_Qle_bool_false. eapply Qle_lt_trans; [exact H100|]. reflexivity. }
  split; [done|]. split; [done|].
  split; [by apply nearest_integer_bounds|apply nearest_integer_near].
Qed.

Lemma percentage_whole_and_in_range_witness :
  exists (n : Z) (width : Q),
    ProgressBar.percentage (ProgressBar.Finite (995 # 10))
      = ProgressBar.FixedDigits false n /\
    ProgressBar.fill_width_percent
      (ProgressBar.render (ProgressBar.Finite (995 # 10)))
      = ProgressBar.Finite width /\
    (0 <= n <= 100)%Z /\
    (width - (1 # 2) < inject_Z n)%Q /\ (inject_Z n <= width + (1 # 2))%Q.
Proof.
  apply (percentage_whole_and_in_range (ProgressBar.Finite (995 # 10))).
  discriminate.
Defined.

(** ** Dropzone: the remove buttons, and removing after dropping *)

Lemma imap_index_seq {A} (l : list A) :
  imap (fun index _ => index) l = seq 0 (length l).
Proof.
  assert (forall (f : nat -> nat) , imap (fun i _ => f i) l
                                   = f <$> seq 0 (length l)) as H.
  { induction l as [|x l IH]; intros f; simpl; [done|]. f_equal.
    rewrite <- fmap_S_seq, <- list_fmap_compose. apply (IH (f ∘ S)). }
  rewrite <- (list_fmap_id (seq 0 (length l))). apply (H id).
Qed.

(** The remove buttons drawn for a list of files carry exactly the indices
    of its entries, each once, for the single card as for the grid; and
    [removeFile] leaves the list as it is exactly when the index it is given
    is past the end, so every button drawn takes one file out. *)
Theorem remove_buttons_cover_files (files : list Dropzone.File) :
  Dropzone.removeButtons files = seq 0 (length files) /\
  (forall i, Dropzone.removeFile files i = files <-> length files <= i).
Proof.
  split.
  - unfold Dropzone.removeButtons. destruct files as [|f [|g files]]; try done.
    change (0 <? _) with true. change (_ =? 1) with false. cbv iota.
    apply imap_index_seq.
  - intros i. rewrite removeFile_delete. split.
    + intros Heq. apply (f_equal length) in Heq.
      rewrite length_app, length_take, length_drop in Heq. lia.
    + intros Hle. rewrite take_ge by done. rewrite drop_ge by lia.
      apply app_nil_r.
Qed.

(** Removing after dropping: taking out an old entry of the enlarged list is
    the same as taking it out first and dropping afterwards, and taking out
    one of the new files is the same as dropping the other new files only.
    In particular dropping one file and removing the last entry gives the
    list back. *)
Theorem removeFile_after_onDrop
    (files acceptedFiles : list Dropzone.File) (i : nat) :
  Dropzone.removeFile (Dropzone.onDrop files acceptedFiles) i
  = if i <? length files
    then Dropzone.onDrop (Dropzone.removeFile files i) acceptedFiles
    else Dropzone.onDrop files
           (Dropzone.removeFile acceptedFiles (i - length files)).
Proof.
  rewrite !removeFile_delete. unfold Dropzone.onDrop.
  destruct (Nat.ltb_spec i (length files)) as [Hlt|Hge].
  - rewrite take_app_le by lia.
    rewrite drop_app_le by lia. by rewrite <- app_assoc.
  - rewrite take_app_ge by lia.
    rewrite drop_app_ge by lia.
    replace (S i - length files) with (S (i - length files)) by lia.
    by rewrite <- app_assoc.
Qed.

(** ** DirectionSelector: reloading the page, and the selection banner *)

(** The direction a fresh page shows once it has mounted over a store. *)
Lemma reload_step (st : DirectionSelector.State) (e : DirectionSelector.Event) :
  DirectionSelector.direction
    (DirectionSelector.mount
       (DirectionSelector.initial (DirectionSelector.localStorage st)))
    = DirectionSelector.direction st ->
  DirectionSelector.direction
    (DirectionSelector.mount
       (DirectionSelector.initial
          (DirectionSelector.localStorage (DirectionSelector.step st e))))
    = DirectionSelector.direction (DirectionSelector.step st e).
Proof.
  intros Hst. destruct e as [|k disabled]; simpl.
  - destruct (mount_spec st) as (-> & _ & _).
    revert Hst. unfold DirectionSelector.mount, DirectionSelector.getItem.
    simpl.
    destruct (DirectionSelector.localStorage st !! DirectionSelector.STORAGE_KEY)
      as [s|]; [|done].
    by destruct (_ && _).
  - destruct disabled; [done|].
    destruct (DirectionSelector.DIRECTION_OPTIONS !! k) as [option|] eqn:Hopt;
      [|done].
    apply option_value_is_direction in Hopt.
    unfold DirectionSelector.mount, DirectionSelector.getItem. simpl.
    rewrite lookup_insert_eq.
    by destruct Hopt as [-> | ->].
Qed.

(** Reloading the page brings back the direction it showed: whatever the
    browser had stored and whatever mounts and clicks followed the first
    mount, a fresh page mounted over the store that is left shows the same
    direction. *)
Theorem reload_restores_direction
    (stored : gmap string string) (events : list DirectionSelector.Event) :
  let st :=
    DirectionSelector.run (DirectionSelector.Mount :: events)
      (DirectionSelector.initial stored) in
  DirectionSelector.direction
    (DirectionSelector.mount
       (DirectionSelector.initial (DirectionSelector.localStorage st)))
  = DirectionSelector.direction st.
Proof.
  unfold DirectionSelector.run. simpl.
  assert (DirectionSelector.direction
            (DirectionSelector.mount
               (DirectionSelector.initial
                  (DirectionSelector.localStorage
                     (DirectionSelector.mount
                        (DirectionSelector.initial stored)))))
          = DirectionSelector.direction
              (DirectionSelector.mount (DirectionSelector.initial stored)))
    as Hstart.
  { by destruct (mount_spec (DirectionSelector.initial stored)) as (-> & _). }
  revert Hstart.
  generalize (DirectionSelector.mount (DirectionSelector.initial stored)).
  induction events as [|e events IH]; intros st Hst; simpl; [done|].
  apply IH. by apply reload_step.
Qed.

(** The banner and the buttons agree exactly on the two directions: for
    one of them the banner names the option of that value and that option's
    button alone is drawn as chosen; for any other value the banner falls
    back to the first option although no button is drawn as chosen. *)
Theorem banner_and_buttons (value_ : string) :
  (DirectionSelector.is_direction value_ ->
   exists option,
     DirectionSelector.selectedOption value_ = Some option /\
     DirectionSelector.value option = value_ /\
     DirectionSelector.highlighted value_ = [option]) /\
  (~ DirectionSelector.is_direction value_ ->
   DirectionSelector.selectedOption value_
     = DirectionSelector.DIRECTION_OPTIONS !! 0 /\
   DirectionSelector.highlighted value_ = []).
Proof.
  unfold DirectionSelector.is_direction. split.
  - intros [-> | ->]; eexists; (split; [reflexivity|]); split; reflexivity.
  - intros Hno.
    assert (String.eqb "pg2ora" value_ = false) as H1
      by (apply String.eqb_neq; intros <-; tauto).
    assert (String.eqb "ora2pg" value_ = false) as H2
      by (apply String.eqb_neq; intros <-; tauto).
    unfold DirectionSelector.selectedOption, DirectionSelector.highlighted,
      DirectionSelector.DIRECTION_OPTIONS.
    cbn [List.find List.filter DirectionSelector.value].
    rewrite (String.eqb_sym value_ "pg2ora"), (String.eqb_sym value_ "ora2pg").
    by rewrite H1, H2.
Qed.

Lemma banner_and_buttons_witness :
  (exists option,
     DirectionSelector.selectedOption "ora2pg" = Some option /\
     DirectionSelector.value option = "ora2pg" /\
     DirectionSelector.highlighted "ora2pg" = [option]) /\
  DirectionSelector.selectedOption "oracle"
    = DirectionSelector.DIRECTION_OPTIONS !! 0 /\
  DirectionSelector.highlighted "oracle" = [].
Proof.
  split.
  - apply (banner_and_buttons "ora2pg"). right. reflexivity.
  - apply (banner_and_buttons "oracle").
    unfold DirectionSelector.is_direction. intros [H|H]; discriminate H.
Defined.

(** ** The page *)

Module AppFacts.
Import App.

(** *** The drop zones inside the page *)

Lemma getLabels_cases (st : State) :
  getLabels st
    = {| sourceShort := "PostgreSQL Files"; targetShort := "Oracle Files" |} \/
  getLabels st
    = {| sourceShort := "Oracle Files"; targetShort := "PostgreSQL Files" |}.
Proof. unfold getLabels. destruct (String.eqb _ _); auto. Qed.

Lemma needsBoth_in_app (st : State) :
  Dropzone.needsBothForComparison (sourceDropzone st) = true /\
  Dropzone.needsBothForComparison (targetDropzone st) = true.
Proof.
  unfold Dropzone.needsBothForComparison, sourceDropzone, targetDropzone.
  cbn [Dropzone.label Dropzone.otherLabel].
  destruct (getLabels_cases st) as [-> | ->]; split; reflexivity.
Qed.

(** The page and its two drop zones judge the files alike, whichever
    direction is chosen: each drop zone reports a count mismatch exactly
    when the page does, and reports readiness exactly when both sides have
    files and the counts are equal; the compare button is enabled exactly
    when the drop zones report readiness and no comparison is running. *)
Theorem dropzones_agree_with_page (st : State) :
  Dropzone.fileCountMismatch (sourceDropzone st) = fileCountMismatch st /\
  Dropzone.fileCountMismatch (targetDropzone st) = fileCountMismatch st /\
  Dropzone.isComparisonReady (sourceDropzone st)
    = Dropzone.isComparisonReady (targetDropzone st) /\
  Dropzone.isComparisonReady (sourceDropzone st)
    = hasSourceFiles st && hasTargetFiles st && negb (fileCountMismatch st) /\
  canCompare st
    = Dropzone.isComparisonReady (sourceDropzone st) && negb (isInProgress st).
Proof.
  destruct (needsBoth_in_app st) as [Hs Ht].
  unfold Dropzone.isComparisonReady, Dropzone.fileCountMismatch, canCompare,
    isInProgress.
  rewrite Hs, Ht.
  unfold fileCountMismatch, hasSourceFiles, hasTargetFiles, Dropzone.hasFiles,
    Dropzone.hasOtherFiles, sourceDropzone, targetDropzone.
  cbn [Dropzone.files Dropzone.otherFiles].
  rewrite (Nat.eqb_sym (length (targetFiles st))).
  destruct (0 <? length (sourceFiles st)), (0 <? length (targetFiles st)),
    (length (sourceFiles st) =? length (targetFiles st)); cbn; done.
Qed.

Lemma dropzone_needing_both (isDragActive : bool) (p : Dropzone.Props) :
  Dropzone.needsBothForComparison p = true ->
  Dropzone.mainText isDragActive p <> Dropzone.YouCanAddEvenMore /\
  Dropzone.mainText isDragActive p <> Dropzone.AddMoreOrManage /\
  (Dropzone.borderColor false p = "#555" <->
   Dropzone.files p = [] /\ Dropzone.otherFiles p = []).
Proof.
  intros Hneeds.
  unfold Dropzone.mainText, Dropzone.borderColor, Dropzone.needsOtherFiles,
    Dropzone.isComparisonReady, Dropzone.fileCountMismatch.
  rewrite Hneeds. unfold Dropzone.hasFiles, Dropzone.hasOtherFiles.
  destruct (Dropzone.files p) as [|f fs], (Dropzone.otherFiles p) as [|g gs];
    cbn [length Nat.ltb Nat.leb Nat.eqb andb negb];
    destruct isDragActive; cbn [andb negb];
    try destruct (length fs =? length gs);
    cbn; (split; [done|]); (split; [done|]); split;
    (intros [? ?] || intros ?); done.
Qed.

(** Inside the page a drop zone never draws the two texts kept for a
    selection that needs no other side, whatever the files and the
    direction; and, nothing being dragged, its border is grey exactly when
    both sides are empty. *)
Theorem dropzone_branches_in_page (st : State) (isDragActive : bool) :
  (Dropzone.mainText isDragActive (sourceDropzone st)
     <> Dropzone.YouCanAddEvenMore /\
   Dropzone.mainText isDragActive (sourceDropzone st)
     <> Dropzone.AddMoreOrManage /\
   Dropzone.mainText isDragActive (targetDropzone st)
     <> Dropzone.YouCanAddEvenMore /\
   Dropzone.mainText isDragActive (targetDropzone st)
     <> Dropzone.AddMoreOrManage) /\
  (Dropzone.borderColor false (sourceDropzone st) = "#555" <->
   sourceFiles st = [] /\ targetFiles st = []) /\
  (Dropzone.borderColor false (targetDropzone st) = "#555" <->
   sourceFiles st = [] /\ targetFiles st = []).
Proof.
  destruct (needsBoth_in_app st) as [Hs Ht].
  destruct (dropzone_needing_both isDragActive _ Hs) as (Hs1 & Hs2 & Hs3).
  destruct (dropzone_needing_both isDragActive _ Ht) as (Ht1 & Ht2 & Ht3).
  split; [done|]. split; [exact Hs3|].
  rewrite Ht3. cbn. tauto.
Qed.

(** *** The compare button and the status messages *)

Lemma status_cases (st : State) :
  (status st = "comparing" /\ String.eqb (status st) "comparing" = true /\
   String.eqb (status st) "complete" = false /\
   String.eqb (status st) "error" = false) \/
  (status st = "complete" /\ String.eqb (status st) "comparing" = false /\
   String.eqb (status st) "complete" = true /\
   String.eqb (status st) "error" = false) \/
  (status st = "error" /\ String.eqb (status st) "comparing" = false /\
   String.eqb (status st) "complete" = false /\
   String.eqb (status st) "error" = true) \/
  (status st <> "comparing" /\ status st <> "complete" /\
   status st <> "error" /\
   String.eqb (status st) "comparing" = false /\
   String.eqb (status st) "complete" = false /\
   String.eqb (status st) "error" = false).
Proof.
  destruct (String.eqb_spec (status st) "comparing") as [->|H1];
    [left; done|].
  destruct (String.eqb_spec (status st) "complete") as [->|H2];
    [right; left; done|].
  destruct (String.eqb_spec (status st) "error") as [->|H3];
    [right; right; left; done|].
  right; right; right. done.
Qed.

(** The compare button is enabled exactly when it reads Convert and
    Migrate, and the count it then names is the number of files on each of
    the two sides, which is not zero. *)
Theorem button_text_and_state (st : State) :
  (buttonDisabled st = false <->
   buttonText st = ConvertAndMigrate (length (sourceFiles st))) /\
  (forall n, buttonText st = ConvertAndMigrate n ->
     0 < n /\ length (sourceFiles st) = n /\ length (targetFiles st) = n).
Proof.
  unfold buttonDisabled, buttonText, canCompare, isInProgress,
    fileCountMismatch, hasSourceFiles, hasTargetFiles.
  destruct (String.eqb (status st) "comparing");
    destruct (Nat.ltb_spec 0 (length (sourceFiles st))) as [Hs|Hs];
    destruct (Nat.ltb_spec 0 (length (targetFiles st))) as [Ht|Ht];
    destruct (Nat.eqb_spec (length (sourceFiles st)) (length (targetFiles st)))
      as [He|He];
    cbn; (split; [split; intros; congruence|]); intros n Hn;
    try discriminate Hn.
  injection Hn as <-. lia.
Qed.

(** Unless the conversion is complete, at most one of the five guidance
    messages is drawn, followed by the error notice when the status is
    [error]; none is drawn exactly while a comparison runs over two sides of
    equal, non-zero size.  Once the conversion is complete the completion
    message is the only one. *)
Theorem status_messages_exclusive (st : State) :
  (status st = "complete" ->
   statusMessages st = [ConversionComplete (0 <? resetCountdown st)%Z]) /\
  (status st <> "complete" ->
   exists guidance,
     statusMessages st
       = guidance ++ (if String.eqb (status st) "error"
                      then [ErrorNotice] else []) /\
     length guidance <= 1 /\
     (guidance = [] <->
      status st = "comparing" /\
      0 < length (sourceFiles st) /\
      length (sourceFiles st) = length (targetFiles st))).
Proof.
  unfold statusMessages, canCompare, isInProgress, fileCountMismatch,
    hasSourceFiles, hasTargetFiles.
  destruct (status_cases st)
    as [(Hst & -> & -> & ->)|[(Hst & -> & -> & ->)|[(Hst & -> & -> & ->)|
        (Hn1 & Hn2 & Hn3 & -> & -> & ->)]]];
    (split; [intros Hc|intros Hc]); try congruence;
    try (by rewrite !andb_false_r);
    destruct (Nat.ltb_spec 0 (length (sourceFiles st))) as [Hs|Hs];
    destruct (Nat.ltb_spec 0 (length (targetFiles st))) as [Ht|Ht];
    destruct (Nat.eqb_spec (length (sourceFiles st)) (length (targetFiles st)))
      as [He|He];
    cbn;
    first
      [ exists []; split; [reflexivity|]; split; [simpl; lia|];
        split; [intros _; repeat split; (done || lia)|done]
      | eexists [_]; split; [reflexivity|]; split; [simpl; lia|];
        split; [done|intros (? & ? & ?); (congruence || lia)] ].
Qed.

Lemma status_messages_exclusive_witness :
  statusMessages
    (setStatus "complete" (setResetCountdown 2%Z initial))
  = [ConversionComplete true].
Proof.
  apply (status_messages_exclusive
           (setStatus "complete" (setResetCountdown 2%Z initial))).
  reflexivity.
Defined.

(** *** The name of the download *)

Lemma append_not_empty (a b : string) : a +:+ "_" +:+ b <> "".
Proof. destruct a; discriminate. Qed.

Lemma replace_all_leaves_no_dot (s : string) :
  Text.before_first "."
    (Text.replace_all (fun c => Ascii.eqb c ":" || Ascii.eqb c ".") "-" s)
  = Text.replace_all (fun c => Ascii.eqb c ":" || Ascii.eqb c ".") "-" s.
Proof.
  induction s as [|c s IH]; [done|].
  cbn [Text.replace_all Text.before_first].
  destruct (Ascii.eqb c ":") eqn:E1; cbn [orb].
  - change (Ascii.eqb "-" ".") with false. cbv iota. by rewrite IH.
  - destruct (Ascii.eqb c ".") eqn:E2.
    + change (Ascii.eqb "-" ".") with false. cbv iota. by rewrite IH.
    + rewrite E2. by rewrite IH.
Qed.

Lemma replace_all_get (p : ascii -> bool) (by_ : ascii) (s : string) (n : nat) :
  String.get n (Text.replace_all p by_ s)
  = (fun c => if p c then by_ else c) <$> String.get n s.
Proof.
  revert n. induction s as [|c s IH]; intros [|n]; simpl; done.
Qed.

Lemma downloadName_generated (comparisonName now filename : string) :
  downloadName comparisonName now filename
  = generateFilename comparisonName now.
Proof.
  unfold downloadName, Text.or_else.
  assert (Text.truthy (generateFilename comparisonName now) = true) as ->;
    [|done].
  unfold Text.truthy. apply negb_true_iff, String.eqb_neq.
  apply append_not_empty.
Qed.

(** The download is always named by the page, never by the server: the
    name is the trimmed comparison name (or SQL_Comparison when that is
    empty), an underscore, the time stamp and the extension.  The time stamp
    is the whole ISO time with every colon and every dot turned into a dash:
    the cut at the first dot comes after the dots are gone and removes
    nothing, so the milliseconds and the final Z stay in the name.  The
    preview under the name field is computed in the same way. *)
Theorem download_name_shape (comparisonName now filename : string) :
  let timestamp :=
    Text.replace_all (fun c => Ascii.eqb c ":" || Ascii.eqb c ".") "-" now in
  downloadName comparisonName now filename
    = Text.or_else (Text.trim comparisonName) "SQL_Comparison"
      +:+ "_" +:+ timestamp +:+ ".zip" /\
  String.length timestamp = String.length now /\
  (forall n c, String.get n timestamp = Some c ->
     c <> ":"%char /\ c <> "."%char /\
     (String.get n now = Some c \/
      c = "-"%char /\
      (String.get n now = Some ":"%char \/ String.get n now = Some "."%char))) /\
  ComparisonNameInput.generatePreviewFilename comparisonName now
    = generateFilename comparisonName now.
Proof.
  intros timestamp. split; [|split; [|split]].
  - rewrite downloadName_generated.
    unfold generateFilename. by rewrite replace_all_leaves_no_dot.
  - subst timestamp. induction now as [|c s IH]; simpl; [done|]. by rewrite IH.
  - intros n c. subst timestamp. rewrite replace_all_get.
    destruct (String.get n now) as [d|]; [|done]. simpl. intros [= <-].
    destruct (Ascii.eqb_spec d ":") as [->|H1]; simpl.
    { split; [done|]. split; [done|]. right. auto. }
    destruct (Ascii.eqb_spec d ".") as [->|H2]; simpl.
    { split; [done|]. split; [done|]. right. auto. }
    auto.
  - reflexivity.
Qed.

Example download_name_example :
  downloadName "  nightly run " "2024-01-15T10:30:45.123Z" "server.zip"
  = "nightly run_2024-01-15T10-30-45-123Z.zip" /\
  downloadName "   " "2024-01-15T10:30:45.123Z" "server.zip"
  = "SQL_Comparison_2024-01-15T10-30-45-123Z.zip".
Proof. split; reflexivity. Qed.

(** *** The life of a comparison *)

Lemma statusEffect_same (before : State) (pg : Page) :
  status before = status (app pg) -> statusEffect before pg = pg.
Proof. intros H. unfold statusEffect. by rewrite H, String.eqb_refl. Qed.

Lemma statusEffect_frame (before : State) (pg : Page) :
  awaiting (statusEffect before pg) = awaiting pg /\
  downloads (statusEffect before pg) = downloads pg /\
  localStorage (statusEffect before pg) = localStorage pg /\
  sourceFiles (app (statusEffect before pg)) = sourceFiles (app pg) /\
  targetFiles (app (statusEffect before pg)) = targetFiles (app pg) /\
  direction (app (statusEffect before pg)) = direction (app pg) /\
  status (app (statusEffect before pg)) = status (app pg).
Proof.
  unfold statusEffect.
  destruct (String.eqb _ _); [done|]. by destruct (String.eqb _ _).
Qed.

Lemma page_inv_frame (pg pg' : Page) :
  status (app pg') = status (app pg) ->
  resetCountdown (app pg') = resetCountdown (app pg) ->
  countdownInterval pg' = countdownInterval pg ->
  awaiting pg' = awaiting pg ->
  page_inv pg -> page_inv pg'.
Proof. unfold page_inv. by intros -> -> -> ->. Qed.

Lemma handle_quiet (pg : Page) (e : Event) :
  is_quiet e = true ->
  status (app (handle pg e)) = status (app pg) /\
  resetCountdown (app (handle pg e)) = resetCountdown (app pg) /\
  countdownInterval (handle pg e) = countdownInterval pg /\
  awaiting (handle pg e) = awaiting pg /\
  downloads (handle pg e) = downloads pg.
Proof.
  destruct e; try discriminate; intros _; cbn [handle];
    repeat case_match; done.
Qed.

Lemma step_quiet (pg : Page) (e : Event) :
  is_quiet e = true -> step pg e = handle pg e.
Proof.
  intros He. unfold step. apply statusEffect_same.
  by destruct (handle_quiet pg e He) as (-> & _).
Qed.

Lemma step_page_inv (pg : Page) (e : Event) :
  page_inv pg -> page_inv (step pg e).
Proof.
  intros Hinv. destruct (is_quiet e) eqn:Hq.
  { rewrite step_quiet by done.
    destruct (handle_quiet pg e Hq) as (H1 & H2 & H3 & H4 & _).
    by apply (page_inv_frame pg). }
  destruct Hinv as (HS & HA & HI & HC1 & HC2).
  destruct pg as [st ls ci aw dl]. destruct st as [sf tf d pr s cn cs rc t].
  unfold page_inv, step in *. cbn in HS, HA, HI, HC1, HC2.
  destruct e; try discriminate Hq; cbn [handle].
  - (* ClickCompare *)
    unfold handleCompare_start. cbn [app].
    destruct (canCompare _) eqn:Hcan; cbn [negb].
    + assert (s <> "comparing") as Hs.
      { intros ->. unfold canCompare in Hcan. cbn in Hcan.
        by rewrite andb_false_r in Hcan. }
      unfold statusEffect. cbn.
      apply String.eqb_neq in Hs. rewrite Hs. cbn.
      repeat split; try done; try (intros; lia); auto.
    + rewrite statusEffect_same by done. cbn. done.
  - (* Resolve *)
    cbn [awaiting]. destruct aw as [captured|].
    + assert (s = "comparing") as -> by (apply HA; eauto).
      unfold statusEffect. cbn. repeat split; try done; auto; try lia.
    + rewrite statusEffect_same by done. cbn. done.
  - (* Reject *)
    cbn [awaiting]. destruct aw as [captured|].
    + assert (s = "comparing") as -> by (apply HA; eauto).
      unfold statusEffect. cbn. repeat split; try done; auto; try lia.
    + rewrite statusEffect_same by done. cbn. done.
  - (* Tick *)
    cbn [countdownInterval]. destruct ci.
    + assert (s = "complete") as -> by by apply HI.
      specialize (HC1 eq_refl). unfold tick. cbn [app resetCountdown].
      destruct (Z.leb_spec rc 1) as [Hle|Hgt];
        unfold statusEffect; cbn; repeat split; try done; auto; try lia;
        try (intros Hx; apply HA in Hx; discriminate Hx).
    + rewrite statusEffect_same by done. cbn. done.
  - (* ClickReset *)
    destruct (resetOffered _) eqn:Hoff.
    + assert (s <> "comparing") as Hs.
      { intros ->. unfold resetOffered, isInProgress in Hoff. cbn in Hoff.
        by rewrite andb_false_r in Hoff. }
      assert (aw = None) as ->.
      { destruct aw; [|done]. exfalso. apply Hs, HA. eauto. }
      unfold statusEffect. cbn.
      destruct (String.eqb_spec s "") as [->|Hne];
        cbn; repeat split; try done; auto; try lia;
        try (intros [? Hx]; discriminate Hx);
        try (intros Hx; apply HI in Hx; discriminate Hx).
    + rewrite statusEffect_same by done. cbn. done.
Qed.

Lemma mounted_page_inv (stored : gmap string string) : page_inv (mounted stored).
Proof.
  unfold page_inv, mounted. cbn. repeat split; try done; auto.
Qed.

Lemma run_page_inv (events : list Event) (pg : Page) :
  page_inv pg -> page_inv (run events pg).
Proof.
  revert pg. induction events as [|e events IH]; intros pg Hpg; [done|].
  apply IH. by apply step_page_inv.
Qed.

Lemma run_app (l1 l2 : list Event) (pg : Page) :
  run (l1 ++ l2) pg = run l2 (run l1 pg).
Proof. apply fold_left_app. Qed.

(** Whatever the browser had stored and whatever happens to the page in
    whatever order, the status is one of its four values, a call of
    [handleCompare] waits for the server exactly while the status is
    [comparing] (so never two at once), the countdown interval runs exactly
    while the status is [complete], the countdown then shows 1, 2 or 3, and
    it is 0 to 3 at all times. *)
Theorem reachable_page_invariant
    (stored : gmap string string) (events : list Event) :
  let pg := run events (mounted stored) in
  (status (app pg) = "" \/ status (app pg) = "comparing" \/
   status (app pg) = "complete" \/ status (app pg) = "error") /\
  (is_Some (awaiting pg) <-> status (app pg) = "comparing") /\
  (countdownInterval pg = true <-> status (app pg) = "complete") /\
  (status (app pg) = "complete" -> (1 <= resetCountdown (app pg))%Z) /\
  (0 <= resetCountdown (app pg) <= 3)%Z.
Proof.
  intros pg.
  destruct (run_page_inv events _ (mounted_page_inv stored))
    as (HS & HA & HI & HC1 & HC2).
  fold pg in HS, HA, HI, HC1, HC2.
  split; [done|]. split; [done|]. split; [done|]. split; [|done].
  intros Hc. by apply HC1, HI.
Qed.

(** While a comparison runs the page cannot be made to start another one,
    change the direction or reset: a click on the compare button, on an
    option of the direction selector or on a reset button, and a firing of
    the timer, all leave the page exactly as it is. *)
Theorem locked_while_comparing
    (stored : gmap string string) (events : list Event) :
  let pg := run events (mounted stored) in
  status (app pg) = "comparing" ->
  step pg ClickCompare = pg /\
  (forall k, step pg (SelectDirection k) = pg) /\
  step pg ClickReset = pg /\
  step pg Tick = pg.
Proof.
  intros pg Hst.
  destruct (run_page_inv events _ (mounted_page_inv stored))
    as (HS & HA & HI & HC1 & HC2).
  fold pg in HS, HA, HI, HC1, HC2.
  assert (countdownInterval pg = false) as Hci.
  { destruct (countdownInterval pg); [|done].
    rewrite (proj1 HI eq_refl) in Hst. discriminate Hst. }
  clearbody pg. destruct pg as [st ls ci aw dl].
  destruct st as [sf tf d pr s cn cs rc t]. cbn in Hst, Hci. subst s ci.
  unfold step. cbn [handle].
  split; [|split; [|split]].
  - unfold handleCompare_start, canCompare. cbn [app status].
    change (String.eqb "comparing" "comparing") with true.
    rewrite andb_false_r. cbn [negb]. by apply statusEffect_same.
  - intros k. unfold selectDirection, isInProgress. cbn [app status].
    change (String.eqb "comparing" "comparing") with true.
    cbn [DirectionSelector.step]. by apply statusEffect_same.
  - unfold resetOffered, isInProgress. cbn [app status].
    change (String.eqb "comparing" "comparing") with true.
    change (String.eqb "comparing" "complete") with false.
    rewrite andb_false_r. cbn [orb andb]. by apply statusEffect_same.
  - cbn [countdownInterval]. by apply statusEffect_same.
Qed.

Lemma locked_while_comparing_witness :
  let f := {| Dropzone.name := "a.sql"; Dropzone.size := 10 |} in
  let pg := run [DropSource [f]; DropTarget [f]; ClickCompare] (mounted ∅) in
  step pg ClickCompare = pg /\
  (forall k, step pg (SelectDirection k) = pg) /\
  step pg ClickReset = pg /\
  step pg Tick = pg.
Proof.
  intros f.
  apply (locked_while_comparing ∅ [DropSource [f]; DropTarget [f]; ClickCompare]).
  reflexivity.
Defined.

Lemma step_Resolve (pg : Page) (captured filename now : string) :
  awaiting pg = Some captured -> status (app pg) = "comparing" ->
  step pg (Resolve filename now)
  = {| app := setResetCountdown 3%Z
                (app (handleCompare_resolved captured filename now pg));
       localStorage := localStorage pg; countdownInterval := true;
       awaiting := None;
       downloads := downloadName captured now filename :: downloads pg |}.
Proof.
  intros Haw Hst. unfold step. cbn [handle]. rewrite Haw.
  unfold statusEffect. rewrite Hst.
  change (status (app (handleCompare_resolved captured filename now pg)))
    with "complete".
  change (String.eqb "comparing" "complete") with false.
  change (String.eqb "complete" "complete") with true.
  reflexivity.
Qed.

Lemma step_Tick_count (pg : Page) :
  countdownInterval pg = true -> (1 < resetCountdown (app pg))%Z ->
  step pg Tick
  = withApp (setResetCountdown (resetCountdown (app pg) - 1)%Z (app pg)) pg.
Proof.
  intros Hci Hrc. unfold step. cbn [handle]. rewrite Hci. unfold tick.
  destruct (Z.leb_spec (resetCountdown (app pg)) 1) as [Hle|_]; [lia|].
  by apply statusEffect_same.
Qed.

Lemma step_Tick_reset (pg : Page) :
  countdownInterval pg = true -> status (app pg) = "complete" ->
  (resetCountdown (app pg) <= 1)%Z ->
  step pg Tick
  = {| app := setDirection (direction (app pg)) initial;
       localStorage := localStorage pg; countdownInterval := false;
       awaiting := awaiting pg; downloads := downloads pg |}.
Proof.
  intros Hci Hst Hrc. unfold step. cbn [handle]. rewrite Hci. unfold tick.
  destruct (Z.leb_spec (resetCountdown (app pg)) 1) as [_|Hgt]; [|lia].
  unfold statusEffect. rewrite Hst. reflexivity.
Qed.

Lemma step_Tick_idle (pg : Page) :
  countdownInterval pg = false -> step pg Tick = pg.
Proof.
  intros Hci. unfold step. cbn [handle]. rewrite Hci.
  by apply statusEffect_same.
Qed.

(** When the server answers a waiting comparison the countdown starts at 3;
    the first two firings of the timer count down and leave files, name and
    status alone, and the third resets the page to its initial state, only
    the direction being kept, and stops the timer. *)
Theorem countdown_resets_page
    (stored : gmap string string) (events : list Event)
    (filename now : string) :
  let pg := run events (mounted stored) in
  is_Some (awaiting pg) ->
  let finished := step pg (Resolve filename now) in
  (status (app finished) = "complete" /\
   resetCountdown (app finished) = 3%Z /\
   sourceFiles (app finished) = sourceFiles (app pg) /\
   targetFiles (app finished) = targetFiles (app pg)) /\
  (run [Tick] finished = withApp (setResetCountdown 2%Z (app finished)) finished /\
   run [Tick; Tick] finished
     = withApp (setResetCountdown 1%Z (app finished)) finished) /\
  (app (run [Tick; Tick; Tick] finished)
     = setDirection (direction (app pg)) initial /\
   countdownInterval (run [Tick; Tick; Tick] finished) = false /\
   step (run [Tick; Tick; Tick] finished) Tick
     = run [Tick; Tick; Tick] finished).
Proof.
  intros pg Hwait.
  destruct (run_page_inv events _ (mounted_page_inv stored))
    as (HS & HA & HI & HC1 & HC2).
  fold pg in HS, HA, HI, HC1, HC2.
  apply HA in Hwait as Hst. destruct Hwait as [captured Hcap].
  clearbody pg. intros finished. subst finished.
  rewrite (step_Resolve pg captured filename now Hcap Hst).
  set (finished := Build_Page _ _ _ _ _).
  assert (step finished Tick
          = withApp (setResetCountdown 2%Z (app finished)) finished) as H1.
  { by rewrite step_Tick_count. }
  assert (step (withApp (setResetCountdown 2%Z (app finished)) finished) Tick
          = withApp (setResetCountdown 1%Z (app finished)) finished) as H2.
  { by rewrite step_Tick_count. }
  assert (step (withApp (setResetCountdown 1%Z (app finished)) finished) Tick
          = {| app := setDirection (direction (app pg)) initial;
               localStorage := localStorage pg; countdownInterval := false;
               awaiting := None; downloads := downloads finished |}) as H3.
  { by rewrite step_Tick_reset. }
  unfold run. cbn [fold_left]. rewrite H1, H2, H3.
  split; [done|]. split; [done|]. split; [done|]. split; [done|].
  by apply step_Tick_idle.
Qed.

Lemma countdown_resets_page_witness :
  let f := {| Dropzone.name := "a.sql"; Dropzone.size := 10 |} in
  let pg := run [DropSource [f]; DropTarget [f]; ClickCompare] (mounted ∅) in
  let finished :=
    step pg (Resolve "server.zip" "2024-01-15T10:30:45.123Z") in
  app (run [Tick; Tick; Tick] finished)
    = setDirection (direction (app pg)) initial /\
  countdownInterval (run [Tick; Tick; Tick] finished) = false /\
  step (run [Tick; Tick; Tick] finished) Tick
    = run [Tick; Tick; Tick] finished.
Proof.
  intros f.
  refine (proj2 (proj2
            (countdown_resets_page ∅
               [DropSource [f]; DropTarget [f]; ClickCompare]
               "server.zip" "2024-01-15T10:30:45.123Z" _))).
  exists "". vm_compute. reflexivity.
Defined.

Lemma step_keeps_waiting (pg : Page) (e : Event) (captured : string) :
  page_inv pg -> awaiting pg = Some captured -> is_answer e = false ->
  awaiting (step pg e) = Some captured /\
  downloads (step pg e) = downloads pg.
Proof.
  intros (HS & HA & HI & HC1 & HC2) Haw He. unfold step.
  destruct (statusEffect_frame (app pg) (handle pg e)) as (-> & -> & _).
  assert (status (app pg) = "comparing") as Hst by (apply HA; eauto).
  destruct (is_quiet e) eqn:Hq.
  { destruct (handle_quiet pg e Hq) as (_ & _ & _ & -> & ->). done. }
  assert (countdownInterval pg = false) as Hci.
  { destruct (countdownInterval pg); [|done].
    rewrite (proj1 HI eq_refl) in Hst. discriminate Hst. }
  destruct e; try discriminate; cbn [handle].
  - unfold handleCompare_start, canCompare. rewrite Hst. cbn.
    rewrite andb_false_r. done.
  - by rewrite Hci.
  - unfold resetOffered, isInProgress. rewrite Hst. cbn.
    rewrite andb_false_r. done.
Qed.

Lemma run_keeps_waiting (events : list Event) (pg : Page) (captured : string) :
  page_inv pg -> awaiting pg = Some captured ->
  forallb (fun e => negb (is_answer e)) events = true ->
  page_inv (run events pg) /\
  awaiting (run events pg) = Some captured /\
  downloads (run events pg) = downloads pg.
Proof.
  revert pg. induction events as [|e events IH]; intros pg Hinv Haw Hall;
    [done|].
  cbn in Hall. apply andb_true_iff in Hall as [He Hall].
  apply negb_true_iff in He.
  destruct (step_keeps_waiting pg e captured Hinv Haw He) as [Haw' Hdl'].
  destruct (IH (step pg e)) as (H1 & H2 & H3); try done.
  { by apply step_page_inv. }
  cbn. rewrite <- Hdl'. done.
Qed.

(** One accepted click gives one download, named at the click: if the
    compare button is enabled when it is clicked, then whatever happens
    until the server answers (typing another name, dropping or removing
    files, progress reports, further clicks, timer firings), the answer
    starts exactly one download, and its name is built from the comparison
    name as it was at the click and the time of the answer. *)
Theorem one_download_named_at_click
    (stored : gmap string string) (before during : list Event)
    (filename now : string) :
  let pg := run before (mounted stored) in
  canCompare (app pg) = true ->
  forallb (fun e => negb (is_answer e)) during = true ->
  let finished :=
    run (ClickCompare :: during ++ [Resolve filename now]) pg in
  downloads finished
    = generateFilename (comparisonName (app pg)) now :: downloads pg /\
  status (app finished) = "complete".
Proof.
  intros pg Hcan Hduring finished. subst finished.
  pose proof (run_page_inv before _ (mounted_page_inv stored)) as Hinv.
  fold pg in Hinv. clearbody pg.
  change (run (ClickCompare :: during ++ [Resolve filename now]) pg)
    with (run (during ++ [Resolve filename now]) (step pg ClickCompare)).
  rewrite run_app.
  assert (awaiting (step pg ClickCompare) = Some (comparisonName (app pg)) /\
          downloads (step pg ClickCompare) = downloads pg) as [Haw Hdl].
  { unfold step.
    destruct (statusEffect_frame (app pg) (handle pg ClickCompare))
      as (-> & -> & _).
    cbn [handle]. unfold handleCompare_start. by rewrite Hcan. }
  destruct (run_keeps_waiting during (step pg ClickCompare) _
              (step_page_inv _ _ Hinv) Haw Hduring) as (Hinv' & Haw' & Hdl').
  rewrite <- Hdl, <- Hdl'.
  generalize dependent (run during (step pg ClickCompare)). intros pg' _ Haw' _.
  cbn [run fold_left]. unfold step.
  destruct (statusEffect_frame (app pg') (handle pg' (Resolve filename now)))
    as (_ & -> & _ & _ & _ & _ & ->).
  cbn [handle]. rewrite Haw'. cbn.
  split; [|done]. f_equal.
  apply downloadName_generated.
Qed.

Lemma one_download_named_at_click_witness :
  let f := {| Dropzone.name := "a.sql"; Dropzone.size := 10 |} in
  let pg :=
    run [TypeName "first"; DropSource [f]; DropTarget [f]] (mounted ∅) in
  let finished :=
    run (ClickCompare :: [TypeName "later"; ClickCompare]
         ++ [Resolve "server.zip" "2024-01-15T10:30:45.123Z"]) pg in
  downloads finished
    = generateFilename (comparisonName (app pg)) "2024-01-15T10:30:45.123Z"
      :: downloads pg /\
  status (app finished) = "complete".
Proof.
  intros f.
  pose proof (one_download_named_at_click ∅
                [TypeName "first"; DropSource [f]; DropTarget [f]]
                [TypeName "later"; ClickCompare]
                "server.zip" "2024-01-15T10:30:45.123Z") as H.
  cbv zeta in H |- *. apply H; vm_compute; reflexivity.
Defined.

End AppFacts.

(** ** Statement recognition *)

Module IngestFacts.
Import Ingest.

(** *** The matcher decides the language of the pattern *)

Lemma append_empty_l (s : string) : "" +:+ s = s.
Proof. reflexivity. Qed.

Lemma append_String c (s1 s2 : string) :
  String c s1 +:+ s2 = String c (s1 +:+ s2).
Proof. reflexivity. Qed.

Lemma append_empty_r (s : string) : s +:+ "" = s.
Proof.
  induction s as [|c s IH]; [done|]. by rewrite append_String, IH.
Qed.

Lemma nullable_spec r : nullable r = true <-> matches r "".
Proof.
  split.
  - induction r; simpl; intros H; try done.
    + constructor.
    + apply andb_true_iff in H as [H1 H2].
      apply (MSeq _ _ "" ""); auto.
    + apply orb_true_iff in H as [H|H]; [apply MAltL|apply MAltR]; auto.
    + constructor.
  - remember "" as s eqn:Hs. induction 1; simpl; try done.
    + destruct s1; [|done]. rewrite append_empty_l in Hs. subst.
      rewrite IHmatches1, IHmatches2; done.
    + by rewrite IHmatches.
    + rewrite IHmatches by done. apply orb_true_r.
Qed.

Lemma seq_spec r1 r2 s : matches (seq r1 r2) s <-> matches (Seq r1 r2) s.
Proof.
  assert (Hl : forall r, matches (Seq Eps r) s <-> matches r s).
  { intros r. split.
    - inversion 1 as [| |? ? s1 s2 H1 H2| | | |]; subst.
      by inversion H1; subst.
    - intros H. by apply (MSeq _ _ "" s); [constructor|]. }
  assert (Hr : forall r, matches (Seq r Eps) s <-> matches r s).
  { intros r. split.
    - inversion 1 as [| |? ? s1 s2 H1 H2| | | |]; subst.
      inversion H2; subst. by rewrite append_empty_r.
    - intros H. rewrite <- (append_empty_r s).
      by apply MSeq; [|constructor]. }
  assert (Hn1 : forall r, ~ matches (Seq Never r) s).
  { intros r. inversion 1 as [| |? ? s1 s2 H1 H2| | | |]; subst.
    inversion H1. }
  assert (Hn2 : forall r, ~ matches (Seq r Never) s).
  { intros r. inversion 1 as [| |? ? s1 s2 H1 H2| | | |]; subst.
    inversion H2. }
  assert (Hn : ~ matches Never s) by inversion 1.
  destruct r1, r2; simpl; rewrite ?Hl, ?Hr; try tauto;
    split; intros H; exfalso; (by apply Hn in H) || (by apply Hn1 in H)
      || (by apply Hn2 in H).
Qed.

Lemma alt_spec r1 r2 s : matches (alt r1 r2) s <-> matches (Alt r1 r2) s.
Proof.
  assert (Hn : ~ matches Never s) by inversion 1.
  assert (Ha : forall ra rb, matches (Alt ra rb) s <->
                             matches ra s \/ matches rb s).
  { intros ra rb. split.
    - inversion 1; subst; auto.
    - intros [?|?]; [by apply MAltL|by apply MAltR]. }
  destruct r1, r2; simpl; rewrite ?Ha; tauto.
Qed.

Lemma star_cons r c s :
  matches (Star r) (String c s) ->
  exists s1 s2, s = s1 +:+ s2 /\ matches r (String c s1) /\
                matches (Star r) s2.
Proof.
  remember (Star r) as r0 eqn:Hr. remember (String c s) as s0 eqn:Hs.
  intros H. revert Hr Hs.
  induction H as [| | | | | |r' s1 s2 H1 _ H2 IH2]; intros Hr Hs; try done.
  injection Hr as ->. destruct s1 as [|c1 s1].
  - rewrite append_empty_l in Hs. by apply IH2.
  - rewrite append_String in Hs. injection Hs as -> <-. by exists s1, s2.
Qed.

Lemma derive_spec r : forall c s,
  matches (derive c r) s <-> matches r (String c s).
Proof.
  induction r as [| |p|r1 IH1 r2 IH2|r1 IH1 r2 IH2|r IH]; intros c s; simpl.
  - split; inversion 1.
  - split; inversion 1.
  - destruct (p c) eqn:Hp.
    + split.
      * inversion 1; subst. by constructor.
      * inversion 1; subst. constructor.
    + split; [inversion 1|]. inversion 1; subst. congruence.
  - assert (Hfirst : matches (seq (derive c r1) r2) s <->
              exists s1 s2, s = s1 +:+ s2 /\ matches r1 (String c s1) /\
                            matches r2 s2).
    { rewrite seq_spec. split.
      - inversion 1 as [| |? ? s1 s2 H1 H2| | | |]; subst.
        exists s1, s2. by rewrite <- IH1.
      - intros (s1 & s2 & -> & H1 & H2). apply MSeq; [by apply IH1|done]. }
    assert (Hsplit : matches (Seq r1 r2) (String c s) <->
              (exists s1 s2, s = s1 +:+ s2 /\ matches r1 (String c s1) /\
                             matches r2 s2) \/
              (matches r1 "" /\ matches r2 (String c s))).
    { split.
      - remember (String c s) as s0 eqn:Hs0.
        inversion 1 as [| |? ? s1 s2 H1 H2| | | |]; subst.
        match goal with Heq : _ = String c s |- _ => rename Heq into Heq' end.
        destruct s1 as [|c1 s1].
        + rewrite append_empty_l in Heq'. right. by subst.
        + rewrite append_String in Heq'. injection Heq' as -> <-.
          left. by exists s1, s2.
      - intros [(s1 & s2 & -> & H1 & H2)|[H1 H2]].
        + by apply (MSeq _ _ (String c s1) s2).
        + by apply (MSeq _ _ "" (String c s)). }
    rewrite Hsplit. destruct (nullable r1) eqn:Hnull.
    + rewrite alt_spec. apply nullable_spec in Hnull. split.
      * inversion 1; subst; [left; by apply Hfirst|right].
        split; [done|]. by apply IH2.
      * intros [H|[_ H]]; [apply MAltL; by apply Hfirst|].
        apply MAltR. by apply IH2.
    + rewrite Hfirst. split; [auto|]. intros [H|[H _]]; [done|].
      apply nullable_spec in H. congruence.
  - rewrite alt_spec. split.
    + inversion 1; subst; [apply MAltL; by apply IH1|apply MAltR; by apply IH2].
    + inversion 1; subst; [apply MAltL; by apply IH1|apply MAltR; by apply IH2].
  - rewrite seq_spec. split.
    + inversion 1 as [| |? ? s1 s2 H1 H2| | | |]; subst.
      apply (MStarS _ (String c s1) s2); [by apply IH|done].
    + intros (s1 & s2 & -> & H1 & H2)%star_cons.
      apply MSeq; [by apply IH|done].
Qed.

Lemma fullmatch_spec s : forall r, fullmatch r s = true <-> matches r s.
Proof.
  induction s as [|c s IH]; intros r; simpl.
  - apply nullable_spec.
  - rewrite IH. apply derive_spec.
Qed.

Lemma matches_star_any s : matches (Star any) s.
Proof.
  induction s as [|c s IH]; [constructor|].
  apply (MStarS _ (String c "") s); [by constructor|done].
Qed.

(** [search] finds a match exactly when some part of the text is in the
    language of the pattern. *)
Lemma search_spec r s :
  search r s = true <->
  exists before part after,
    s = before +:+ part +:+ after /\ matches r part.
Proof.
  unfold search. rewrite fullmatch_spec. split.
  - inversion 1 as [| |? ? s1 s23 H1 H23| | | |]; subst.
    inversion H23 as [| |? ? s2 s3 H2 H3| | | |]; subst.
    by exists s1, s2, s3.
  - intros (s1 & s2 & s3 & -> & H2).
    apply MSeq; [apply matches_star_any|].
    apply MSeq; [done|apply matches_star_any].
Qed.

(** *** Statements the pattern finds and statements it does not *)

Example one_line_statement_found (f : Flags) :
  search (INSERT_REGEX f) same_insert_on_one_line = true.
Proof. destruct f as [[] [] []]; vm_compute; reflexivity. Qed.

Example break_before_VALUES_found (f : Flags) :
  search (INSERT_REGEX f)
    (lines ["INSERT INTO users (id, name)"; "VALUES (1, 'Ann');"]) = true.
Proof. destruct f as [[] [] []]; vm_compute; reflexivity. Qed.

(** Whether a statement written over several lines, or one with lower-case
    keywords, has a part the pattern matches depends on the flags alone. *)
Example multi_line_statement_found_with_DOTALL (f : Flags) :
  search (INSERT_REGEX f) multi_line_insert = DOTALL f.
Proof. destruct f as [[] [] []]; vm_compute; reflexivity. Qed.

Example lower_case_keywords_found_with_IGNORECASE (f : Flags) :
  search (INSERT_REGEX f) lower_case_insert = IGNORECASE f.
Proof. destruct f as [[] [] []]; vm_compute; reflexivity. Qed.

(** *** The shape of every statement the pattern matches *)

Lemma append_assoc (s1 s2 s3 : string) :
  (s1 +:+ s2) +:+ s3 = s1 +:+ (s2 +:+ s3).
Proof.
  induction s1 as [|c s1 IH]; [done|].
  by rewrite !append_String, IH.
Qed.

Lemma matches_Seq r1 r2 s :
  matches (Seq r1 r2) s <->
  exists s1 s2, s = s1 +:+ s2 /\ matches r1 s1 /\ matches r2 s2.
Proof.
  split.
  - inversion 1 as [| |? ? s1 s2 H1 H2| | | |]; subst. by exists s1, s2.
  - intros (s1 & s2 & -> & H1 & H2). by constructor.
Qed.

Lemma matches_lit c s : matches (lit c) s <-> s = String c "".
Proof.
  unfold lit. split.
  - inversion 1 as [|p c' Hc| | | | |]; subst.
    by apply Ascii.eqb_eq in Hc as ->.
  - intros ->. constructor. apply Ascii.eqb_refl.
Qed.

Lemma matches_letter f c s :
  matches (letter f c) s ->
  exists x, s = String x "" /\ lower_ascii x = lower_ascii c /\
            (IGNORECASE f = false -> x = c).
Proof.
  unfold letter. destruct (IGNORECASE f).
  - inversion 1 as [|p x Hx| | | | |]; subst.
    apply Ascii.eqb_eq in Hx. by exists x.
  - intros ->%matches_lit. by exists c.
Qed.

Lemma matches_word f w : forall s,
  matches (word f w) s ->
  lower s = lower w /\ (IGNORECASE f = false -> s = w).
Proof.
  induction w as [|c w IH]; intros s; simpl.
  - by inversion 1.
  - intros (s1 & s2 & -> & H1 & H2)%matches_Seq.
    apply matches_letter in H1 as (x & -> & Hx & Hcase).
    apply IH in H2 as [Hlow Hsame]. rewrite append_String, append_empty_l.
    simpl. split; [by rewrite Hx, Hlow|].
    intros Hf. by rewrite Hcase, Hsame.
Qed.

Lemma has_line_break_append s1 s2 :
  has_line_break (s1 +:+ s2) = has_line_break s1 || has_line_break s2.
Proof.
  induction s1 as [|c s1 IH]; [done|].
  rewrite append_String. simpl. rewrite IH. by rewrite orb_assoc.
Qed.

Lemma matches_dot f s :
  matches (dot f) s ->
  s <> "" /\ (DOTALL f = false -> has_line_break s = false).
Proof.
  unfold dot. inversion 1 as [|p c Hc| | | | |]; subst.
  split; [done|]. intros Hf. rewrite Hf in Hc. simpl in *.
  apply negb_true_iff in Hc. by rewrite Hc.
Qed.

Lemma matches_star_dot f s :
  matches (Star (dot f)) s -> DOTALL f = false -> has_line_break s = false.
Proof.
  remember (Star (dot f)) as r eqn:Hr. intros H. revert Hr.
  induction H as [| | | | | |r' s1 s2 H1 _ H2 IH2]; intros Hr Hf; try done.
  injection Hr as ->. rewrite has_line_break_append.
  apply matches_dot in H1 as [_ H1]. by rewrite H1, IH2.
Qed.

Lemma matches_plus_dot f s :
  matches (plus (dot f)) s ->
  s <> "" /\ (DOTALL f = false -> has_line_break s = false).
Proof.
  unfold plus. intros (s1 & s2 & -> & H1 & H2)%matches_Seq.
  apply matches_dot in H1 as [Hne Hlb]. split.
  - destruct s1; [done|]. by rewrite append_String.
  - intros Hf. rewrite has_line_break_append, Hlb by done.
    by rewrite (matches_star_dot f s2).
Qed.

Lemma skip_prefix (r rest : regex) (P : string -> Prop) :
  (forall s, matches rest s -> exists h t, s = h +:+ t /\ P t) ->
  forall s, matches (Seq r rest) s -> exists h t, s = h +:+ t /\ P t.
Proof.
  intros Hrest s (s1 & s2 & -> & _ & H2)%matches_Seq.
  destruct (Hrest s2 H2) as (h & t & -> & Ht).
  exists (s1 +:+ h), t. by rewrite append_assoc.
Qed.

Lemma tuples_shape f (s : string) :
  matches (Seq (lit "(") (Seq (plus (dot f)) (Seq (lit ")") (lit ";")))) s ->
  exists h t, s = h +:+ t /\
    exists tuples, t = "(" +:+ tuples +:+ ");" /\
      tuples <> "" /\ (DOTALL f = false -> has_line_break tuples = false).
Proof.
  intros (? & ? & -> & ->%matches_lit & H)%matches_Seq.
  apply matches_Seq in H as (tuples & ? & -> & Htuples & H).
  apply matches_Seq in H as (? & ? & -> & ->%matches_lit & ->%matches_lit).
  apply matches_plus_dot in Htuples as [Hne Hlb].
  exists "", ("(" +:+ tuples +:+ ");"). split; [done|]. by exists tuples.
Qed.

Lemma statement_shape f (part : string) :
  matches (INSERT_REGEX f) part ->
  exists keyword header tuples,
    part = keyword +:+ header +:+ "(" +:+ tuples +:+ ");" /\
    lower keyword = "insert" /\
    (IGNORECASE f = false -> keyword = "INSERT") /\
    tuples <> "" /\ (DOTALL f = false -> has_line_break tuples = false).
Proof.
  unfold INSERT_REGEX.
  intros (keyword & rest & -> & [Hlow Hsame]%matches_word & H)%matches_Seq.
  enough (exists h t, rest = h +:+ t /\
            exists tuples, t = "(" +:+ tuples +:+ ");" /\
              tuples <> "" /\
              (DOTALL f = false -> has_line_break tuples = false))
    as (h & t & -> & tuples & -> & Hne & Hlb)
    by (by exists keyword, h, tuples).
  revert rest H.
  do 13 apply (skip_prefix _ _
                 (fun t => exists tuples, t = "(" +:+ tuples +:+ ");" /\
                    tuples <> "" /\
                    (DOTALL f = false -> has_line_break tuples = false))).
  apply tuples_shape.
Qed.

Lemma lower_append (s1 s2 : string) : lower (s1 +:+ s2) = lower s1 +:+ lower s2.
Proof.
  induction s1 as [|c s1 IH]; [done|].
  rewrite append_String. simpl. by rewrite IH, append_String.
Qed.

(** Whatever flags the pattern is compiled with, every text it matches is
    a keyword, a header, an opening parenthesis, a group of tuples and the
    closing parenthesis followed at once by a semicolon, and the group of
    tuples is not empty.  Without [re.IGNORECASE] the keyword is the
    upper-case word INSERT; with it, in an ASCII text, it is that word in
    some mix of cases.  Without [re.DOTALL] the group of tuples has no line
    break in it. *)
Theorem matched_statement_shape (f : Flags) (part : string) :
  matches (INSERT_REGEX f) part ->
  exists keyword header tuples,
    part = keyword +:+ header +:+ "(" +:+ tuples +:+ ");" /\
    (IGNORECASE f = false -> keyword = "INSERT") /\
    (is_ascii part = true -> lower keyword = "insert") /\
    tuples <> "" /\
    (DOTALL f = false -> has_line_break tuples = false).
Proof.
  intros H.
  apply statement_shape in H
    as (keyword & header & tuples & -> & Hlow & Hsame & Hne & Hlb).
  by exists keyword, header, tuples.
Qed.

Lemma matched_statement_shape_witness :
  exists keyword header tuples,
    same_insert_on_one_line
      = keyword +:+ header +:+ "(" +:+ tuples +:+ ");" /\
    (IGNORECASE no_flags = false -> keyword = "INSERT") /\
    (is_ascii same_insert_on_one_line = true -> lower keyword = "insert") /\
    tuples <> "" /\
    (DOTALL no_flags = false -> has_line_break tuples = false).
Proof.
  apply (matched_statement_shape no_flags same_insert_on_one_line).
  apply fullmatch_spec. vm_compute. reflexivity.
Defined.

(** Whatever flags the pattern is compiled with, a text in which no closing
    parenthesis is followed at once by a semicolon has no part the pattern
    matches; neither has a text without the upper-case word INSERT when the
    pattern is compiled without [re.IGNORECASE], nor an ASCII text without
    the word INSERT in any mix of cases. *)
Theorem no_match_without_INSERT_or_terminator (f : Flags) (text : string) :
  Text.includes ");" text = false \/
  (IGNORECASE f = false /\ Text.includes "INSERT" text = false) \/
  (is_ascii text = true /\ Text.includes "insert" (lower text) = false) ->
  ~ exists before part after,
      text = before +:+ part +:+ after /\ matches (INSERT_REGEX f) part.
Proof.
  intros Hmissing (before & part & after & -> & Hpart).
  apply statement_shape in Hpart
    as (keyword & header & tuples & -> & Hlow & Hsame & _).
  destruct Hmissing as [H|[[Hf H]|[_ H]]];
    apply not_true_iff_false in H; apply H; apply includes_spec.
  - exists (before +:+ keyword +:+ header +:+ "(" +:+ tuples), after.
    by rewrite !append_assoc.
  - rewrite (Hsame Hf).
    exists before, (header +:+ "(" +:+ tuples +:+ ");" +:+ after).
    by rewrite !append_assoc.
  - exists (lower before),
      (lower (header +:+ "(" +:+ tuples +:+ ");" +:+ after)).
    rewrite <- Hlow, <- !lower_append. by rewrite !append_assoc.
Qed.

Lemma no_match_without_INSERT_or_terminator_witness :
  ~ exists before part after,
      lower_case_insert = before +:+ part +:+ after /\
      matches (INSERT_REGEX no_flags) part.
Proof.
  apply (no_match_without_INSERT_or_terminator no_flags lower_case_insert).
  right. left. split; vm_compute; reflexivity.
Defined.

End IngestFacts.

(** ** Table ordering *)

Module TableOrderingFacts.
Import TableOrdering.

(** *** Well-formed graphs *)

Lemma empty_graph_wf : graph_wf empty_graph.
Proof.
  split; [constructor|]. split; [constructor|].
  intros u v H. by apply elem_of_nil in H.
Qed.

Lemma add_node_spec u G :
  NoDup (nodes G) ->
  NoDup (nodes (add_node u G)) /\ edges (add_node u G) = edges G /\
  forall x, x ∈ nodes (add_node u G) <-> x = u \/ x ∈ nodes G.
Proof.
  intros Hnd. unfold add_node. case_bool_decide as Hu; simpl.
  - split; [done|]. split; [done|]. intros x. split; [auto|].
    by intros [->|?].
  - split.
    { apply NoDup_app. split; [done|]. split; [|apply NoDup_singleton].
      intros x Hx ->%list_elem_of_singleton. done. }
    split; [done|]. intros x.
    rewrite elem_of_app, list_elem_of_singleton. tauto.
Qed.

Lemma add_edge_spec u v G :
  graph_wf G ->
  graph_wf (add_edge u v G) /\
  (forall a b, (a, b) ∈ edges (add_edge u v G) <->
               (a, b) = (u, v) \/ (a, b) ∈ edges G).
Proof.
  intros (Hn & He & Hends). unfold add_edge.
  destruct (add_node_spec u G Hn) as (Hn1 & He1 & Hin1).
  destruct (add_node_spec v (add_node u G) Hn1) as (Hn2 & He2 & Hin2).
  rewrite He1 in He2.
  assert (Hends2 : forall a b, (a, b) ∈ edges G ->
            a ∈ nodes (add_node v (add_node u G)) /\
            b ∈ nodes (add_node v (add_node u G))).
  { intros a b Hab. destruct (Hends a b Hab).
    rewrite !Hin2, !Hin1. tauto. }
  case_bool_decide as Huv; rewrite He2 in Huv.
  - split.
    + split; [done|]. rewrite He2. split; [done|]. done.
    + intros a b. rewrite He2. split; [auto|]. by intros [[= -> ->]|?].
  - simpl. rewrite He2. split.
    + split; [done|]. split.
      { apply NoDup_app. split; [done|]. split; [|apply NoDup_singleton].
        intros x Hx ->%list_elem_of_singleton. done. }
      intros a b [Hab|[= -> ->]%list_elem_of_singleton]%elem_of_app.
      * by apply Hends2.
      * rewrite !Hin2, !Hin1. tauto.
    + intros a b. rewrite elem_of_app, list_elem_of_singleton. tauto.
Qed.

Lemma add_reference_spec rbt table col G :
  graph_wf G ->
  graph_wf (add_reference rbt table col G) /\
  (forall a b, (a, b) ∈ edges (add_reference rbt table col G) <->
     (b = table /\ references rbt col a) \/ (a, b) ∈ edges G).
Proof.
  intros Hwf. unfold add_reference, references, known_table.
  destruct (endswith (upper col) "_ID") eqn:Hsuf.
  - case_bool_decide as Hk.
    + destruct (add_edge_spec (drop_last3 col) table G Hwf) as [Hwf' He].
      split; [done|]. intros a b. rewrite He. split.
      * intros [[= -> ->]|?]; [left|right]; done.
      * intros [(-> & _ & -> & _)|?]; [left|right]; done.
    + split; [done|]. intros a b. split; [auto|].
      intros [(-> & _ & -> & ?)|?]; done.
  - split; [done|]. intros a b. split; [auto|].
    intros [(_ & ? & _)|?]; done.
Qed.

Lemma add_columns_spec rbt table cols : forall G,
  graph_wf G ->
  let G' := fold_left (fun G col => add_reference rbt table col G) cols G in
  graph_wf G' /\
  (forall a b, (a, b) ∈ edges G' <->
     (b = table /\ exists col, col ∈ cols /\ references rbt col a)
     \/ (a, b) ∈ edges G).
Proof.
  induction cols as [|col cols IH]; intros G Hwf; simpl.
  - split; [done|]. intros a b. split; [auto|].
    intros [(_ & col & Hcol & _)|?]; [|done]. by apply elem_of_nil in Hcol.
  - destruct (add_reference_spec rbt table col G Hwf) as [Hwf1 He1].
    destruct (IH _ Hwf1) as [Hwf2 He2]. split; [done|].
    intros a b. rewrite He2, He1. split.
    + intros [(-> & c & Hc & Hr)|[(-> & Hr)|?]].
      * left. split; [done|]. exists c. split; [by right|done].
      * left. split; [done|]. exists col. split; [by left|done].
      * by right.
    + intros [(-> & c & [->|Hc]%elem_of_cons & Hr)|?].
      * right. left. done.
      * left. split; [done|]. by exists c.
      * right. by right.
Qed.

Lemma for_each_add_table_spec rbt entries : forall G G',
  graph_wf G ->
  for_each (add_table rbt) entries G = Ok G' ->
  graph_wf G' /\
  (forall a b, (a, b) ∈ edges G' <->
     reference_edge rbt entries a b \/ (a, b) ∈ edges G).
Proof.
  induction entries as [|[table rows] entries IH]; intros G G' Hwf; simpl.
  - intros [= <-]. split; [done|]. intros a b. split; [auto|].
    intros [(rows & ? & ? & H & _)|?]; [|done]. by apply elem_of_nil in H.
  - unfold add_table at 1; simpl. destruct rows as [|row0 rows]; [done|].
    simpl. intros Hrest.
    destruct (add_columns_spec rbt table (columns row0) G Hwf) as [Hwf1 He1].
    destruct (IH _ _ Hwf1 Hrest) as [Hwf2 He2]. split; [done|].
    intros a b. rewrite He2, He1. unfold reference_edge. split.
    + intros [(rs & r0 & c & Hin & Hhd & Hc & Hr)|[(-> & c & Hc & Hr)|?]].
      * left. exists rs, r0, c. split; [by right|done].
      * left. exists (row0 :: rows), row0, c. split; [by left|done].
      * by right.
    + intros [(rs & r0 & c & [[= -> ->]|Hin]%elem_of_cons & Hhd & Hc & Hr)|?].
      * simpl in Hhd. injection Hhd as <-. right. left. split; [done|].
        by exists c.
      * left. by exists rs, r0, c.
      * right. by right.
Qed.

Lemma build_graph_spec rbt G :
  build_graph rbt = Ok G ->
  graph_wf G /\
  (forall a b, (a, b) ∈ edges G <-> reference_edge rbt rbt a b).
Proof.
  intros H. destruct (for_each_add_table_spec rbt rbt _ _ empty_graph_wf H)
    as [Hwf He].
  split; [done|]. intros a b. rewrite He. split; [|auto].
  intros [?|H0]; [done|]. by apply elem_of_nil in H0.
Qed.

Lemma for_each_add_table_total env entries : forall G,
  Forall (fun entry : string * list Row => entry.2 <> []) entries ->
  exists G', for_each (add_table env) entries G = Ok G'.
Proof.
  induction entries as [|[table rows] entries IH]; intros G Hne; simpl.
  - by exists G.
  - apply Forall_cons in Hne as [Hrows Hne]. simpl in Hrows.
    unfold add_table at 1; simpl. destruct rows as [|row0 rows]; [done|].
    simpl. by apply IH.
Qed.

Lemma build_graph_total rbt :
  Forall (fun entry : string * list Row => entry.2 <> []) rbt ->
  exists G, build_graph rbt = Ok G.
Proof. apply for_each_add_table_total. Qed.

(** *** Edges still to be relaxed *)

Lemma filter_ext_elem {A} (P1 P2 : A -> Prop)
    `{!forall x, Decision (P1 x), !forall x, Decision (P2 x)} (l : list A) :
  (forall x, x ∈ l -> (P1 x <-> P2 x)) -> filter P1 l = filter P2 l.
Proof.
  induction l as [|x l IH]; intros Hiff; [done|].
  rewrite !filter_cons.
  rewrite IH by (intros y Hy; apply Hiff; by right).
  pose proof (Hiff x ltac:(by left)) as Hx.
  destruct (decide (P1 x)), (decide (P2 x)); tauto || done.
Qed.

Lemma pending_in_absent L P u v :
  (u, v) ∉ L -> u ∉ P -> pending_in L (P ++ [u]) v = pending_in L P v.
Proof.
  intros Hnin Hu. unfold pending_in. f_equal. apply filter_ext_elem.
  intros [a b] Hab. simpl. rewrite elem_of_app, list_elem_of_singleton.
  split.
  - intros [Hb Ha]. split; [done|]. tauto.
  - intros [Hb Ha]. split; [done|]. intros [?|Hau]; [done|]. subst. done.
Qed.

Lemma pending_in_cons e L P v :
  pending_in (e :: L) P v
  = (if decide (e.2 = v /\ e.1 ∉ P) then 1 else 0) + pending_in L P v.
Proof.
  unfold pending_in. rewrite filter_cons. by destruct (decide _).
Qed.

Lemma pending_in_step L P u v :
  NoDup L -> u ∉ P ->
  pending_in L P v
  = pending_in L (P ++ [u]) v + (if decide ((u, v) ∈ L) then 1 else 0).
Proof.
  induction L as [|[a b] L IH]; intros Hnd Hu.
  { rewrite decide_False; [done|]. apply not_elem_of_nil. }
  apply NoDup_cons in Hnd as [Hhd Hnd].
  rewrite !pending_in_cons. simpl.
  destruct (decide ((a, b) = (u, v))) as [[= -> ->]|Hne].
  - rewrite (decide_True (P := (u, v) ∈ (u, v) :: L)) by left.
    rewrite decide_True by done.
    rewrite decide_False.
    2:{ intros [_ H]. apply H, elem_of_app. right. by left. }
    rewrite pending_in_absent by done. lia.
  - rewrite (IH Hnd Hu).
    assert (Hdec : (if decide ((u, v) ∈ (a, b) :: L) then 1 else 0)
                   = (if decide ((u, v) ∈ L) then 1 else 0)).
    { destruct (decide ((u, v) ∈ L)) as [Hin|Hnin].
      - rewrite decide_True; [done|]. by right.
      - rewrite decide_False; [done|].
        intros [?|?]%elem_of_cons; [congruence|done]. }
    rewrite Hdec.
    destruct (decide (b = v /\ a ∉ P)) as [[-> Ha]|Hn].
    + rewrite (decide_True (P := v = v /\ a ∉ P ++ [u])); [lia|].
      split; [done|].
      intros [?| ->%list_elem_of_singleton]%elem_of_app; done.
    + rewrite (decide_False (P := b = v /\ a ∉ P ++ [u])); [lia|].
      intros [-> Ha]. apply Hn. split; [done|]. intros ?. apply Ha.
      apply elem_of_app. auto.
Qed.

Lemma pending_in_zero L P v :
  pending_in L P v = 0 <-> forall u, (u, v) ∈ L -> u ∈ P.
Proof.
  unfold pending_in. rewrite length_zero_iff_nil. split.
  - intros Hnil u Hu. destruct (decide (u ∈ P)) as [|Hn]; [done|].
    exfalso.
    eapply (filter_nil_not_elem_of _ _ (u, v)); [exact Hnil|done|exact Hu].
  - intros H. destruct (filter _ L) as [|[a b] l] eqn:Hf; [done|].
    assert (Hin : (a, b) ∈ filter (fun e => e.2 = v /\ e.1 ∉ P) L)
      by (rewrite Hf; left).
    apply list_elem_of_filter in Hin as [[Hb Ha] Hin]. simpl in *. subst b.
    by apply H in Hin.
Qed.

Lemma pending_in_nil_in_degree L v :
  pending_in L [] v = length (filter (fun e => e.2 = v) L).
Proof.
  unfold pending_in. f_equal. apply filter_ext_elem. intros e _.
  split; [tauto|]. intros ->. split; [done|]. apply not_elem_of_nil.
Qed.

Lemma neighbors_spec G u v : v ∈ neighbors G u <-> (u, v) ∈ edges G.
Proof.
  unfold neighbors. rewrite list_elem_of_fmap. split.
  - intros ([a b] & -> & [Ha Hin]%list_elem_of_filter). simpl in *. by subst.
  - intros H. exists (u, v). split; [done|]. by apply list_elem_of_filter.
Qed.

Lemma neighbors_NoDup G u : NoDup (edges G) -> NoDup (neighbors G u).
Proof.
  intros Hnd. unfold neighbors. apply NoDup_fmap_2_strong.
  - intros [a b] [a' b'] [Ha _]%list_elem_of_filter [Ha' _]%list_elem_of_filter.
    simpl in *. congruence.
  - by apply NoDup_filter.
Qed.

(** *** The inner loop *)

Lemma relax_all cs : forall (M : gmap string Z) (Z0 : list string),
  NoDup cs ->
  (forall c, c ∈ cs -> exists d, M !! c = Some d /\ (1 <= d)%Z) ->
  exists M',
    for_each relax cs (M, Z0)
      = Ok (M', Z0 ++ filter (fun c => M !! c = Some 1%Z) cs) /\
    forall v, M' !! v = if decide (v ∈ cs) then decremented (M !! v)
                        else M !! v.
Proof.
  induction cs as [|c cs IH]; intros M Z0 Hnd Hpos.
  { exists M. cbn [for_each]. rewrite filter_nil, app_nil_r. split; [done|].
    intros v. rewrite decide_False; [done|]. apply not_elem_of_nil. }
  apply NoDup_cons in Hnd as [Hc Hnd].
  destruct (Hpos c ltac:(by left)) as (d & Hd & Hd1).
  cbn [for_each]. unfold relax at 1. rewrite Hd. cbn [bind].
  set (M1 := if bool_decide ((d - 1)%Z = 0%Z) then delete c M
             else <[c := (d - 1)%Z]> M).
  assert (Hother : forall v, v <> c -> M1 !! v = M !! v).
  { intros v Hv. unfold M1. case_bool_decide.
    - by rewrite lookup_delete_ne.
    - by rewrite lookup_insert_ne. }
  assert (Hself : M1 !! c = decremented (M !! c)).
  { unfold M1. rewrite Hd. simpl. case_bool_decide as Hz.
    - rewrite lookup_delete_eq. rewrite decide_True; [done|lia].
    - rewrite lookup_insert_eq. rewrite decide_False; [done|lia]. }
  assert (Hfilter : filter (fun c => M1 !! c = Some 1%Z) cs
                    = filter (fun c => M !! c = Some 1%Z) cs).
  { apply filter_ext_elem. intros x Hx. rewrite Hother; [done|].
    intros ->. done. }
  destruct (IH M1 (if bool_decide ((d - 1)%Z = 0%Z) then Z0 ++ [c] else Z0)
              Hnd) as (M' & Hrun & Hlook).
  { intros x Hx. rewrite Hother by (intros ->; done). apply Hpos. by right. }
  exists M'. split.
  - rewrite filter_cons. rewrite Hfilter in Hrun. unfold M1 in Hrun.
    cbv zeta. case_bool_decide as Hz; cbn [bind].
    + rewrite decide_True by (rewrite Hd; f_equal; lia).
      rewrite Hrun. by rewrite <- app_assoc.
    + rewrite decide_False by (rewrite Hd; intros [= ->]; lia).
      exact Hrun.
  - intros v. rewrite Hlook. destruct (decide (v = c)) as [->|Hv].
    + rewrite decide_False by done. rewrite decide_True by left. done.
    + rewrite Hother by done.
      destruct (decide (v ∈ cs)) as [Hin|Hnin].
      * rewrite decide_True by (by right). done.
      * rewrite decide_False; [done|]. intros [?|?]%elem_of_cons; done.
Qed.

(** *** The invariant of the sort *)

Lemma pending_step G P u v :
  graph_wf G -> u ∉ P ->
  pending G P v
  = pending G (P ++ [u]) v + (if decide (v ∈ neighbors G u) then 1 else 0).
Proof.
  intros (_ & Hnd & _) Hu. unfold pending.
  rewrite (pending_in_step _ _ u) by done.
  f_equal. destruct (decide ((u, v) ∈ edges G)) as [H|H].
  - rewrite decide_True; [done|]. by apply neighbors_spec.
  - rewrite decide_False; [done|]. by rewrite neighbors_spec.
Qed.

Lemma visit_spec G P u Q M Z0 :
  graph_wf G ->
  sort_inv G P (u :: Q) M ->
  exists M' new,
    visit G u (M, Z0) = Ok (M', Z0 ++ new) /\
    sort_inv G (P ++ [u]) (Q ++ new) M'.
Proof.
  intros Hwf [Hnd Hnodes Hmap Hrel Hresp].
  assert (HuP : u ∉ P).
  { apply NoDup_app in Hnd as (_ & Hdisj & _). intros HuP.
    apply (Hdisj u HuP). by left. }
  assert (Hu_nodes : u ∈ nodes G).
  { apply Hnodes, elem_of_app. right. by left. }
  assert (Hchild : forall c, c ∈ neighbors G u -> 1 <= pending G P c).
  { intros c Hc. rewrite (pending_step G P u c) by done.
    rewrite decide_True by done. lia. }
  destruct (relax_all (neighbors G u) M Z0) as (M' & Hrun & Hlook).
  { apply neighbors_NoDup, Hwf. }
  { intros c Hc. specialize (Hchild c Hc). rewrite Hmap.
    rewrite decide_False by lia. eexists. split; [done|]. lia. }
  set (new := filter (fun c => M !! c = Some 1%Z) (neighbors G u)) in *.
  assert (Hnew : forall v, v ∈ new <->
            v ∈ neighbors G u /\ pending G P v = 1).
  { intros v. unfold new. rewrite list_elem_of_filter, Hmap.
    destruct (decide (pending G P v = 0)) as [H0|H0].
    - split; [intros [? _]; done|]. intros [_ ?]. lia.
    - split; [intros [[= H1] ?]; split; [done|lia] |].
      intros [? ->]. done. }
  exists M', new. split.
  { unfold visit. rewrite bool_decide_true by done. exact Hrun. }
  assert (Hin_wf : forall c, c ∈ neighbors G u -> c ∈ nodes G).
  { intros c Hc%neighbors_spec. by apply Hwf in Hc as [_ ?]. }
  split.
  - (* no duplicates *)
    replace ((P ++ [u]) ++ Q ++ new) with ((P ++ u :: Q) ++ new)
      by (by rewrite <- !app_assoc).
    apply NoDup_app. split; [done|]. split.
    + intros v Hv [Hc H1]%Hnew.
      apply Hrel in Hv; [lia|]. by apply Hnodes.
    + unfold new. apply NoDup_filter, neighbors_NoDup, Hwf.
  - (* nodes *)
    intros v. replace ((P ++ [u]) ++ Q ++ new) with ((P ++ u :: Q) ++ new)
      by (by rewrite <- !app_assoc).
    intros [Hv|[Hc _]%Hnew]%elem_of_app; [by apply Hnodes|by apply Hin_wf].
  - (* the map *)
    intros v. rewrite Hlook. rewrite Hmap.
    rewrite (pending_step G P u v) by done.
    destruct (decide (v ∈ neighbors G u)) as [Hc|Hc].
    + rewrite decide_False by lia. simpl.
      destruct (decide (pending G (P ++ [u]) v = 0)) as [H0|H0].
      * rewrite decide_True; [done|lia].
      * rewrite decide_False by lia. f_equal. lia.
    + rewrite Nat.add_0_r. done.
  - (* released nodes *)
    intros v Hv.
    replace ((P ++ [u]) ++ Q ++ new) with ((P ++ u :: Q) ++ new)
      by (by rewrite <- !app_assoc).
    rewrite elem_of_app, (Hrel v Hv), Hnew.
    rewrite (pending_step G P u v) by done.
    destruct (decide (v ∈ neighbors G u)); intuition lia.
  - (* the order *)
    intros j a b Hj Hab.
    destruct (decide (j < length P)) as [Hlt|Hge].
    + rewrite lookup_app_l in Hj by done.
      destruct (Hresp j a b Hj Hab) as (i & Hi & Hia).
      exists i. split; [done|]. rewrite lookup_app_l by lia. done.
    + apply lookup_lt_Some in Hj as Hlen. rewrite length_app in Hlen.
      simpl in Hlen. assert (j = length P) as -> by lia.
      rewrite lookup_app_r, Nat.sub_diag in Hj by lia.
      injection Hj as <-.
      assert (Hu0 : pending G P u = 0).
      { apply Hrel; [done|]. apply elem_of_app. right. by left. }
      unfold pending in Hu0. rewrite pending_in_zero in Hu0.
      specialize (Hu0 a Hab).
      apply list_elem_of_lookup in Hu0 as [i Hi].
      exists i. split; [by eapply lookup_lt_Some|].
      rewrite lookup_app_l by (by eapply lookup_lt_Some). done.
Qed.

Lemma generation_spec G g : forall P M Z0,
  graph_wf G ->
  sort_inv G P (g ++ Z0) M ->
  exists M' Z',
    for_each (visit G) g (M, Z0) = Ok (M', Z') /\
    sort_inv G (P ++ g) Z' M'.
Proof.
  induction g as [|u g IH]; intros P M Z0 Hwf Hinv.
  - exists M, Z0. rewrite app_nil_r. done.
  - simpl in Hinv.
    destruct (visit_spec G P u (g ++ Z0) M Z0 Hwf Hinv)
      as (M1 & new & Hrun & Hinv1).
    rewrite <- app_assoc in Hinv1.
    destruct (IH _ _ _ Hwf Hinv1) as (M' & Z' & Hrun' & Hinv').
    exists M', Z'. split.
    + simpl. rewrite Hrun. exact Hrun'.
    + by rewrite <- app_assoc in Hinv'.
Qed.

(** *** Cycles *)

Lemma long_walk G (S : list string) :
  S <> [] ->
  (forall v, v ∈ S -> exists u, u ∈ S /\ edge G u v) ->
  forall n, exists w,
    length w = Datatypes.S n /\ Forall (fun v => v ∈ S) w /\
    Sorted (tc (edge G)) w.
Proof.
  intros Hne Hpred. induction n as [|n (w & Hlen & Hin & Hsorted)].
  - destruct S as [|v S]; [done|]. exists [v]. split; [done|].
    split; [|by repeat constructor].
    constructor; [by left|constructor].
  - destruct w as [|h w]; [done|].
    apply Forall_cons in Hin as Hin'. destruct Hin' as [Hh _].
    destruct (Hpred h Hh) as (u & Hu & Huh).
    exists (u :: h :: w). split; [simpl in *; lia|].
    split; [by constructor|]. constructor; [done|].
    constructor. by apply tc_once.
Qed.

Lemma repeated_in_walk G (w : list string) :
  StronglySorted (tc (edge G)) w -> ~ NoDup w -> has_cycle G.
Proof.
  induction w as [|a w IH]; intros Hs Hdup.
  - exfalso. apply Hdup. constructor.
  - apply StronglySorted_inv in Hs as [Hs Hall].
    destruct (decide (a ∈ w)) as [Ha|Ha].
    + exists a. rewrite Forall_forall in Hall. by apply Hall.
    + apply IH; [done|]. intros Hnd. apply Hdup. by constructor.
Qed.

Lemma stuck_cycle G (S : list string) :
  S <> [] ->
  (forall v, v ∈ S -> exists u, u ∈ S /\ edge G u v) ->
  has_cycle G.
Proof.
  intros Hne Hpred.
  destruct (long_walk G S Hne Hpred (length S)) as (w & Hlen & Hin & Hsorted).
  apply (repeated_in_walk G w).
  - apply Sorted_StronglySorted; [apply _|done].
  - intros Hnd. rewrite Forall_forall in Hin.
    pose proof (submseteq_length _ _ (NoDup_submseteq _ _ Hnd Hin)). lia.
Qed.

Lemma respects_tc G order u v :
  graph_wf G -> (forall x, x ∈ nodes G -> x ∈ order) -> respects G order ->
  tc (edge G) u v -> precedes order u v.
Proof.
  intros Hwf Hall Hresp Htc. induction Htc as [u v Huv|u w v Huw Hwv IH].
  - assert (Hv : v ∈ order) by (apply Hall; by apply Hwf in Huv as [_ ?]).
    apply list_elem_of_lookup in Hv as [j Hj].
    destruct (Hresp j u v Hj Huv) as (i & Hi & Hiu). by exists i, j.
  - destruct IH as (i' & j & Hi' & Hj & Hlt).
    destruct (Hresp i' u w Hi' Huw) as (i & Hi & Hiu).
    exists i, j. split; [done|]. split; [done|lia].
Qed.

Lemma respects_acyclic G order :
  graph_wf G -> NoDup order -> (forall x, x ∈ nodes G -> x ∈ order) ->
  respects G order -> ~ has_cycle G.
Proof.
  intros Hwf Hnd Hall Hresp [v Hv].
  destruct (respects_tc G order v v Hwf Hall Hresp Hv)
    as (i & j & Hi & Hj & Hlt).
  pose proof (NoDup_lookup _ _ _ _ Hnd Hi Hj). lia.
Qed.

(** *** The outer loop *)

Lemma pending_pos_edge G P v :
  pending G P v <> 0 -> exists u, (u, v) ∈ edges G /\ u ∉ P.
Proof.
  unfold pending, pending_in. intros Hne.
  destruct (filter _ (edges G)) as [|[a b] l] eqn:Hf; [done|].
  assert (Hin : (a, b) ∈ filter (fun e => e.2 = v /\ e.1 ∉ P) (edges G))
    by (rewrite Hf; left).
  apply list_elem_of_filter in Hin as [[Hb Ha] Hin]. simpl in *. subst b.
  by exists a.
Qed.

Lemma generations_spec G fuel : forall P M Z0,
  graph_wf G -> sort_inv G P Z0 M ->
  length (nodes G) - length P < fuel ->
  sorted_or_cyclic G P (generations fuel G M Z0).
Proof.
  induction fuel as [|fuel IH]; intros P M Z0 Hwf Hinv Hfuel; [lia|].
  destruct Z0 as [|u g].
  - destruct Hinv as [Hnd Hnodes Hmap Hrel Hresp]. rewrite app_nil_r in *.
    cbn [generations]. case_bool_decide as Hempty.
    + left. exists []. split; [done|]. rewrite app_nil_r. split; [|done].
      apply NoDup_Permutation; [done|apply Hwf|].
      intros v. split; [apply Hnodes|]. intros Hv. apply Hrel; [done|].
      specialize (Hmap v). rewrite Hempty, lookup_empty in Hmap.
      by destruct (decide (pending G P v = 0)).
    + right. split; [done|].
      assert (Hstuck : forall v, v ∈ nodes G -> v ∉ P ->
                exists p, (p ∈ nodes G /\ p ∉ P) /\ edge G p v).
      { intros v Hv HvP.
        destruct (pending_pos_edge G P v) as (p & Hp & HpP).
        { intros H0. by apply Hrel in H0. }
        exists p. split; [|done]. split; [|done].
        by apply Hwf in Hp as [? _]. }
      apply (stuck_cycle G (filter (fun v => v ∉ P) (nodes G))).
      * apply map_choose in Hempty as (v & d & Hvd).
        rewrite Hmap in Hvd.
        destruct (decide (pending G P v = 0)) as [|Hpos]; [done|].
        destruct (pending_pos_edge G P v Hpos) as (p & Hp & HpP).
        intros Hnil. eapply (filter_nil_not_elem_of _ _ p); [exact Hnil|done|].
        by apply Hwf in Hp as [? _].
      * intros v [HvP Hv]%list_elem_of_filter.
        destruct (Hstuck v Hv HvP) as (p & [Hp HpP] & Hpv).
        exists p. split; [|done]. by apply list_elem_of_filter.
  - cbn [generations].
    destruct (generation_spec G (u :: g) P M [] Hwf)
      as (M' & Z' & Hrun & Hinv').
    { by rewrite app_nil_r. }
    rewrite Hrun.
    assert (Hlen : length (P ++ u :: g) <= length (nodes G)).
    { destruct Hinv as [Hnd Hnodes _ _ _].
      apply submseteq_length, NoDup_submseteq; done. }
    rewrite length_app in Hlen. simpl in Hlen.
    destruct (IH (P ++ u :: g) M' Z' Hwf Hinv') as
      [(later & -> & Hperm & Hresp)|[-> Hcyc]].
    { rewrite length_app. simpl. lia. }
    + left. exists ((u :: g) ++ later). split; [done|].
      by rewrite app_assoc.
    + right. done.
Qed.

Lemma omap_fst_NoDup {B} (f : string -> option B) (l : list string) :
  NoDup l ->
  NoDup (omap (fun v => match f v with Some b => Some (v, b) | None => None end)
           l).*1.
Proof.
  induction 1 as [|v l Hv Hnd IH]; simpl; [constructor|].
  destruct (f v) as [b|]; simpl; [|done]. constructor; [|done].
  intros ((v' & b') & Heq & Hin)%list_elem_of_fmap. simpl in Heq. subst v'.
  apply list_elem_of_omap in Hin as (x & Hx & Hfx).
  destruct (f x); [|done]. injection Hfx as -> _. done.
Qed.

Lemma initial_indegree_map_lookup G v :
  graph_wf G ->
  initial_indegree_map G !! v
  = if decide (pending G [] v = 0) then None
    else Some (Z.of_nat (pending G [] v)).
Proof.
  intros Hwf. unfold pending. rewrite pending_in_nil_in_degree.
  fold (in_degree G v). unfold initial_indegree_map.
  set (f := fun v => if bool_decide (0 < in_degree G v)
                     then Some (Z.of_nat (in_degree G v)) else None).
  assert (Heq : omap (fun v =>
                   if bool_decide (0 < in_degree G v)
                   then Some (v, Z.of_nat (in_degree G v)) else None)
                  (nodes G)
              = omap (fun v => match f v with Some b => Some (v, b)
                               | None => None end) (nodes G)).
  { apply list_omap_ext, Forall_Forall2_diag, Forall_forall.
    intros x _. unfold f. cbv zeta. by case_bool_decide. }
  rewrite Heq. clear Heq.
  destruct (decide (in_degree G v = 0)) as [H0|H0].
  - apply not_elem_of_list_to_map_1.
    intros ((v' & b') & Hv' & Hin)%list_elem_of_fmap. simpl in Hv'. subst v'.
    apply list_elem_of_omap in Hin as (x & Hx & Hfx).
    unfold f in Hfx. case_bool_decide as Hpos; [|done].
    injection Hfx as -> _. lia.
  - apply elem_of_list_to_map_1.
    + apply omap_fst_NoDup, Hwf.
    + apply list_elem_of_omap. exists v. split.
      * assert (Hpos : pending G [] v <> 0)
          by (unfold pending; by rewrite pending_in_nil_in_degree).
        apply pending_pos_edge in Hpos as (p & Hp & _).
        by apply Hwf in Hp as [_ ?].
      * unfold f. rewrite bool_decide_true by lia. done.
Qed.

Lemma initial_sort_inv G :
  graph_wf G ->
  sort_inv G [] (initial_zero_indegree G) (initial_indegree_map G).
Proof.
  intros Hwf.
  assert (Hdeg : forall v, pending G [] v = in_degree G v).
  { intros v. unfold pending. by rewrite pending_in_nil_in_degree. }
  split.
  - simpl. apply NoDup_filter, Hwf.
  - simpl. by intros v [_ ?]%list_elem_of_filter.
  - intros v. by apply initial_indegree_map_lookup.
  - intros v Hv. simpl. unfold initial_zero_indegree.
    rewrite list_elem_of_filter, Hdeg. tauto.
  - intros j u v Hj. done.
Qed.

Lemma topological_sort_spec G :
  graph_wf G ->
  (exists order, topological_sort G = Some (Ok order) /\
     order ≡ₚ nodes G /\ respects G order) \/
  (topological_sort G = Some (Raise NetworkXUnfeasible) /\ has_cycle G).
Proof.
  intros Hwf. unfold topological_sort.
  apply (generations_spec G _ [] _ _ Hwf (initial_sort_inv G Hwf)).
  simpl. lia.
Qed.

Lemma respects_precedes G order a b :
  graph_wf G -> order ≡ₚ nodes G -> respects G order ->
  edge G a b -> precedes order a b.
Proof.
  intros Hwf Hperm Hresp Hab. apply (respects_tc G); try done.
  - intros x Hx. by rewrite Hperm.
  - by apply tc_once.
Qed.

Lemma sorted_acyclic G order :
  graph_wf G -> order ≡ₚ nodes G -> respects G order -> ~ has_cycle G.
Proof.
  intros Hwf Hperm Hresp. apply (respects_acyclic G order); try done.
  - rewrite Hperm. apply Hwf.
  - intros x Hx. by rewrite Hperm.
Qed.

(** *** The nodes of the built graph *)

Lemma add_edge_incident u v G :
  graph_wf G -> nodes_incident G -> nodes_incident (add_edge u v G).
Proof.
  intros Hwf Hinc x Hx.
  destruct (add_edge_spec u v G Hwf) as [_ He]. unfold edge.
  assert (Hx' : x = u \/ x = v \/ x ∈ nodes G).
  { destruct Hwf as (Hn & _ & _).
    destruct (add_node_spec u G Hn) as (Hn1 & _ & Hin1).
    destruct (add_node_spec v (add_node u G) Hn1) as (_ & _ & Hin2).
    unfold add_edge in Hx.
    case_bool_decide; simpl in Hx; apply Hin2 in Hx as [->|Hx]; auto;
      apply Hin1 in Hx as [->|Hx]; auto. }
  destruct Hx' as [->|[->|Hx']].
  - exists v. right. apply He. by left.
  - exists u. left. apply He. by left.
  - destruct (Hinc x Hx') as (y & [Hy|Hy]); exists y; [left|right];
      apply He; by right.
Qed.

Lemma add_reference_incident rbt table col G :
  graph_wf G -> nodes_incident G ->
  nodes_incident (add_reference rbt table col G).
Proof.
  intros Hwf Hinc. unfold add_reference.
  destruct (endswith _ _); [|done]. destruct (known_table _ _); [|done].
  by apply add_edge_incident.
Qed.

Lemma add_columns_incident rbt table cols : forall G,
  graph_wf G -> nodes_incident G ->
  nodes_incident
    (fold_left (fun G col => add_reference rbt table col G) cols G).
Proof.
  induction cols as [|col cols IH]; intros G Hwf Hinc; simpl; [done|].
  apply IH.
  - by apply add_reference_spec.
  - by apply add_reference_incident.
Qed.

Lemma for_each_add_table_incident rbt entries : forall G G',
  graph_wf G -> nodes_incident G ->
  for_each (add_table rbt) entries G = Ok G' -> nodes_incident G'.
Proof.
  induction entries as [|[table rows] entries IH]; intros G G' Hwf Hinc; simpl.
  - by intros [= <-].
  - unfold add_table at 1; simpl. destruct rows as [|row0 rows]; [done|].
    simpl. apply IH.
    + by apply add_columns_spec.
    + by apply add_columns_incident.
Qed.

Lemma build_graph_incident rbt G :
  build_graph rbt = Ok G -> nodes_incident G.
Proof.
  apply for_each_add_table_incident; [apply empty_graph_wf|].
  intros v Hv. by apply elem_of_nil in Hv.
Qed.

(** *** The order of the tables *)

Example self_reference_unfeasible :
  table_order self_reference = Some (Raise NetworkXUnfeasible).
Proof. vm_compute. reflexivity. Qed.

Example a_refers_to_b_order :
  table_order a_refers_to_b = Some (Ok ["b"; "a"]).
Proof. vm_compute. reflexivity. Qed.

(** C4 as stated fails: for two tables that refer to each other the edges
    form a cycle, no edge is removed, and the sort ends in the library's
    cycle exception instead of an order. *)
Lemma C4_counterexample :
  exists G, build_graph mutual_references = Ok G /\
    has_cycle G /\
    table_order mutual_references = Some (Raise NetworkXUnfeasible) /\
    ~ exists order, table_order mutual_references = Some (Ok order).
Proof.
  exists {| nodes := ["b"; "a"]; edges := [("b", "a"); ("a", "b")] |}.
  split; [vm_compute; reflexivity|]. split.
  - exists "a". eapply tc_l; [|apply tc_once]; unfold edge; simpl.
    + apply list_elem_of_In. simpl. right. left. reflexivity.
    + apply list_elem_of_In. simpl. left. reflexivity.
  - split; [vm_compute; reflexivity|]. intros [order H].
    vm_compute in H. discriminate.
Qed.

(** C4 (amended): the builder has no cycle handling.  When every table has
    a row, the graph is built; it has an edge from [a] to [b] exactly when a
    column of the first row of [b] refers to the known table [a], and its
    nodes are the tables at an end of an edge; if the edges are acyclic the
    step returns an order that is a permutation of those nodes and ranks
    every referenced table before the table referring to it; if they form a
    cycle the step ends in the cycle exception of the sort. *)
Theorem C4_order_iff_acyclic (rows_by_table : RowsByTable) :
  Forall (fun entry : string * list Row => entry.2 <> []) rows_by_table ->
  exists G, build_graph rows_by_table = Ok G /\
    (forall a b, edge G a b <-> reference_edge rows_by_table rows_by_table a b)
    /\
    (forall v, v ∈ nodes G <-> exists u, edge G u v \/ edge G v u) /\
    (~ has_cycle G ->
       exists order, table_order rows_by_table = Some (Ok order) /\
         order ≡ₚ nodes G /\
         forall a b, edge G a b -> precedes order a b) /\
    (has_cycle G ->
       table_order rows_by_table = Some (Raise NetworkXUnfeasible)).
Proof.
  intros Hrows. destruct (build_graph_total _ Hrows) as [G HG].
  exists G. split; [done|].
  destruct (build_graph_spec _ _ HG) as [Hwf Hedges].
  pose proof (build_graph_incident _ _ HG) as Hinc.
  split; [exact Hedges|]. split.
  { intros v. split; [apply Hinc|].
    intros (u & [H|H]); apply Hwf in H as [? ?]; done. }
  unfold table_order. rewrite HG.
  destruct (topological_sort_spec G Hwf)
    as [(order & Hrun & Hperm & Hresp)|[Hrun Hcyc]].
  - split.
    + intros _. exists order. split; [done|]. split; [done|].
      intros a b. by apply respects_precedes.
    + intros Hcyc. exfalso. by eapply sorted_acyclic.
  - split; [|done]. intros Hacyc. done.
Qed.

Lemma C4_order_iff_acyclic_witness :
  exists G, build_graph a_refers_to_b = Ok G /\
    (forall a b, edge G a b <-> reference_edge a_refers_to_b a_refers_to_b a b)
    /\
    (forall v, v ∈ nodes G <-> exists u, edge G u v \/ edge G v u) /\
    (~ has_cycle G ->
       exists order, table_order a_refers_to_b = Some (Ok order) /\
         order ≡ₚ nodes G /\
         forall a b, edge G a b -> precedes order a b) /\
    (has_cycle G ->
       table_order a_refers_to_b = Some (Raise NetworkXUnfeasible)).
Proof.
  apply (C4_order_iff_acyclic a_refers_to_b).
  repeat constructor; discriminate.
Defined.

(** C7: for the graph built from the rows (the code removes no edge, so it
    is the resolved graph), the step either returns an order or ends in the
    cycle exception, the graph then having a cycle; and whenever it returns
    an order, the order has no repetition and every edge [a -> b] of the
    graph (that is, every column of the first row of [b] that refers to the
    known table [a]) has [a] ranked strictly before [b]. *)
Theorem C7_order_respects_edges
    (rows_by_table : RowsByTable) (G : DiGraph) :
  build_graph rows_by_table = Ok G ->
  ((exists order, table_order rows_by_table = Some (Ok order)) \/
   (table_order rows_by_table = Some (Raise NetworkXUnfeasible) /\
    has_cycle G)) /\
  (forall order, table_order rows_by_table = Some (Ok order) ->
     NoDup order /\
     (forall a b, edge G a b -> precedes order a b) /\
     (forall a b, reference_edge rows_by_table rows_by_table a b ->
        precedes order a b)).
Proof.
  intros HG. unfold table_order. rewrite HG.
  destruct (build_graph_spec _ _ HG) as [Hwf Hedges].
  destruct (topological_sort_spec G Hwf)
    as [(order' & Hrun' & Hperm & Hresp)|[Hrun' Hcyc]].
  - split; [left; by exists order'|].
    intros order Hrun. assert (order' = order) as -> by congruence.
    split; [rewrite Hperm; apply Hwf|].
    split; intros a b Hab.
    + by apply (respects_precedes G).
    + apply (respects_precedes G); try done. by apply Hedges.
  - split; [by right|]. intros order Hrun. congruence.
Qed.

Lemma C7_order_respects_edges_witness :
  table_order a_refers_to_b = Some (Ok ["b"; "a"]) /\
  precedes ["b"; "a"] "b" "a".
Proof.
  destruct (C7_order_respects_edges a_refers_to_b
              {| nodes := ["b"; "a"]; edges := [("b", "a")] |})
    as [_ Hsound].
  - vm_compute. reflexivity.
  - destruct (Hsound ["b"; "a"]) as (_ & Hedge & _).
    + vm_compute. reflexivity.
    + split; [vm_compute; reflexivity|].
      apply Hedge. unfold edge. simpl. apply list_elem_of_In. simpl. by left.
Defined.

(** *** Column names that refer to a table *)

Lemma length_app_text (a b : string) :
  String.length (a +:+ b) = String.length a + String.length b.
Proof. induction a as [|c a IH]; [done|]. rewrite app_String. simpl. by rewrite IH. Qed.

Lemma substring_0_all (s : string) : substring 0 (String.length s) s = s.
Proof. induction s as [|c s IH]; [done|]. simpl. by rewrite IH. Qed.

Lemma substring_app_l (a b : string) :
  substring 0 (String.length a) (a +:+ b) = a.
Proof.
  induction a as [|c a IH].
  - by destruct b.
  - rewrite app_String. simpl. by rewrite IH.
Qed.

Lemma substring_app_r (a b : string) (m : nat) :
  substring (String.length a) m (a +:+ b) = substring 0 m b.
Proof. induction a as [|c a IH]; [done|]. rewrite app_String. simpl. apply IH. Qed.

Lemma substring_split (s : string) (n : nat) :
  n <= String.length s ->
  s = substring 0 n s +:+ substring n (String.length s - n) s.
Proof.
  revert n. induction s as [|c s IH]; intros n Hn.
  - simpl in Hn. by replace n with 0 by lia.
  - destruct n as [|n].
    + simpl. by rewrite substring_0_all.
    + simpl in *. rewrite app_String. f_equal. apply IH. lia.
Qed.

Lemma length_substring (s : string) (n m : nat) :
  n + m <= String.length s -> String.length (substring n m s) = m.
Proof.
  revert n m. induction s as [|c s IH]; intros n m Hn; simpl in Hn.
  - replace n with 0 by lia. by replace m with 0 by lia.
  - destruct n as [|n]; simpl.
    + destruct m as [|m]; [done|]. simpl. f_equal. apply IH. lia.
    + apply IH. lia.
Qed.

Lemma length_upper (s : string) : String.length (upper s) = String.length s.
Proof. induction s as [|c s IH]; [done|]. simpl. by rewrite IH. Qed.

Lemma upper_app (a b : string) : upper (a +:+ b) = upper a +:+ upper b.
Proof.
  induction a as [|c a IH]; [done|]. rewrite app_String. simpl.
  by rewrite IH, app_String.
Qed.

Lemma upper_ascii_underscore (c : ascii) :
  upper_ascii c = "_"%char <-> c = "_"%char.
Proof.
  destruct c as [[] [] [] [] [] [] [] []]; vm_compute; split; congruence.
Qed.

Lemma upper_ascii_I (c : ascii) :
  upper_ascii c = "I"%char <-> c = "I"%char \/ c = "i"%char.
Proof.
  destruct c as [[] [] [] [] [] [] [] []]; vm_compute;
    (split; [intros H; first [discriminate H | auto]
            |intros [H|H]; first [discriminate H | reflexivity]]).
Qed.

Lemma upper_ascii_D (c : ascii) :
  upper_ascii c = "D"%char <-> c = "D"%char \/ c = "d"%char.
Proof.
  destruct c as [[] [] [] [] [] [] [] []]; vm_compute;
    (split; [intros H; first [discriminate H | auto]
            |intros [H|H]; first [discriminate H | reflexivity]]).
Qed.

(** The endings that count as [_ID]. *)
Lemma upper_suffix_spec (suffix : string) :
  upper suffix = "_ID" <->
  suffix = "_id" \/ suffix = "_iD" \/ suffix = "_Id" \/ suffix = "_ID".
Proof.
  split.
  - destruct suffix as [|c1 [|c2 [|c3 [|c4 s]]]]; try discriminate.
    simpl. intros [= H1 H2 H3].
    apply upper_ascii_underscore in H1 as ->.
    apply upper_ascii_I in H2. apply upper_ascii_D in H3.
    destruct H2 as [-> | ->], H3 as [-> | ->]; auto.
  - intros [->|[->|[->| ->]]]; reflexivity.
Qed.

Lemma endswith_ID_spec (col : string) :
  endswith (upper col) "_ID" = true <->
  exists suffix, col = drop_last3 col +:+ suffix /\ upper suffix = "_ID".
Proof.
  unfold endswith, drop_last3. rewrite length_upper.
  change (String.length "_ID") with 3. split.
  - intros [Hlen Heq]%andb_true_iff. apply Nat.leb_le in Hlen.
    apply String.eqb_eq in Heq.
    pose proof (substring_split col (String.length col - 3) ltac:(lia)) as Hsplit.
    replace (String.length col - (String.length col - 3)) with 3 in Hsplit
      by lia.
    set (pre := substring 0 (String.length col - 3) col) in *.
    set (suffix := substring (String.length col - 3) 3 col) in *.
    assert (String.length pre = String.length col - 3) as Hpre
      by (apply length_substring; lia).
    assert (String.length suffix = 3) as Hsuf
      by (apply length_substring; lia).
    assert (upper col = upper pre +:+ upper suffix) as Hup
      by (rewrite Hsplit at 1; apply upper_app).
    exists suffix. split; [done|].
    rewrite Hup, <- Hpre, <- (length_upper pre), substring_app_r in Heq.
    rewrite <- Hsuf, <- (length_upper suffix) in Heq.
    by rewrite substring_0_all in Heq.
  - intros (suffix & Hcol & Hup).
    assert (String.length suffix = 3) as Hlen
      by (rewrite <- (length_upper suffix), Hup; done).
    set (pre := substring 0 (String.length col - 3) col) in *.
    assert (String.length col = String.length pre + 3) as Hl
      by (rewrite Hcol at 1; rewrite length_app_text; lia).
    apply andb_true_iff. split; [apply Nat.leb_le; lia|].
    apply String.eqb_eq. rewrite Hcol at 2. rewrite upper_app, Hup.
    replace (String.length col - 3) with (String.length (upper pre))
      by (rewrite length_upper; lia).
    by rewrite substring_app_r.
Qed.

Lemma drop_last3_app (ref suffix : string) :
  String.length suffix = 3 -> drop_last3 (ref +:+ suffix) = ref.
Proof.
  intros Hlen. unfold drop_last3. rewrite length_app_text, Hlen.
  replace (String.length ref + 3 - 3) with (String.length ref) by lia.
  apply substring_app_l.
Qed.

Lemma references_by_name (rbt : RowsByTable) (col ref : string) :
  references rbt col ref <->
  ref ∈ rbt.*1 /\
  (col = ref +:+ "_id" \/ col = ref +:+ "_iD" \/
   col = ref +:+ "_Id" \/ col = ref +:+ "_ID").
Proof.
  unfold references. rewrite endswith_ID_spec. split.
  - intros ((suffix & Hcol & Hup) & -> & Hin). split; [done|].
    apply upper_suffix_spec in Hup.
    destruct Hup as [->|[->|[->| ->]]]; auto.
  - intros (Hin & Hcol).
    assert (exists suffix, col = ref +:+ suffix /\ upper suffix = "_ID")
      as (suffix & -> & Hup).
    { destruct Hcol as [->|[->|[->| ->]]]; eexists; split; reflexivity. }
    assert (drop_last3 (ref +:+ suffix) = ref) as Hdrop.
    { apply drop_last3_app. by rewrite <- (length_upper suffix), Hup. }
    rewrite Hdrop. split; [|done]. by exists suffix.
Qed.

(** The edges of the graph that is built, by the names involved, for an
    input whose column names are ASCII: there is an edge from [a] to [b]
    exactly when [a] is a table of the input and the first row of [b] has a
    column that is the name of [a] followed by [_id] in any mix of upper and
    lower case.  The ending is compared without regard to case, the table
    name exactly as written.  (The restriction to ASCII names is where the
    embedding of [str.upper()] is exact; other letters that upper-case to
    [I] or [D] are outside it.) *)
Theorem edges_by_column_name (rows_by_table : RowsByTable) (G : DiGraph) :
  ascii_columns rows_by_table = true ->
  build_graph rows_by_table = Ok G ->
  forall a b,
    edge G a b <->
    a ∈ rows_by_table.*1 /\
    exists rows row0 suffix,
      (b, rows) ∈ rows_by_table /\ head rows = Some row0 /\
      a +:+ suffix ∈ columns row0 /\
      (suffix = "_id" \/ suffix = "_iD" \/ suffix = "_Id" \/ suffix = "_ID").
Proof.
  intros _ HG a b. destruct (build_graph_spec _ _ HG) as [_ He].
  unfold edge. rewrite He. unfold reference_edge. split.
  - intros (rows & row0 & col & Hb & Hhd & Hcol & Href).
    apply references_by_name in Href as [Hin Hname]. split; [done|].
    destruct Hname as [->|[->|[->| ->]]]; eexists rows, row0, _;
      (split; [done|]); (split; [done|]); (split; [exact Hcol|]); auto.
  - intros (Hin & rows & row0 & suffix & Hb & Hhd & Hcol & Hsuf).
    exists rows, row0, (a +:+ suffix). repeat (split; [done|]).
    apply references_by_name. split; [done|].
    destruct Hsuf as [->|[->|[->| ->]]]; auto.
Qed.

Lemma edges_by_column_name_witness :
  edge {| nodes := ["b"; "a"]; edges := [("b", "a")] |} "b" "a" <->
  "b" ∈ a_refers_to_b.*1 /\
  exists rows row0 suffix,
    ("a", rows) ∈ a_refers_to_b /\ head rows = Some row0 /\
    "b" +:+ suffix ∈ columns row0 /\
    (suffix = "_id" \/ suffix = "_iD" \/ suffix = "_Id" \/ suffix = "_ID").
Proof.
  apply (edges_by_column_name a_refers_to_b); vm_compute; reflexivity.
Defined.

(** A table whose first row has a column named after the table itself
    (the table's name followed by [_id], in any case of the ending) gets an
    edge to itself, and the step ends in the cycle exception: no order is
    produced for any input holding such a table. *)
Theorem own_id_column_ends_in_cycle_exception
    (rows_by_table : RowsByTable) (table suffix : string)
    (rows : list Row) (row0 : Row) :
  Forall (fun entry : string * list Row => entry.2 <> []) rows_by_table ->
  (table, rows) ∈ rows_by_table ->
  head rows = Some row0 ->
  table +:+ suffix ∈ columns row0 ->
  upper suffix = "_ID" ->
  table_order rows_by_table = Some (Raise NetworkXUnfeasible).
Proof.
  intros Hne Hin Hhd Hcol Hsuf.
  destruct (build_graph_total _ Hne) as [G HG].
  destruct (build_graph_spec _ _ HG) as [Hwf He].
  assert (edge G table table) as Hedge.
  { apply He. exists rows, row0, (table +:+ suffix).
    repeat (split; [done|]). apply references_by_name. split.
    - apply list_elem_of_fmap. by exists (table, rows).
    - apply upper_suffix_spec in Hsuf.
      destruct Hsuf as [->|[->|[->| ->]]]; auto. }
  unfold table_order. rewrite HG.
  destruct (topological_sort_spec G Hwf)
    as [(order & _ & Hperm & Hresp)|[Hraise _]]; [|done].
  exfalso. apply (sorted_acyclic G order Hwf Hperm Hresp).
  exists table. by apply tc_once.
Qed.

Lemma own_id_column_ends_in_cycle_exception_witness :
  table_order self_reference = Some (Raise NetworkXUnfeasible).
Proof.
  eapply (own_id_column_ends_in_cycle_exception self_reference
            "customer" "_id").
  - repeat constructor; discriminate.
  - apply list_elem_of_In. left. reflexivity.
  - reflexivity.
  - apply list_elem_of_In. left. reflexivity.
  - reflexivity.
Defined.

(** *** The outcomes of the step *)

Lemma for_each_add_table_raise env entries : forall G e,
  for_each (add_table env) entries G = Raise e ->
  e = IndexError /\
  Exists (fun entry : string * list Row => entry.2 = []) entries.
Proof.
  induction entries as [|[table rows] entries IH]; intros G e; simpl;
    [done|].
  unfold add_table at 1. simpl. destruct rows as [|row0 rows]; simpl.
  - intros [= <-]. split; [done|]. by left.
  - intros H. destruct (IH _ _ H) as [-> Hex]. split; [done|]. by right.
Qed.

Lemma for_each_add_table_ok env entries : forall G G',
  for_each (add_table env) entries G = Ok G' ->
  Forall (fun entry : string * list Row => entry.2 <> []) entries.
Proof.
  induction entries as [|[table rows] entries IH]; intros G G'; simpl;
    [done|].
  unfold add_table at 1. simpl. destruct rows as [|row0 rows]; simpl;
    [done|].
  intros H. constructor; [done|]. by eapply IH.
Qed.

(** How the step can end.  It ends in an [IndexError] exactly when some
    table of the input has an empty list of rows; otherwise it ends with an
    order or in the cycle exception.  It never ends in the library's error
    for a graph changed during iteration, and its loop never runs out of
    iterations. *)
Theorem table_order_outcomes (rows_by_table : RowsByTable) :
  (table_order rows_by_table = Some (Raise IndexError) <->
   Exists (fun entry : string * list Row => entry.2 = []) rows_by_table) /\
  ((exists order, table_order rows_by_table = Some (Ok order)) \/
   table_order rows_by_table = Some (Raise NetworkXUnfeasible) \/
   table_order rows_by_table = Some (Raise IndexError)) /\
  table_order rows_by_table <> Some (Raise RuntimeError) /\
  table_order rows_by_table <> None.
Proof.
  unfold table_order.
  destruct (build_graph rows_by_table) as [G|e] eqn:HG.
  - pose proof (for_each_add_table_ok _ _ _ _ HG) as Hne.
    destruct (build_graph_spec _ _ HG) as [Hwf _].
    assert (~ Exists (fun entry : string * list Row => entry.2 = [])
              rows_by_table) as Hnex.
    { intros Hex. apply Exists_exists in Hex as (entry & Hin & Hempty).
      rewrite Forall_forall in Hne. by apply (Hne entry). }
    destruct (topological_sort_spec G Hwf)
      as [(order & -> & _)|[-> _]].
    + split; [split; [done|tauto]|]. split; [left; eauto|]. done.
    + split; [split; [done|tauto]|]. split; [auto|]. done.
  - destruct (for_each_add_table_raise _ _ _ _ HG) as [-> Hex].
    split; [done|]. split; [auto|]. done.
Qed.

(** *** What the step reads *)

Lemma add_reference_tables rbt rbt' table col G :
  rbt.*1 = rbt'.*1 ->
  add_reference rbt table col G = add_reference rbt' table col G.
Proof. intros H. unfold add_reference, known_table. by rewrite H. Qed.

Lemma add_columns_tables rbt rbt' table cols : forall G,
  rbt.*1 = rbt'.*1 ->
  fold_left (fun G col => add_reference rbt table col G) cols G
  = fold_left (fun G col => add_reference rbt' table col G) cols G.
Proof.
  induction cols as [|col cols IH]; intros G H; simpl; [done|].
  rewrite (add_reference_tables rbt rbt') by done. by apply IH.
Qed.

Lemma for_each_add_table_first_columns rbt rbt' entries : forall entries' G,
  rbt.*1 = rbt'.*1 ->
  first_columns entries = first_columns entries' ->
  for_each (add_table rbt) entries G = for_each (add_table rbt') entries' G.
Proof.
  induction entries as [|[table rows] entries IH];
    intros [|[table' rows'] entries'] G Htables Hfirst;
    try discriminate Hfirst; [done|].
  unfold first_columns in Hfirst. simpl in Hfirst.
  injection Hfirst as -> Hhead Hrest. simpl.
  unfold add_table at 1 3. simpl.
  destruct rows as [|row0 rows], rows' as [|row0' rows'];
    try discriminate Hhead; [done|].
  simpl in Hhead. injection Hhead as Hcols. simpl. rewrite Hcols.
  rewrite (add_columns_tables rbt rbt') by done.
  by apply IH.
Qed.

(** The step reads nothing of its input but the table names, their order
    and the column names of the first row of every table: two inputs that
    agree on these give the same outcome, whatever their values, their
    source files and their rows after the first.  A column that only a
    later row has therefore never adds an edge. *)
Theorem table_order_reads_first_rows (rows_by_table rows_by_table' : RowsByTable) :
  first_columns rows_by_table = first_columns rows_by_table' ->
  table_order rows_by_table = table_order rows_by_table'.
Proof.
  intros Hfirst. unfold table_order, build_graph.
  rewrite (for_each_add_table_first_columns rows_by_table rows_by_table'
             rows_by_table rows_by_table' empty_graph); [done| |done].
  apply (f_equal (fmap fst)) in Hfirst. unfold first_columns in Hfirst.
  rewrite <- !list_fmap_compose in Hfirst. exact Hfirst.
Qed.

Lemma table_order_reads_first_rows_witness :
  table_order reference_in_second_row = table_order first_rows_only.
Proof.
  apply (table_order_reads_first_rows reference_in_second_row first_rows_only).
  reflexivity.
Defined.

End TableOrderingFacts.

(** ** Duplicate detection *)

Module DuplicatesFacts.
Import Duplicates.

Lemma index_spec (x : string) (l : list string) :
  match index x l with
  | Ok i => l !! i = Some x /\ (forall j, j < i -> l !! j <> Some x)
  | Raise e => e = ValueError /\ x ∉ l
  end.
Proof.
  induction l as [|y l IH]; simpl.
  - split; [done|]. apply not_elem_of_nil.
  - destruct (String.eqb_spec y x) as [->|Hne].
    + split; [done|]. intros j Hj. lia.
    + destruct (index x l) as [i|e]; simpl.
      * destruct IH as [Hi Hfirst]. split; [done|].
        intros [|j] Hj; simpl; [congruence|]. apply Hfirst. lia.
      * destruct IH as [-> Hnot]. split; [done|].
        rewrite not_elem_of_cons. split; [congruence|done].
Qed.

Lemma key_part_spec (row : TableOrdering.Row) (col : string) :
  match key_part row col with
  | Ok v =>
      exists i, TableOrdering.columns row !! i = Some col /\
        (forall j, j < i -> TableOrdering.columns row !! j <> Some col) /\
        TableOrdering.values row !! i = Some v
  | Raise ValueError => col ∉ TableOrdering.columns row
  | Raise IndexError =>
      col ∈ TableOrdering.columns row /\
      length (TableOrdering.values row) < length (TableOrdering.columns row)
  end.
Proof.
  unfold key_part. pose proof (index_spec col (TableOrdering.columns row)) as H.
  destruct (index col (TableOrdering.columns row)) as [i|e]; simpl.
  - destruct H as [Hi Hfirst]. unfold item.
    destruct (TableOrdering.values row !! i) as [v|] eqn:Hv.
    + by exists i.
    + split; [by eapply list_elem_of_lookup_2|].
      apply lookup_ge_None in Hv. apply lookup_lt_Some in Hi. lia.
  - by destruct H as [-> H].
Qed.

(** The key of a row.  When every key column is among the row's columns and
    the row has at least as many values as columns, the key is built and
    has one part for each key column: the value at the position of the
    first column of that name.  The construction ends in a [ValueError]
    only if some key column is not among the row's columns, and in an
    [IndexError] only if the row has fewer values than columns. *)
Theorem key_outcomes (row : TableOrdering.Row) (primary_keys : list string) :
  (Forall (fun col => col ∈ TableOrdering.columns row) primary_keys ->
   length (TableOrdering.columns row) <= length (TableOrdering.values row) ->
   exists k, key row primary_keys = Ok k) /\
  (forall k, key row primary_keys = Ok k ->
     Forall2 (fun col v =>
       exists i, TableOrdering.columns row !! i = Some col /\
         (forall j, j < i -> TableOrdering.columns row !! j <> Some col) /\
         TableOrdering.values row !! i = Some v) primary_keys k) /\
  (key row primary_keys = Raise ValueError ->
   Exists (fun col => col ∉ TableOrdering.columns row) primary_keys) /\
  (key row primary_keys = Raise IndexError ->
   length (TableOrdering.values row) < length (TableOrdering.columns row)).
Proof.
  induction primary_keys as [|col rest IH]; simpl.
  { split; [eauto|]. split; [by intros k [= <-]; constructor|]. done. }
  destruct IH as (IHok & IHparts & IHvalue & IHindex).
  pose proof (key_part_spec row col) as Hpart.
  destruct (key_part row col) as [v|[]]; simpl.
  - destruct (key row rest) as [k|e]; simpl.
    + split; [eauto|]. split; [|done].
      intros k' [= <-]. constructor; [done|]. by apply IHparts.
    + split.
      { intros Hall Hlen. apply Forall_cons in Hall as [_ Hall].
        by destruct (IHok Hall Hlen). }
      split; [done|]. split.
      * intros [= ->]. right. by apply IHvalue.
      * intros [= ->]. by apply IHindex.
  - split.
    { intros Hall _. apply Forall_cons in Hall as [Hin _]. done. }
    split; [done|]. split; [|done]. intros _. by left.
  - destruct Hpart as [Hin Hlen]. split.
    { intros _ Hle. lia. }
    split; [done|]. split; [done|]. done.
Qed.

Lemma key_outcomes_witness :
  exists k, key order_row ["id"; "user_id"] = Ok k.
Proof.
  apply (key_outcomes order_row ["id"; "user_id"]).
  - repeat constructor; apply list_elem_of_In; simpl; auto.
  - simpl. lia.
Defined.

Lemma key_part_zip (row : TableOrdering.Row) (col : string) :
  NoDup (TableOrdering.columns row) ->
  length (TableOrdering.columns row) = length (TableOrdering.values row) ->
  match key_part row col with
  | Ok v => (col, v) ∈ zip (TableOrdering.columns row) (TableOrdering.values row)
  | Raise e => e = ValueError /\ col ∉ TableOrdering.columns row
  end.
Proof.
  intros Hnd Hlen. pose proof (key_part_spec row col) as H.
  destruct (key_part row col) as [v|[]].
  - destruct H as (i & Hi & _ & Hv).
    apply list_elem_of_lookup. exists i. apply lookup_zip_with_Some.
    by exists col, v.
  - done.
  - lia.
Qed.

Lemma zip_member_unique (cols vals : list string) (col v v' : string) :
  NoDup cols -> (col, v) ∈ zip cols vals -> (col, v') ∈ zip cols vals ->
  v = v'.
Proof.
  intros Hnd H1 H2.
  apply list_elem_of_lookup in H1 as (i & Hi).
  apply list_elem_of_lookup in H2 as (j & Hj).
  apply lookup_zip_with_Some in Hi as (c1 & w1 & [= <- <-] & Hc1 & Hw1).
  apply lookup_zip_with_Some in Hj as (c2 & w2 & [= <- <-] & Hc2 & Hw2).
  pose proof (NoDup_lookup _ _ _ _ Hnd Hc1 Hc2) as ->. congruence.
Qed.

(** The key does not depend on the order in which a row lists its columns:
    two rows that pair the same columns with the same values, the columns
    being listed once each, have the same key for every choice of key
    columns, whichever file they come from. *)
Theorem key_ignores_column_order
    (row row' : TableOrdering.Row) (primary_keys : list string) :
  NoDup (TableOrdering.columns row) ->
  length (TableOrdering.columns row) = length (TableOrdering.values row) ->
  length (TableOrdering.columns row') = length (TableOrdering.values row') ->
  zip (TableOrdering.columns row) (TableOrdering.values row)
    ≡ₚ zip (TableOrdering.columns row') (TableOrdering.values row') ->
  key row primary_keys = key row' primary_keys.
Proof.
  intros Hnd Hlen Hlen' Hperm.
  assert (TableOrdering.columns row ≡ₚ TableOrdering.columns row') as Hcols.
  { rewrite <- (fst_zip (TableOrdering.columns row) (TableOrdering.values row))
      by lia.
    rewrite <- (fst_zip (TableOrdering.columns row')
                  (TableOrdering.values row')) by lia.
    by rewrite Hperm. }
  assert (NoDup (TableOrdering.columns row')) as Hnd' by by rewrite <- Hcols.
  assert (forall col, key_part row col = key_part row' col) as Hpart.
  { intros col.
    pose proof (key_part_zip row col Hnd Hlen) as H.
    pose proof (key_part_zip row' col Hnd' Hlen') as H'.
    destruct (key_part row col) as [v|e], (key_part row' col) as [v'|e'].
    - f_equal. rewrite Hperm in H.
      by apply (zip_member_unique (TableOrdering.columns row')
                  (TableOrdering.values row') col v v' Hnd').
    - destruct H' as [_ Hnot]. exfalso. apply Hnot. rewrite <- Hcols.
      apply (list_elem_of_fmap_2 fst) in H. simpl in H.
      by rewrite fst_zip in H by lia.
    - destruct H as [_ Hnot]. exfalso. apply Hnot. rewrite Hcols.
      apply (list_elem_of_fmap_2 fst) in H'. simpl in H'.
      by rewrite fst_zip in H' by lia.
    - destruct H as [-> _], H' as [-> _]. done. }
  induction primary_keys as [|col rest IH]; simpl; [done|].
  by rewrite Hpart, IH.
Qed.

Lemma key_ignores_column_order_witness :
  key order_row ["id"; "user_id"] = key order_row_reordered ["id"; "user_id"].
Proof.
  apply (key_ignores_column_order order_row order_row_reordered).
  - repeat constructor; rewrite ?list_elem_of_In; simpl; intuition discriminate.
  - reflexivity.
  - reflexivity.
  - apply (Permutation_app_comm [("id", "1"); ("user_id", "7")]
             [("total", "9.50")]).
Defined.

End DuplicatesFacts.

(** ** Key inference *)

Module KeyInferenceFacts.
Import KeyInference.

Lemma index_unknown (x : string) (l : list string) :
  x ∉ l -> Duplicates.index x l = Duplicates.Raise Duplicates.ValueError.
Proof.
  induction l as [|y l IH]; intros Hnot; simpl; [done|].
  apply not_elem_of_cons in Hnot as [Hne Hnot].
  destruct (String.eqb_spec y x) as [->|_]; [done|].
  by rewrite IH.
Qed.

Lemma key_part_unknown_column (row : TableOrdering.Row) (col : string) :
  col ∉ TableOrdering.columns row ->
  Duplicates.key_part row col = Duplicates.Raise Duplicates.ValueError.
Proof.
  intros Hnot. unfold Duplicates.key_part. by rewrite index_unknown.
Qed.

Lemma key_raises_on_unknown_column
    (row : TableOrdering.Row) (primary_keys : list string) (col : string) :
  col ∈ primary_keys -> col ∉ TableOrdering.columns row ->
  exists e, Duplicates.key row primary_keys = Duplicates.Raise e.
Proof.
  intros Hin Hnot. induction primary_keys as [|c rest IH]; simpl.
  - by apply elem_of_nil in Hin.
  - apply elem_of_cons in Hin as [<-|Hin].
    + rewrite key_part_unknown_column by done. simpl. eauto.
    + destruct (Duplicates.key_part row c) as [v|e]; simpl; [|eauto].
      destruct (IH Hin) as [e ->]. simpl. eauto.
Qed.

(** C6 as stated fails: when the call of the model ends in a timeout
    every time it is made, whatever the encoder and the decoder are and
    however many calls were made before, the step ends in the exception and
    returns no key at all, so in particular not the full column set of
    [items]. *)
Lemma C6_counterexample :
  ~ exists (json_dumps : list TableOrdering.Row -> string)
           (json_loads : string -> result json) (calls : nat) (key : json),
      (infer_primary_keys json_dumps always_times_out json_loads
         items_rows calls).1 = Ok key.
Proof. intros (json_dumps & json_loads & calls & key & H). discriminate H. Qed.

(** C6 (amended): the key-inference step has no retry, no validation and
    no fallback of its own.  It makes one call of [ollama_call], whatever
    the outcome; when the call ends in an exception (a failure or a
    timeout) the step ends in that exception and returns no key; when the
    model replies, the outcome is that of decoding the reply, so a reply
    that is not JSON ends the step in the decoder's exception and any other
    reply becomes [primary_keys] as it is.  A key is returned only if the
    model replied and the reply decodes to that key; and a reply that names
    a column a row does not have is not rejected: it is returned, and
    building the key tuple of that row in the duplicate detection then ends
    in an exception. *)
Theorem C6_key_inference_without_fallback
    {Sample : Type} (json_dumps : Sample -> string)
    (ollama_call : nat -> string -> result string)
    (json_loads : string -> result json)
    (sample_data : Sample) (calls : nat) :
  let prompt := prompt_for json_dumps sample_data in
  let outcome :=
    infer_primary_keys json_dumps ollama_call json_loads sample_data calls in
  outcome.2 = S calls /\
  (forall e, ollama_call calls prompt = Raise e -> outcome.1 = Raise e) /\
  (forall response, ollama_call calls prompt = Ok response ->
     outcome.1 = json_loads response) /\
  (forall key, outcome.1 = Ok key ->
     exists response, ollama_call calls prompt = Ok response /\
       json_loads response = Ok key) /\
  (forall columns col row,
     outcome.1 = Ok (JList (JString <$> columns)) ->
     col ∈ columns -> col ∉ TableOrdering.columns row ->
     exists e, Duplicates.key row columns = Duplicates.Raise e).
Proof.
  intros prompt outcome. subst outcome. unfold infer_primary_keys.
  fold prompt. destruct (ollama_call calls prompt) as [response|e]; simpl.
  - split; [done|]. split; [done|]. split; [by intros ? [= <-]|].
    split; [by eauto|].
    intros columns col row _. apply key_raises_on_unknown_column.
  - split; [done|]. split; [by intros ? [= <-]|]. split; [done|].
    split; [done|]. done.
Qed.

End KeyInferenceFacts.

(** ** The comparison core *)

Module CompareFacts.
Import Compare.

(** *** The maps *)

Lemma fold_add_row_lookup pk rows : forall acc k,
  is_Some ((fold_left (add_row pk) rows acc).1 !! k) <->
  is_Some (acc.1 !! k) \/ k ∈ key_of pk <$> rows.
Proof.
  induction rows as [|r rows IH]; intros acc k; simpl.
  - rewrite elem_of_nil. tauto.
  - rewrite IH. simpl. rewrite elem_of_cons.
    destruct (decide (key_of pk r = k)) as [->|Hne].
    + rewrite lookup_insert_eq. split; [auto|]. intros _. left. by eexists.
    + rewrite lookup_insert_ne by done. split; [tauto|].
      intros [?|[?|?]]; [tauto|congruence|tauto].
Qed.

Lemma build_map_lookup pk rows k :
  is_Some ((build_map pk rows).1 !! k) <-> k ∈ key_of pk <$> rows.
Proof.
  unfold build_map. rewrite fold_add_row_lookup. simpl.
  rewrite lookup_empty. split; [|auto]. intros [[? ?]|?]; done.
Qed.

Lemma build_map_keys (T : Table) k :
  k ∈ keys T <-> is_Some ((build_map (primary_key T) (rows T)).1 !! k).
Proof. unfold keys. by rewrite elem_of_list_to_set, build_map_lookup. Qed.

(** The row kept for a key is a row of the table with that key. *)
Lemma fold_add_row_row pk rows : forall acc k r,
  (fold_left (add_row pk) rows acc).1 !! k = Some r ->
  acc.1 !! k = Some r \/ (r ∈ rows /\ key_of pk r = k).
Proof.
  induction rows as [|r0 rows IH]; intros acc k r; simpl; [auto|].
  intros [H|[Hin Hk]]%IH.
  - simpl in H. destruct (decide (key_of pk r0 = k)) as [<-|Hne].
    + rewrite lookup_insert_eq in H. injection H as <-.
      right. split; [by left|done].
    + rewrite lookup_insert_ne in H by done. by left.
  - right. split; [by right|done].
Qed.

Lemma build_map_row pk rows k r :
  (build_map pk rows).1 !! k = Some r -> r ∈ rows /\ key_of pk r = k.
Proof.
  intros [H|H]%fold_add_row_row; [|done]. simpl in H.
  by rewrite lookup_empty in H.
Qed.

(** *** The sorted keys *)

Section keys.
Context (key_lt : relation Key) `{!RelDecision key_lt}.
Context (enum : gmap Key Row -> list Key) (Henum : enumerates enum).

Lemma sorted_keys_perm m : sorted_keys key_lt enum m ≡ₚ enum m.
Proof. apply merge_sort_Permutation. Qed.

Lemma sorted_keys_NoDup m : NoDup (sorted_keys key_lt enum m).
Proof. rewrite sorted_keys_perm. apply Henum. Qed.

Lemma elem_of_sorted_keys m k :
  k ∈ sorted_keys key_lt enum m <-> is_Some (m !! k).
Proof. rewrite sorted_keys_perm. apply Henum. Qed.

Lemma elem_of_missing_keys ms mt k :
  k ∈ missing_keys key_lt enum ms mt <->
  is_Some (ms !! k) /\ mt !! k = None.
Proof.
  unfold missing_keys.
  rewrite list_elem_of_filter, elem_of_sorted_keys. tauto.
Qed.

Lemma elem_of_extra_keys ms mt k :
  k ∈ extra_keys key_lt enum ms mt <->
  ms !! k = None /\ is_Some (mt !! k).
Proof.
  unfold extra_keys.
  rewrite list_elem_of_filter, elem_of_sorted_keys. tauto.
Qed.

Lemma elem_of_matched_keys ms mt k :
  k ∈ matched_keys key_lt enum ms mt <->
  is_Some (ms !! k) /\ is_Some (mt !! k).
Proof.
  unfold matched_keys.
  rewrite list_elem_of_filter, elem_of_sorted_keys. tauto.
Qed.

Lemma mismatch_of_key excluded ms mt k m :
  mismatch_of excluded ms mt k = Some m -> mismatch_key m = k.
Proof.
  unfold mismatch_of. destruct (ms !! k), (mt !! k); try done.
  destruct (compare_rows _ _ _); [done|]. by intros [= <-].
Qed.
End keys.

(** *** The typed comparison is a strict total order *)

Lemma codes_inj s1 s2 : codes s1 = codes s2 -> s1 = s2.
Proof.
  unfold codes. intros H.
  rewrite <- (string_of_list_ascii_of_string s1),
          <- (string_of_list_ascii_of_string s2).
  f_equal. revert H.
  generalize (list_ascii_of_string s1) (list_ascii_of_string s2).
  induction l as [|a l IH]; intros [|b l']; simpl; try done.
  intros [= Hab Hl]. f_equal; [|by apply IH].
  rewrite <- (ascii_nat_embedding a), <- (ascii_nat_embedding b).
  by rewrite Hab.
Qed.

Lemma kind_index_inj k1 k2 : kind_index k1 = kind_index k2 -> k1 = k2.
Proof. by destruct k1, k2. Qed.

Lemma typed_sort_key_inj a b : typed_sort_key a = typed_sort_key b -> a = b.
Proof.
  destruct a as [[r1 k1]|], b as [[r2 k2]|]; simpl; try done.
  - destruct (if numeric_kind k1 then _ else _),
             (if numeric_kind k2 then _ else _);
      intros H; try congruence;
      assert (codes r1 = codes r2) as Hc by congruence;
      assert (kind_index k1 = kind_index k2) as Hk by congruence;
      by rewrite (codes_inj _ _ Hc), (kind_index_inj _ _ Hk).
  - by destruct (if numeric_kind k1 then _ else _).
  - by destruct (if numeric_kind k2 then _ else _).
Qed.

#[global] Instance value_lexico_po : StrictOrder (@lexico (option Value) _).
Proof.
  split.
  - intros a Ha. unfold lexico, value_lexico in Ha.
    by apply (irreflexivity lexico (typed_sort_key a)).
  - intros a b c Hab Hbc. unfold lexico, value_lexico in *.
    by trans (typed_sort_key b).
Qed.

#[global] Instance value_lexico_trichotomy :
  TrichotomyT (@lexico (option Value) _).
Proof.
  intros a b. unfold lexico, value_lexico.
  destruct (trichotomyT lexico (typed_sort_key a) (typed_sort_key b))
    as [[H|H]|H].
  - left. left. exact H.
  - left. right. by apply typed_sort_key_inj.
  - right. exact H.
Defined.

#[global] Instance typed_key_lt_po : StrictOrder typed_key_lt.
Proof. unfold typed_key_lt. apply _. Qed.
#[global] Instance typed_key_lt_trichotomyT : TrichotomyT typed_key_lt.
Proof. unfold typed_key_lt. apply _. Defined.
#[global] Instance typed_key_lt_dec : RelDecision typed_key_lt.
Proof. apply _. Defined.

Lemma enum_forward_enumerates : enumerates enum_forward.
Proof.
  intros m. unfold enum_forward. split; [apply NoDup_fst_map_to_list|].
  intros k. rewrite list_elem_of_fmap. split.
  - intros ([k' r] & -> & Hin%elem_of_map_to_list). by eexists.
  - intros [r Hr]. exists (k, r). split; [done|]. by apply elem_of_map_to_list.
Qed.

Lemma enum_backward_enumerates : enumerates enum_backward.
Proof.
  intros m. unfold enum_backward.
  destruct (enum_forward_enumerates m) as [Hnd Hin]. unfold enum_forward in *.
  split; [by rewrite reverse_Permutation|].
  intros k. by rewrite elem_of_reverse.
Qed.

(** Numeric keys sort by value, not by text. *)
Example typed_order_numeric :
  let key n := [Some {| raw := n; kind := KInteger |}] in
  merge_sort (key_le typed_key_lt) [key "10"; key "9"; key "-3"]
  = [key "-3"; key "9"; key "10"].
Proof. vm_compute. reflexivity. Qed.

(** *** The classification *)

(** C1: for a table on both sides with PK tuples of equal arity (the
    contract of the DiffEngine), whatever the typed comparison and the
    order in which the maps hand out their keys, the diff is produced; its
    missing keys, its extra keys and the matched keys have no repetition,
    together are exactly the keys of the source rows and of the target rows,
    and are pairwise disjoint; and every mismatch entry is about a matched
    key. *)
Theorem C1_classification_partitions
    (key_lt : relation Key) `{!RelDecision key_lt}
    (enum : gmap Key Row -> list Key) (excluded : list string)
    (source target : Dataset) (name : string) (S T : Table) :
  enumerates enum ->
  source !! name = Some S -> target !! name = Some T ->
  length (primary_key S) = length (primary_key T) ->
  exists d,
    diff_datasets key_lt enum excluded source target !! name = Some (Some d) /\
    let matched :=
      matched_keys key_lt enum
        (build_map (primary_key S) (rows S)).1
        (build_map (primary_key T) (rows T)).1 in
    (NoDup (missing d) /\ NoDup (extra d) /\ NoDup matched) /\
    (list_to_set (missing d) ∪ list_to_set (extra d) ∪ list_to_set matched
       = keys S ∪ keys T) /\
    (forall k, ~ (k ∈ missing d /\ k ∈ extra d)) /\
    (forall k, ~ (k ∈ missing d /\ k ∈ matched)) /\
    (forall k, ~ (k ∈ extra d /\ k ∈ matched)) /\
    (forall m, m ∈ mismatches d -> mismatch_key m ∈ matched).
Proof.
  intros Henum HS HT Harity.
  unfold diff_datasets. rewrite lookup_merge, HS, HT. simpl.
  unfold diff_table. rewrite decide_True by done.
  eexists. split; [reflexivity|]. cbn [missing extra mismatches].
  set (ms := (build_map (primary_key S) (rows S)).1).
  set (mt := (build_map (primary_key T) (rows T)).1).
  split; [|split; [|split; [|split; [|split]]]].
  - split; [|split]; apply NoDup_filter; by apply sorted_keys_NoDup.
  - apply set_eq. intros k.
    rewrite !elem_of_union, !elem_of_list_to_set.
    rewrite elem_of_missing_keys, elem_of_extra_keys, elem_of_matched_keys
      by done.
    rewrite !build_map_keys. fold ms mt.
    destruct (ms !! k) as [rs|], (mt !! k) as [rt|];
      rewrite ?is_Some_alt; intuition (done || congruence).
  - intros k. rewrite elem_of_missing_keys, elem_of_extra_keys by done.
    intros [[[? Hs] _] [Hn _]]. congruence.
  - intros k. rewrite elem_of_missing_keys, elem_of_matched_keys by done.
    intros [[_ Hn] [_ [? Hs]]]. congruence.
  - intros k. rewrite elem_of_extra_keys, elem_of_matched_keys by done.
    intros [[Hn _] [[? Hs] _]]. congruence.
  - intros m (k & Hk & Hm)%list_elem_of_omap.
    by rewrite (mismatch_of_key _ _ _ _ _ Hm).
Qed.

Lemma C1_classification_partitions_witness :
  exists d,
    diff_datasets typed_key_lt enum_forward [] sample_source sample_target
      !! "orders" = Some (Some d) /\
    list_to_set (missing d) ∪ list_to_set (extra d)
      ∪ list_to_set
          (matched_keys typed_key_lt enum_forward
             (build_map ["id"] (rows sample_orders_source)).1
             (build_map ["id"] (rows sample_orders_target)).1)
    = keys sample_orders_source ∪ keys sample_orders_target.
Proof.
  destruct (C1_classification_partitions typed_key_lt enum_forward []
              sample_source sample_target "orders"
              sample_orders_source sample_orders_target
              enum_forward_enumerates)
    as (d & Hd & _ & Hunion & _).
  - reflexivity.
  - reflexivity.
  - reflexivity.
  - exists d. split; [exact Hd|exact Hunion].
Defined.

(** *** A canonical order *)

Section canonical.
Context (key_lt : relation Key).
Context `{!RelDecision key_lt, !StrictOrder key_lt, !Trichotomy key_lt}.

#[local] Instance key_le_total : Total (key_le key_lt).
Proof.
  intros a b. unfold key_le. destruct (decide (key_lt b a)) as [Hba|Hba].
  - right. intros Hab. apply (irreflexivity key_lt a). by trans b.
  - by left.
Qed.

#[local] Instance key_le_trans : Transitive (key_le key_lt).
Proof.
  intros a b c Hab Hbc Hca. unfold key_le in *.
  destruct (trichotomy key_lt a b) as [Hlt|[->|Hgt]]; [|done|done].
  apply Hbc. by trans a.
Qed.

#[local] Instance key_le_antisym : AntiSymm (=) (key_le key_lt).
Proof.
  intros a b Hab Hba. unfold key_le in *.
  by destruct (trichotomy key_lt a b) as [?|[?|?]].
Qed.

Lemma sorted_keys_canonical enum1 enum2 m :
  enumerates enum1 -> enumerates enum2 ->
  sorted_keys key_lt enum1 m = sorted_keys key_lt enum2 m.
Proof.
  intros H1 H2. unfold sorted_keys.
  apply (Sorted_unique (key_le key_lt));
    try apply Sorted_merge_sort; try apply _.
  rewrite !merge_sort_Permutation.
  apply NoDup_Permutation; [apply H1|apply H2|].
  intros k. destruct (H1 m) as [_ ->], (H2 m) as [_ ->]. done.
Qed.

Lemma StronglySorted_filter (P : Key -> Prop) `{!forall k, Decision (P k)}
    (l : list Key) :
  StronglySorted (key_le key_lt) l ->
  StronglySorted (key_le key_lt) (filter P l).
Proof.
  induction 1 as [|k l Hs IH Hall]; [constructor|].
  rewrite filter_cons. destruct (decide (P k)); [|done].
  constructor; [done|]. rewrite Forall_forall in *.
  intros x [_ Hx]%list_elem_of_filter. by apply Hall.
Qed.

Lemma matched_keys_sym enum ms mt :
  enumerates enum ->
  matched_keys key_lt enum mt ms = matched_keys key_lt enum ms mt.
Proof.
  intros Henum. unfold matched_keys.
  apply (StronglySorted_unique (key_le key_lt)).
  - apply StronglySorted_filter, StronglySorted_merge_sort; apply _.
  - apply StronglySorted_filter, StronglySorted_merge_sort; apply _.
  - apply NoDup_Permutation.
    + apply NoDup_filter. by apply sorted_keys_NoDup.
    + apply NoDup_filter. by apply sorted_keys_NoDup.
    + intros k. rewrite !list_elem_of_filter, !elem_of_sorted_keys by done.
      tauto.
Qed.

Lemma diff_table_canonical enum1 enum2 excluded src tgt :
  enumerates enum1 -> enumerates enum2 ->
  diff_table key_lt enum1 excluded src tgt
  = diff_table key_lt enum2 excluded src tgt.
Proof.
  intros H1 H2. unfold diff_table, missing_keys, extra_keys, matched_keys.
  by rewrite !(sorted_keys_canonical enum1 enum2).
Qed.
End canonical.

(** C2: two runs of the DiffEngine over the same pair of datasets give the
    same diff document, entry for entry and in the same order, even if the
    maps hand out their keys in different orders in the two runs: the typed
    comparison, a strict total order on PK tuples, fixes the order. *)
Theorem C2_diff_deterministic
    (key_lt : relation Key)
    `{!RelDecision key_lt, !StrictOrder key_lt, !Trichotomy key_lt}
    (enum1 enum2 : gmap Key Row -> list Key) (excluded : list string)
    (source target : Dataset) :
  enumerates enum1 -> enumerates enum2 ->
  diff_datasets key_lt enum1 excluded source target
  = diff_datasets key_lt enum2 excluded source target.
Proof.
  intros H1 H2. apply map_eq. intros name. unfold diff_datasets.
  rewrite !lookup_merge.
  destruct (source !! name) as [src|], (target !! name) as [tgt|]; simpl;
    try done; f_equal; by apply diff_table_canonical.
Qed.

Lemma C2_diff_deterministic_witness :
  diff_datasets typed_key_lt enum_forward [] sample_source sample_target
  = diff_datasets typed_key_lt enum_backward [] sample_source sample_target.
Proof.
  apply (C2_diff_deterministic typed_key_lt enum_forward enum_backward []
           sample_source sample_target).
  - exact enum_forward_enumerates.
  - exact enum_backward_enumerates.
Defined.

(** *** Exchanging source and target *)

Lemma compare_rows_swap excluded rs rt :
  compare_rows excluded rt rs
  ≡ₚ swap_difference <$> compare_rows excluded rs rt.
Proof.
  unfold compare_rows. rewrite list_fmap_omap.
  assert (Hcols :
    filter (fun c => c ∉ excluded) (remove_dups (columns rt ++ columns rs))
    ≡ₚ filter (fun c => c ∉ excluded)
         (remove_dups (columns rs ++ columns rt))).
  { apply filter_Permutation, NoDup_Permutation; try apply NoDup_remove_dups.
    intros c. rewrite !elem_of_remove_dups, !elem_of_app. tauto. }
  rewrite Hcols. erewrite list_omap_ext; [reflexivity|].
  apply Forall_Forall2_diag, Forall_forall.
  intros c _. destruct (decide (cell c rt = cell c rs)) as [Heq|Hne].
  - by rewrite decide_True.
  - by rewrite decide_False by congruence.
Qed.

Lemma mismatch_of_swap excluded ms mt k :
  option_Forall2 swapped (mismatch_of excluded ms mt k)
    (mismatch_of excluded mt ms k).
Proof.
  unfold mismatch_of.
  destruct (ms !! k) as [rs|], (mt !! k) as [rt|]; try constructor.
  pose proof (compare_rows_swap excluded rs rt) as Hswap.
  destruct (compare_rows excluded rs rt) as [|d ds] eqn:Hst.
  - apply Permutation_nil_r in Hswap. rewrite Hswap. constructor.
  - destruct (compare_rows excluded rt rs) as [|d' ds'] eqn:Hts.
    + symmetry in Hswap. by apply Permutation_nil_r in Hswap.
    + constructor. split; [done|]. simpl. by rewrite Hswap.
Qed.

Lemma omap_Forall2 {A B} (R : relation B) (f g : A -> option B) (l : list A) :
  (forall x, option_Forall2 R (f x) (g x)) ->
  Forall2 R (omap f l) (omap g l).
Proof.
  intros Hfg. induction l as [|x l IH]; simpl; [constructor|].
  destruct (Hfg x); [by constructor|done].
Qed.

Section mirror.
Context (key_lt : relation Key).
Context `{!RelDecision key_lt, !StrictOrder key_lt, !Trichotomy key_lt}.
Context (enum : gmap Key Row -> list Key) (Henum : enumerates enum).

Lemma diff_table_mirrored excluded src tgt :
  mirrored_entry (Some (diff_table key_lt enum excluded src tgt))
    (Some (diff_table key_lt enum excluded tgt src)).
Proof.
  unfold diff_table, mirrored_entry.
  destruct (decide (length (primary_key src) = length (primary_key tgt)))
    as [Hlen|Hlen].
  - rewrite decide_True by done.
    split; [done|]. split; [done|]. split; [|done]. simpl.
    rewrite (matched_keys_sym key_lt enum) by done.
    apply omap_Forall2. intros k. apply mismatch_of_swap.
  - by rewrite decide_False by congruence.
Qed.
End mirror.

(** C3: with source and target exchanged, the diff document has the same
    tables; for each table the missing keys of one run are the extra keys
    of the other, in the same order, and the mismatch entries are the same
    keys in the same order, each with the same columns and with every
    (source value, target value) pair exchanged. *)
Theorem C3_swap_symmetry
    (key_lt : relation Key)
    `{!RelDecision key_lt, !StrictOrder key_lt, !Trichotomy key_lt}
    (enum : gmap Key Row -> list Key) (excluded : list string)
    (source target : Dataset) (name : string) :
  enumerates enum ->
  mirrored_entry
    (diff_datasets key_lt enum excluded source target !! name)
    (diff_datasets key_lt enum excluded target source !! name).
Proof.
  intros Henum. unfold diff_datasets. rewrite !lookup_merge.
  destruct (source !! name) as [src|], (target !! name) as [tgt|]; simpl;
    try done; by apply diff_table_mirrored.
Qed.

Lemma C3_swap_symmetry_witness :
  mirrored_entry
    (diff_datasets typed_key_lt enum_forward [] sample_source sample_target
       !! "orders")
    (diff_datasets typed_key_lt enum_forward [] sample_target sample_source
       !! "orders").
Proof.
  apply (C3_swap_symmetry typed_key_lt enum_forward [] sample_source
           sample_target "orders").
  exact enum_forward_enumerates.
Defined.

(** Example 2 of the specification, with one key on each side only. *)
Example sample_diff :
  let key n := [Some {| raw := n; kind := KInteger |}] in
  let text s := Some {| raw := s; kind := KString |} in
  diff_datasets typed_key_lt enum_forward [] sample_source sample_target
    !! "orders"
  = Some (Some {| missing := [key "10"];
                  extra := [key "7"];
                  mismatches :=
                    [ {| mismatch_key := key "5";
                         differences :=
                           [("label", (text "'OPEN'", text "'CLOSED'"))] |} ];
                  source_anomalies := [];
                  target_anomalies := [] |}).
Proof. vm_compute. reflexivity. Qed.

End CompareFacts.

(** ** The StatementParser *)

Module StatementParserFacts.
Import StatementParser.

(** *** The lexer *)





Lemma white_not_word (c : ascii) : is_white c = true -> is_word_char c = false.
Proof. intros H. unfold is_word_char. rewrite H. reflexivity. Qed.


















(** *** Statements *)



Lemma atoms_tokens_nil (vs : list Atom) : atoms_tokens vs = [] -> vs = [].
Proof. destruct vs; [reflexivity|discriminate]. Qed.

Lemma preceded_cons (t : token) (ts : list token) :
  preceded (t :: ts) = Comma :: t :: ts.
Proof. reflexivity. Qed.

















(** *** The statements of a file *)


Lemma render_app (a b : list (token * Gap)) :
  render (a ++ b) = render a ++ render b.
Proof.
  induction a as [|[t g] a IH]; [reflexivity|].
  simpl. rewrite IH, <- !app_assoc. reflexivity.
Qed.



Lemma locate_first (line : nat) (tgs : list (token * Gap)) :
  tgs <> [] -> head (locate line tgs).*1 = Some line.
Proof. destruct tgs as [|[t g] tgs]; [contradiction|reflexivity]. Qed.








(** *** The lines of the tuples *)














(** *** One statement *)

Section statement.
Variable classify : Atom -> Compare.Kind.
Variable file : string.

End statement.

(** *** A file *)

Section file.
Variable classify : Atom -> Compare.Kind.
Variable file : string.



End file.




(** The text of the example, and what the parser makes of it. *)
Example users_sql_as_text :
  file_text [Comment (list_ascii_of_string " users")] users_sql = users_sql_text.
Proof. vm_compute. reflexivity. Qed.

Example users_sql_parsed :
  let row table cells line :=
    {| Compare.table := table; Compare.cells := cells;
       Compare.source_file := "users.sql"; Compare.line := line |} in
  let bare raw := {| Compare.raw := raw; Compare.kind := Compare.KUnknown |} in
  let text raw := {| Compare.raw := raw; Compare.kind := Compare.KString |} in
  parse_sql_file by_quotes "users.sql" users_sql_text =
  ([row "users" [("id", bare "1"); ("name", text "O'Brien")] 3;
    row "users" [("id", bare "2"); ("name", text "Ann")] 5;
    row "t" [("a", bare "-5")] 8],
   [{| error_line := 6;
       message := "column list required for row reconstruction" |};
    {| error_line := 7; message := "malformed statement" |}]).
Proof. vm_compute. reflexivity. Qed.

(** A statement without its delimiter is a ParseError as well. *)
Example statement_without_delimiter :
  parse_sql_file by_quotes "users.sql" "INSERT INTO t (a) VALUES (1)" =
  ([], [{| error_line := 1; message := malformed_statement |}]).
Proof. vm_compute. reflexivity. Qed.

End StatementParserFacts.
